(** * k8s-port-forward-script: a shallow embedding and its properties

    The development follows [src/k8s-port-forward-script.js].  Each
    definition carries the name of the JavaScript function (or the line
    range of [main]) it is translated from.

    Conventions of the embedding.
    - A JavaScript string is a [string]; each [ascii] stands for one code
      unit below 256.  The white space of [trim], of the pattern [\s] and
      of the numeric conversions is then the set of code units
      9, 10, 11, 12, 13, 32 and 160.
    - An integral JavaScript number is a [Z].  The numbers compared with a
      list length or a port bound are exact as long as the bound is below
      2^53; beyond it a rounded double stays on the same side of the
      bound, so the comparisons of the source agree with those on [Z].
    - [undefined] and [null] are [None]; an exception is the [Throw]
      result of the function that raises it, or the [Threw] outcome of
      the step of the run that raises it.
    - [Number] rounds a numeric literal to the nearest double, as the
      engines do for every literal. *)

From Stdlib Require Import ZArith Ascii String List Bool Lia.
From stdpp Require Import base tactics option list sorting strings pretty gmap.

Local Open Scope Z_scope.

(** ** Runtime strings *)

Module JS.

(** White space and line terminators, the characters removed by
    [String.prototype.trim] and matched by [\s]. *)
Definition isWhiteSpace (c : ascii) : bool :=
  match c with
  | "009" | "010" | "011" | "012" | "013" | " " | "160" => true
  | _ => false
  end%char.

Definition isEmpty (s : string) : bool :=
  match s with EmptyString => true | String _ _ => false end.

Fixpoint trimStart (s : string) : string :=
  match s with
  | EmptyString => EmptyString
  | String c r => if isWhiteSpace c then trimStart r else s
  end.

Fixpoint trimEnd (s : string) : string :=
  match s with
  | EmptyString => EmptyString
  | String c r =>
      let r' := trimEnd r in
      if isWhiteSpace c && isEmpty r' then EmptyString else String c r'
  end.

(** [s.trim()] *)
Definition trim (s : string) : string := trimEnd (trimStart s).

(** [s.split(sep)] for a separator of one character: the result always
    has at least one element, [""] for the empty string. *)
Fixpoint split (sep : ascii) (s : string) : list string :=
  match s with
  | EmptyString => [EmptyString]
  | String c r =>
      if Ascii.eqb c sep then EmptyString :: split sep r
      else match split sep r with
           | h :: t => String c h :: t
           | [] => [String c EmptyString]
           end
  end.

(** [s.split(/\s+/)]: the fields between maximal runs of white space.
    [inRun] tells that the previous character was white space, so that a
    run closes one field only. *)
Fixpoint splitSpaces_go (inRun : bool) (s : string) : list string :=
  match s with
  | EmptyString => [EmptyString]
  | String c r =>
      if isWhiteSpace c then
        if inRun then splitSpaces_go true r
        else EmptyString :: splitSpaces_go true r
      else match splitSpaces_go false r with
           | h :: t => String c h :: t
           | [] => [String c EmptyString]
           end
  end.

Definition splitSpaces (s : string) : list string := splitSpaces_go false s.

(** [parts.join(sep)] *)
Fixpoint join (sep : string) (parts : list string) : string :=
  match parts with
  | [] => EmptyString
  | [p] => p
  | p :: rest => p +:+ sep +:+ join sep rest
  end.

(** [s.startsWith(p)] *)
Fixpoint startsWith (p s : string) : bool :=
  match p, s with
  | EmptyString, _ => true
  | String a p', String b s' => Ascii.eqb a b && startsWith p' s'
  | String _ _, EmptyString => false
  end.

(** The rest of [s] after the prefix [p], when [s] starts with [p]. *)
Fixpoint stripPrefix (p s : string) : option string :=
  match p, s with
  | EmptyString, _ => Some s
  | String a p', String b s' =>
      if Ascii.eqb a b then stripPrefix p' s' else None
  | String _ _, EmptyString => None
  end.

(** [xs.indexOf(x)]: the first position of [x], or [-1]. *)
Fixpoint indexOf (x : string) (xs : list string) : Z :=
  match xs with
  | [] => -1
  | y :: rest =>
      if String.eqb y x then 0
      else let i := indexOf x rest in if i <? 0 then -1 else i + 1
  end.

(** [xs[i]]: [undefined] outside the array, in particular at [-1]. *)
Definition at_ {A} (xs : list A) (i : Z) : option A :=
  if i <? 0 then None else xs !! Z.to_nat i.

(** The value of a digit character in radix up to 36. *)
Definition digitValue (c : ascii) : option Z :=
  let n := Z.of_N (N_of_ascii c) in
  if (48 <=? n) && (n <=? 57) then Some (n - 48)
  else if (97 <=? n) && (n <=? 122) then Some (n - 87)
  else if (65 <=? n) && (n <=? 90) then Some (n - 55)
  else None.

Definition radixDigit (radix : Z) (c : ascii) : option Z :=
  match digitValue c with
  | Some d => if d <? radix then Some d else None
  | None => None
  end.

(** The longest prefix of [s] made of digits of the radix. *)
Fixpoint digitsPrefix (radix : Z) (s : string) : list Z :=
  match s with
  | EmptyString => []
  | String c r =>
      match radixDigit radix c with
      | Some d => d :: digitsPrefix radix r
      | None => []
      end
  end.

Definition mathInt (radix : Z) (ds : list Z) : Z :=
  foldl (fun acc d => acc * radix + d) 0 ds.

(** [parseInt(input, radix)]; [radix = 0] stands for a missing radix.
    [None] is [NaN].  Leading white space is skipped, a sign is read,
    with radix 16 or no radix a prefix [0x] is skipped, then the longest
    run of digits is read and whatever follows it is ignored. *)
Definition parseInt (input : string) (radix : Z) : option Z :=
  let s := trimStart input in
  let '(sign, s) :=
    match s with
    | String "-" r => (-1, r)
    | String "+" r => (1, r)
    | _ => (1, s)
    end in
  if negb (radix =? 0) && ((radix <? 2) || (36 <? radix)) then None
  else
    let hexPrefix :=
      match s with
      | String "0" (String "x" r) | String "0" (String "X" r) => Some r
      | _ => None
      end in
    let '(R, s) :=
      match hexPrefix with
      | Some r => if (radix =? 0) || (radix =? 16) then (16, r)
                  else (radix, s)
      | None => (if radix =? 0 then 10 else radix, s)
      end in
    match digitsPrefix R s with
    | [] => None
    | ds => Some (sign * mathInt R ds)
    end.

(** The digits of the radix at the start of [s], and what follows them. *)
Fixpoint spanDigits (radix : Z) (s : string) : list Z * string :=
  match s with
  | EmptyString => ([], s)
  | String c r =>
      match radixDigit radix c with
      | Some d => let '(ds, rest) := spanDigits radix r in (d :: ds, rest)
      | None => ([], s)
      end
  end.

(** A JavaScript number: [NaN], an infinity, or the double [m * 2^e]. *)
Inductive number :=
  | NaN
  | Infinity (negative : bool)
  | Finite (m e : Z).

(** [num / den] rounded to the nearest integer, ties to even
    ([0 <= num], [0 < den]). *)
Definition roundHalfEven (num den : Z) : Z :=
  let q := num / den in
  let r := num mod den in
  if 2 * r <? den then q
  else if den <? 2 * r then q + 1
  else if Z.even q then q else q + 1.

(** The double nearest to the rational [num / den] ([0 <= num],
    [0 < den]), ties to the even significand: [k] is the binary exponent
    of the value, the significand has 53 bits above [2^-1022] and the
    spacing is [2^-1074] below; a value that rounds to [2^1024] or more
    is infinite. *)
Definition toDouble (num den : Z) : number :=
  if num =? 0 then Finite 0 0
  else
    let k0 := Z.log2 num - Z.log2 den in
    let atLeast :=
      if 0 <=? k0 then den * 2 ^ k0 <=? num else den <=? num * 2 ^ (- k0) in
    let k := if atLeast then k0 else k0 - 1 in
    let q := Z.max (k - 52) (-1074) in
    let m :=
      if 0 <=? q then roundHalfEven num (den * 2 ^ q)
      else roundHalfEven (num * 2 ^ (- q)) den in
    if (0 <=? q) && (2 ^ 1024 <=? m * 2 ^ q) then Infinity false
    else Finite m q.

(** The double nearest to [m * 10^e] ([0 <= m]). *)
Definition decimalToDouble (m e : Z) : number :=
  if 0 <=? e then toDouble (m * 10 ^ e) 1 else toDouble m (10 ^ (- e)).

Definition negate (n : number) : number :=
  match n with
  | NaN => NaN
  | Infinity s => Infinity (negb s)
  | Finite m e => Finite (- m) e
  end.

(** [StrUnsignedDecimalLiteral] without [Infinity]: digits, an optional
    fraction, an optional exponent, with a digit before or after the
    point; the value is [mantissa * 10^exponent]. *)
Definition parseDecimal (s : string) : option (Z * Z) :=
  let '(ip, r1) := spanDigits 10 s in
  let '(fp, r2) :=
    match r1 with
    | String "." r => spanDigits 10 r
    | _ => ([], r1)
    end in
  match ip ++ fp with
  | [] => None
  | ds =>
      let mant := mathInt 10 ds in
      let frac := Z.of_nat (length fp) in
      match r2 with
      | EmptyString => Some (mant, - frac)
      | String "e" r3 | String "E" r3 =>
          let '(esign, r4) :=
            match r3 with
            | String "-" r => (-1, r)
            | String "+" r => (1, r)
            | _ => (1, r3)
            end in
          match spanDigits 10 r4 with
          | (d :: ds', EmptyString) =>
              Some (mant, esign * mathInt 10 (d :: ds') - frac)
          | _ => None
          end
      | _ => None
      end
  end.

(** [0x], [0o] and [0b] literals: the radix and the digits. *)
Definition nonDecimalPrefix (s : string) : option (Z * string) :=
  match s with
  | String "0" (String "x" r) | String "0" (String "X" r) => Some (16, r)
  | String "0" (String "o" r) | String "0" (String "O" r) => Some (8, r)
  | String "0" (String "b" r) | String "0" (String "B" r) => Some (2, r)
  | _ => None
  end.

(** [Number(value)] on a string: white space around the literal is
    dropped, the empty string is [0], text that is no numeric literal is
    [NaN]. *)
Definition Number (value : string) : number :=
  let s := trim value in
  if isEmpty s then Finite 0 0
  else
    match nonDecimalPrefix s with
    | Some (radix, body) =>
        match spanDigits radix body with
        | (d :: ds, EmptyString) => toDouble (mathInt radix (d :: ds)) 1
        | _ => NaN
        end
    | None =>
        let '(neg, u) :=
          match s with
          | String "-" r => (true, r)
          | String "+" r => (false, r)
          | _ => (false, s)
          end in
        if String.eqb u "Infinity" then Infinity neg
        else
          match parseDecimal u with
          | Some (m, e) =>
              let d := decimalToDouble m e in if neg then negate d else d
          | None => NaN
          end
    end.

(** [Number.isInteger(n)] *)
Definition Number_isInteger (n : number) : bool :=
  match n with
  | Finite m e => if 0 <=? e then true else m mod 2 ^ (- e) =? 0
  | _ => false
  end.

(** [n > k] and [n <= k] for an integer [k]. *)
Definition gt (n : number) (k : Z) : bool :=
  match n with
  | NaN => false
  | Infinity negative => negb negative
  | Finite m e => if 0 <=? e then k <? m * 2 ^ e else k * 2 ^ (- e) <? m
  end.

Definition le (n : number) (k : Z) : bool :=
  match n with
  | NaN => false
  | Infinity negative => negative
  | Finite m e => if 0 <=? e then m * 2 ^ e <=? k else m <=? k * 2 ^ (- e)
  end.

(** [String(p)] for an integer: the decimal numeral, with a minus sign
    below zero. *)
Definition String_ (p : Z) : string := pretty p.

(** [s.toLowerCase()] on code units below 256. *)
Definition lowerChar (c : ascii) : ascii :=
  let n := N_of_ascii c in
  if ((65 <=? n) && (n <=? 90) || (192 <=? n) && (n <=? 222) && negb (n =? 215))%N
  then ascii_of_N (n + 32) else c.

Fixpoint toLowerCase (s : string) : string :=
  match s with
  | EmptyString => EmptyString
  | String c r => String (lowerChar c) (toLowerCase r)
  end.

End JS.

(** ** Selection resolver: [parseMultiSelect] (lines 156-173) *)

(** [result.add(n)] on a [Set] kept in insertion order. *)
Definition setAdd (n : Z) (result : list Z) : list Z :=
  if decide (n ∈ result) then result else result ++ [n].

(** The [for (const part of parts)] loop: [None] is the [return null]. *)
Fixpoint selectLoop (max : Z) (parts : list string) (result : list Z)
  : option (list Z) :=
  match parts with
  | [] => Some result
  | part :: rest =>
      match JS.parseInt part 10 with
      | None => None
      | Some n =>
          if (n <? 1) || (max <? n) then None
          else selectLoop max rest (setAdd n result)
      end
  end.

(** The tokens of a selection: split on commas, trimmed, empty ones
    dropped. *)
Definition selectionParts (raw : string) : list string :=
  filter (fun p => p <> EmptyString) (map JS.trim (JS.split "," raw)).

(** [None] is the invalid marker [null]. *)
Definition parseMultiSelect (input : string) (max : Z) : option (list Z) :=
  let raw := JS.trim input in
  if JS.isEmpty raw then Some []
  else
    match selectLoop max (selectionParts raw) [] with
    | None => None
    | Some result => Some (merge_sort Z.le result)
    end.

(** A token written as an integer: an optional sign followed by decimal
    digits and nothing else.  Used to state what [parseInt] lets through. *)
Definition isIntegerToken (s : string) : bool :=
  let body :=
    match s with
    | String "-" r | String "+" r => r
    | _ => s
    end in
  negb (JS.isEmpty body) &&
  (length (JS.digitsPrefix 10 body) =? String.length body)%nat.

(** A token the loop of [parseMultiSelect] rejects. *)
Definition rejected (max : Z) (part : string) : Prop :=
  match JS.parseInt part 10 with
  | None => True
  | Some n => n < 1 \/ max < n
  end.

(** ** Port allocator (lines 144-153) *)

Definition isValidPort (value : string) : bool :=
  let n := JS.Number value in
  JS.Number_isInteger n && JS.gt n 0 && JS.le n 65535.

(** The [while] loop of [nextAvailablePort], for at most [turns] turns.
    Every turn that stays in the loop has met one more member of
    [reservedPorts], and [String] is injective, so [size reservedPorts]
    turns suffice: the port the loop is left with then fails the loop
    test (lemma [scanPorts_exit]).

    The counter is an exact integer.  It is the counter of the source,
    which is a double, as long as it stays below [2^53]: for
    [- 2^53 <= startPort] and [startPort + size reservedPorts < 2^53].  From
    [2^53] on, [p++] leaves the double unchanged; [scanDoubles] counts
    as the source does. *)
Fixpoint scanPorts (turns : nat) (p : Z) (reservedPorts : gset string) : Z :=
  match turns with
  | O => p
  | S turns' =>
      if decide (JS.String_ p ∈ reservedPorts)
      then scanPorts turns' (p + 1) reservedPorts
      else p
  end.

Definition nextAvailablePort (startPort : Z) (reservedPorts : gset string)
  : string :=
  JS.String_ (scanPorts (size reservedPorts) startPort reservedPorts).

(** ** Catalog parser: [parseServicesMap] (lines 60-112) *)

(** The outcome of a function that may throw. *)
Inductive result (A : Type) :=
  | Ok (a : A)
  | Throw (error : string).
Arguments Ok {A} a.
Arguments Throw {A} error.

(** A [Map], or a plain object with string keys that are no array
    indices: the entries in insertion order, an update keeping the place
    of its key. *)
Fixpoint assocGet {V} (k : string) (m : list (string * V)) : option V :=
  match m with
  | [] => None
  | (k', v) :: rest => if decide (k' = k) then Some v else assocGet k rest
  end.

Fixpoint assocSet {V} (k : string) (v : V) (m : list (string * V))
  : list (string * V) :=
  match m with
  | [] => [(k, v)]
  | (k', v') :: rest =>
      if decide (k' = k) then (k, v) :: rest else (k', v') :: assocSet k v rest
  end.

Module Details.
Record t := mk { id : string; namespace : option string; serviceName : string }.
End Details.

(** The object held under a short service name: environment to details. *)
Abbreviation envObject := (list (string * Details.t)).
Abbreviation servicesMap := (list (string * list (string * Details.t))).

Definition envPrefixes : list string := ["dev"; "qa"; "stg"; "prod"].

(** [envPrefixes.find((env) => nameColumn.startsWith(`${env}-`)) ?? "default"] *)
Definition envPrefixOf (nameColumn : string) : string :=
  default "default"
    (List.find (fun env => JS.startsWith (env +:+ "-") nameColumn) envPrefixes).

(** The alternatives of [/^(dev|qa|stg|prod)-/], tried in order. *)
Fixpoint firstStripped (envs : list string) (s : string) : option string :=
  match envs with
  | [] => None
  | env :: rest =>
      match JS.stripPrefix (env +:+ "-") s with
      | Some r => Some r
      | None => firstStripped rest s
      end
  end.

(** [serviceName.replace(envPrefixStripRegex, "")] *)
Definition stripEnvPrefix (serviceName : string) : string :=
  default serviceName (firstStripped envPrefixes serviceName).

(** The characters with a meaning of their own in a pattern; every other
    character of a pattern matches itself. *)
Definition isSyntaxCharacter (c : ascii) : bool :=
  match c with
  | "^" | "$" | "\" | "." | "*" | "+" | "?" | "(" | ")" | "[" | "]"
  | "{" | "}" | "|" => true
  | _ => false
  end%char.

Fixpoint hasSyntaxCharacter (s : string) : bool :=
  match s with
  | EmptyString => false
  | String c r => isSyntaxCharacter c || hasSyntaxCharacter r
  end.

(** [servicesMap.has(k)] and the two statements of lines 101-108. *)
Definition upsert (shortServiceName envPrefix : string) (d : Details.t)
    (m : servicesMap) : servicesMap :=
  let m1 :=
    match assocGet shortServiceName m with
    | Some _ => m
    | None => assocSet shortServiceName [] m
    end in
  match assocGet shortServiceName m1 with
  | Some obj => assocSet shortServiceName (assocSet envPrefix d obj) m1
  | None => m1
  end.

Section CatalogParser.

(** The regular-expression engine of the runtime, as used at line 95:
    [regexpReplace pattern s] is [s.replace(new RegExp(pattern, "g"), "")],
    and [None] the [SyntaxError] of a pattern that does not compile.  It
    is consulted only when the namespace holds a syntax character;
    otherwise the pattern [^<namespace>-] is a literal prefix. *)
Variable regexpReplace : string -> string -> option string.

(** [shortServiceName.replace(new RegExp(`^${namespaceColumn}-`, "g"), "")] *)
Definition stripNamespace (namespaceColumn s : string) : option string :=
  if hasSyntaxCharacter namespaceColumn
  then regexpReplace ("^" +:+ namespaceColumn +:+ "-") s
  else Some (default s (JS.stripPrefix (namespaceColumn +:+ "-") s)).

(** What one data row adds to the catalog: [Ok None] for a row that is
    skipped, [Ok (Some (key, env, details))] for an upsert. *)
Definition rowEntry (namespace : option string)
    (namespaceIndex nameIndex statusIndex : Z) (line : string)
  : result (option (string * string * Details.t)) :=
  let columns := JS.splitSpaces line in
  let statusColumn :=
    if negb (statusIndex =? -1) then JS.at_ columns statusIndex else None in
  if match statusColumn with
     | Some s => negb (String.eqb s "Running")
     | None => false
     end
  then Ok None
  else
    let namespaceColumn :=
      match namespace with
      | Some ns => Some ns
      | None => JS.at_ columns namespaceIndex
      end in
    match JS.at_ columns nameIndex with
    | None => Throw "TypeError: Cannot read properties of undefined"
    | Some nameColumn =>
        let envPrefix := envPrefixOf nameColumn in
        let parts := JS.split "-" nameColumn in
        if (2 <? length parts)%nat then
          let serviceName := JS.join "-" (take (length parts - 2) parts) in
          let serviceId := JS.join "-" (drop (length parts - 2) parts) in
          let shortServiceName := stripEnvPrefix serviceName in
          let stripped :=
            match namespaceColumn with
            | Some ns =>
                if JS.isEmpty ns then Some shortServiceName
                else stripNamespace ns shortServiceName
            | None => Some shortServiceName
            end in
          match stripped with
          | None => Throw "SyntaxError: Invalid regular expression"
          | Some shortServiceName =>
              Ok (Some (shortServiceName, envPrefix,
                        Details.mk serviceId namespaceColumn serviceName))
          end
        else Ok None
    end.

(** The [for] loop over the data rows, left at the first exception. *)
Fixpoint parseRows (namespace : option string)
    (namespaceIndex nameIndex statusIndex : Z)
    (rows : list string) (m : servicesMap) : result servicesMap :=
  match rows with
  | [] => Ok m
  | line :: rest =>
      match rowEntry namespace namespaceIndex nameIndex statusIndex line with
      | Throw e => Throw e
      | Ok None =>
          parseRows namespace namespaceIndex nameIndex statusIndex rest m
      | Ok (Some (key, env, d)) =>
          parseRows namespace namespaceIndex nameIndex statusIndex rest
            (upsert key env d m)
      end
  end.

(** The details of the last row that gives an entry under [key] and
    [env], if any. *)
Fixpoint lastEntry (namespace : option string)
    (namespaceIndex nameIndex statusIndex : Z)
    (rows : list string) (key env : string) : option Details.t :=
  match rows with
  | [] => None
  | line :: rest =>
      match lastEntry namespace namespaceIndex nameIndex statusIndex rest
                      key env with
      | Some d => Some d
      | None =>
          match rowEntry namespace namespaceIndex nameIndex statusIndex line with
          | Ok (Some (key', env', d)) =>
              if decide ((key', env') = (key, env)) then Some d else None
          | _ => None
          end
      end
  end.

Definition listingLines (podsData : string) : list string :=
  JS.split "010" (JS.trim podsData).

Definition listingHeaders (podsData : string) : list string :=
  JS.splitSpaces (hd EmptyString (listingLines podsData)).

Definition listingRows (podsData : string) : list string :=
  tl (listingLines podsData).

Definition parseServicesMap (podsData : string) (namespace : option string)
  : result servicesMap :=
  let headers := listingHeaders podsData in
  let namespaceIndex := JS.indexOf "NAMESPACE" headers in
  let nameIndex := JS.indexOf "NAME" headers in
  let statusIndex := JS.indexOf "STATUS" headers in
  parseRows namespace namespaceIndex nameIndex statusIndex
    (listingRows podsData) [].

End CatalogParser.

(** An engine for the closed examples: none of their namespaces holds a
    syntax character, so it is never consulted. *)
Definition noRegexp (pattern s : string) : option string := None.

(** ** Terminal output (lines 33-40, 131-138, 175-184) *)

Module c.
Definition esc : string := String "027" EmptyString.
Definition reset : string := esc +:+ "[0m".
Definition red : string := esc +:+ "[31m".
Definition green : string := esc +:+ "[32m".
Definition yellow : string := esc +:+ "[33m".
Definition magenta : string := esc +:+ "[35m".
Definition cyan : string := esc +:+ "[36m".
End c.

Definition colorText (colorCode text : string) : string :=
  colorCode +:+ text +:+ c.reset.

Definition LF : string := String "010" EmptyString.
Definition CR : string := String "013" EmptyString.
(** The double quote, for the messages that hold one. *)
Definition DQ : string := String "034" EmptyString.

(** [text.replace(/\r\n/g, "\n")] *)
Fixpoint replaceCRLF (s : string) : string :=
  match s with
  | EmptyString => EmptyString
  | String "013" (String "010" r) => String "010" (replaceCRLF r)
  | String ch r => String ch (replaceCRLF r)
  end.

(** [text.replace(/\r/g, "\n")] *)
Fixpoint replaceCR (s : string) : string :=
  match s with
  | EmptyString => EmptyString
  | String "013" r => String "010" (replaceCR r)
  | String ch r => String ch (replaceCR r)
  end.

(** The loop of [writePrefixedLines] over [lines]: the last line is
    passed over when it is empty. *)
Fixpoint writeLines (colorCode prefix : string) (lines : list string)
  : list string :=
  match lines with
  | [] => []
  | [line] =>
      if JS.isEmpty line then []
      else [colorText colorCode (prefix +:+ " " +:+ line) +:+ LF]
  | line :: rest =>
      (colorText colorCode (prefix +:+ " " +:+ line) +:+ LF)
      :: writeLines colorCode prefix rest
  end.

(** [writePrefixedLines(colorCode, prefix, data)]: the texts handed to
    [process.stdout.write], in order. *)
Definition writePrefixedLines (colorCode prefix data : string) : list string :=
  writeLines colorCode prefix (JS.split "010" (replaceCR (replaceCRLF data))).

(** ** The interactive run: prompts, external commands, output *)

Module Child.
(** A spawned process: [handle] tells the objects apart, [pid] is
    [undefined] when the spawn failed. *)
Record t := mk { handle : nat; pid : option Z }.
End Child.

Inductive callback :=
  | ForceKill (p : Child.t)          (* () => p.kill("SIGKILL") *)
  | ExitProcess (code : Z).          (* () => process.exit(code) *)

Inductive event :=
  | ConsoleLog (text : string)
  | ConsoleError (text : string)
  | StdoutWrite (text : string)
  | Question (text : string)                    (* rl.question *)
  | RlClose                                     (* rl.close() *)
  | Kill (p : Child.t) (signal : option string) (* p.kill(signal) *)
  | Taskkill (pid : Z)                          (* spawn("taskkill", ...) *)
  | SetTimeout (cb : callback) (ms : Z).

(** [print(colorCode, text)] *)
Definition print (colorCode text : string) : event :=
  ConsoleLog (colorText colorCode text).

(** What [exec] hands to its callback. *)
Record execOutcome := mkExec {
  error : option string;   (* the message of the error, if any *)
  stdout : string;
  stderr : string }.

(** The world of one run: the lines the questions of the run receive,
    in order, the outcomes of the external commands in the order they
    are run, the spinner ([intervalId] and [message]) and what has been
    written so far.  [readline] hands a line to the question that is
    pending when the line arrives and drops a line that arrives while
    no question is pending (typed ahead, pasted or piped): such a line
    is no element of [answers].  The frames the spinner draws on its
    interval are left out. *)
Record world := mkWorld {
  answers : list string;
  commands : list execOutcome;
  spinnerRunning : bool;
  spinnerMessage : string;
  trace : list event }.

(** A step completes with a value, throws, or stays pending for ever
    when the operator types no further line or no command outcome
    arrives. *)
Inductive outcome (A : Type) :=
  | Done (a : A) (w : world)
  | Threw (error : string) (w : world)
  | Pending (w : world).
Arguments Done {A} a w.
Arguments Threw {A} error w.
Arguments Pending {A} w.

Definition M (A : Type) : Type := world -> outcome A.

#[global] Instance M_ret : MRet M := fun A a w => Done a w.

#[global] Instance M_bind : MBind M := fun A B k m w =>
  match m w with
  | Done a w' => k a w'
  | Threw e w' => Threw e w'
  | Pending w' => Pending w'
  end.

(** [try { body } catch (error) { handler }] *)
Definition tryCatch {A} (body : M A) (handler : string -> M A) : M A :=
  fun w =>
    match body w with
    | Threw e w' => handler e w'
    | r => r
    end.

Definition emit (e : event) : M unit :=
  fun w => Done tt (mkWorld (answers w) (commands w) (spinnerRunning w)
                            (spinnerMessage w) (trace w ++ [e])).

Fixpoint emitAll (es : list event) : M unit :=
  match es with
  | [] => mret tt
  | e :: rest => emit e;; emitAll rest
  end.

(** [prompt(question)]: the line the question receives, trimmed. *)
Definition prompt (question : string) : M string :=
  fun w =>
    let w' := mkWorld (answers w) (commands w) (spinnerRunning w)
                      (spinnerMessage w) (trace w ++ [Question question]) in
    match answers w with
    | [] => Pending w'
    | a :: rest =>
        Done (JS.trim a)
             (mkWorld rest (commands w') (spinnerRunning w')
                      (spinnerMessage w') (trace w'))
    end.

(** How the promise of [execPromise] settles. *)
Inductive settled :=
  | Resolved (out : string)
  | Rejected (message : string).

Definition settle (o : execOutcome) : settled :=
  match error o with
  | Some e => Rejected e
  | None => if JS.isEmpty (stderr o) then Resolved (stdout o)
            else Rejected (stderr o)
  end.

(** [await execPromise(cmd)]: the output of the command, or the
    rejection thrown at the [await]. *)
Definition execPromise (cmd : string) : M string :=
  fun w =>
    match commands w with
    | [] => Pending w
    | o :: rest =>
        let w' := mkWorld (answers w) rest (spinnerRunning w)
                          (spinnerMessage w) (trace w) in
        match settle o with
        | Resolved out => Done out w'
        | Rejected message => Threw message w'
        end
    end.

Module spinner.

Definition start (newMessage : string) : M unit :=
  fun w =>
    if spinnerRunning w then Done tt w
    else Done tt (mkWorld (answers w) (commands w) true newMessage
                          (trace w ++ [StdoutWrite (newMessage +:+ "...")])).

Definition stop : M unit :=
  fun w =>
    if spinnerRunning w
    then Done tt (mkWorld (answers w) (commands w) false (spinnerMessage w)
                    (trace w ++ [StdoutWrite (CR +:+ spinnerMessage w
                                              +:+ "...done." +:+ LF)]))
    else Done tt w.

End spinner.

(** A value inside a template literal. *)
Definition show (v : option string) : string := default "undefined" v.

(** [getServicePort] (lines 395-410) *)
Definition getServicePort (serviceNamespace : option string)
    (serviceName : string) : M string :=
  let getServicePortCommand :=
    "kubectl get service --namespace " +:+ show serviceNamespace +:+ " "
    +:+ serviceName +:+ " -o jsonpath={.spec.ports[*].port}" in
  emit (print c.green (LF +:+ "> " +:+ getServicePortCommand));;
  spinner.start "Detecting port on the Kubernetes service";;
  tryCatch
    (servicePortDetected ← execPromise getServicePortCommand;
     spinner.stop;;
     emit (print c.cyan ("Port detected: " +:+ servicePortDetected +:+ LF));;
     mret servicePortDetected)
    (fun error =>
     spinner.stop;;
     emit (ConsoleError ("Error detecting port: Error: " +:+ error));;
     mret "3000").

(** ** The indexed prompts of [main] *)

(** The namespace prompt (lines 444-454): the script ends on an invalid
    answer, otherwise a namespace or [undefined] (all namespaces) is
    chosen. *)
Inductive namespaceChoice :=
  | NamespaceInvalid
  | NamespaceChosen (namespace : option string).

Definition selectNamespace (nsAnswer : string) (namespaces : list string)
  : namespaceChoice :=
  let nsIndex :=
    match JS.parseInt nsAnswer 0 with
    | None => 0                         (* NaN || 0 *)
    | Some n => n                       (* 0 || 0 is 0 as well *)
    end in
  (* isNaN(nsIndex) cannot hold after the default *)
  if (nsIndex <? 0) || (Z.of_nat (length namespaces) <? nsIndex)
  then NamespaceInvalid
  else NamespaceChosen
         (if 0 <? nsIndex then JS.at_ namespaces (nsIndex - 1) else None).

(** The service prompt (lines 486-498): [None] when the script ends on
    an invalid selection, otherwise [selectedServices]. *)
Definition selectServices (serviceAnswer : string) (servicesList : list string)
  : option (list (option string)) :=
  match parseMultiSelect serviceAnswer (Z.of_nat (length servicesList)) with
  | None => None
  | Some [] => None
  | Some selectedNumbers =>
      Some (map (fun n => JS.at_ servicesList (n - 1)) selectedNumbers)
  end.

(** The environment prompt (lines 529-538): [None] when the service is
    skipped, otherwise [environment]. *)
Definition selectEnvironment (envAnswer : string) (availableEnvs : list string)
  : option (option string) :=
  let envChoice :=
    match JS.parseInt envAnswer 10 with
    | None => 1                         (* NaN || 1 *)
    | Some n => if n =? 0 then 1 else n (* 0 || 1 *)
    end in
  if (envChoice <? 1) || (Z.of_nat (length availableEnvs) <? envChoice)
  then None
  else Some (JS.at_ availableEnvs (envChoice - 1)).

(** ** The configuration loop of [main] (lines 507-617) *)

Module Config.
Record t := mk {
  selectedService : string;
  environment : string;
  envLabel : string;
  serviceId : string;
  serviceName : string;
  serviceNamespace : option string;
  localPort : string;
  servicePort : string;
  showLogs : bool }.
End Config.

(** The [while (true)] loop of lines 555-576, one turn per answer received:
    the accepted port, the answers left and the trace; no port when no
    answer is left. *)
Fixpoint localPortLoop (question suggestedLocalPort : string)
    (reservedLocalPorts : gset string) (lines : list string)
    (tr : list event) : option string * list string * list event :=
  match lines with
  | [] => (None, [], tr ++ [Question question])
  | line :: rest =>
      let localPortAnswer := JS.trim line in
      let localPort :=
        if JS.isEmpty localPortAnswer then suggestedLocalPort
        else localPortAnswer in
      if negb (isValidPort localPort) then
        localPortLoop question suggestedLocalPort reservedLocalPorts rest
          (tr ++ [Question question;
                  print c.red "Invalid port. Enter a number between 1 and 65535."])
      else if decide (localPort ∈ reservedLocalPorts) then
        localPortLoop question suggestedLocalPort reservedLocalPorts rest
          (tr ++ [Question question;
                  print c.red ("Port " +:+ localPort +:+
                    " is already used by another selection. Choose another.")])
      else (Some localPort, rest, tr ++ [Question question])
  end.

Definition askLocalPort (question suggestedLocalPort : string)
    (reservedLocalPorts : gset string) : M string :=
  fun w =>
    match localPortLoop question suggestedLocalPort reservedLocalPorts
                        (answers w) (trace w) with
    | (Some localPort, rest, tr) =>
        Done localPort
             (mkWorld rest (commands w) (spinnerRunning w) (spinnerMessage w) tr)
    | (None, rest, tr) =>
        Pending (mkWorld rest (commands w) (spinnerRunning w)
                         (spinnerMessage w) tr)
    end.

(** [availableEnvs.forEach((env, index) => print(c.green, ...))] *)
Fixpoint listItems (index : nat) (items : list string) : list event :=
  match items with
  | [] => []
  | item :: rest =>
      print c.green ("[" +:+ JS.String_ (Z.of_nat index + 1) +:+ "] " +:+ item)
      :: listItems (S index) rest
  end.

(** Lines 511-546 of the loop body: the environment chosen for the
    service and its details, [None] when the service is skipped
    ([continue]). *)
Definition chooseEnvironment (catalog : servicesMap) (selectedService : string)
  : M (option (string * Details.t)) :=
  emit (print c.magenta (LF +:+ "--- " +:+ selectedService +:+ " ---"));;
  let envs := default [] (assocGet selectedService catalog) in
  let availableEnvs := map fst envs in
  if (length availableEnvs =? 0)%nat then
    emit (print c.red ("No environments found for " +:+ selectedService
                        +:+ ". Skipping."));;
    mret None
  else
    emit (print c.magenta "Environments:");;
    emitAll (listItems 0 availableEnvs);;
    envAnswer ← prompt (colorText c.yellow
      ("Select an environment for " +:+ selectedService +:+ " (default: 1): "));
    match selectEnvironment envAnswer availableEnvs with
    | None =>
        emit (print c.red ("Invalid environment selection for "
                            +:+ selectedService +:+ ". Skipping."));;
        mret None
    | Some environment =>
        match environment ≫= (fun env => assocGet env envs) with
        | None =>
            emit (print c.red ("The selected environment " +:+ DQ
                    +:+ show environment +:+ DQ +:+ " does not exist for "
                    +:+ DQ +:+ selectedService +:+ DQ +:+ ". Skipping."));;
            mret None
        | Some serviceDetails => mret (Some (show environment, serviceDetails))
        end
    end.

(** Lines 578-616 of the loop body: the destination port, the logs
    choice and the configuration pushed on [selectedConfigs]. *)
Definition completeConfig (selectedService environment envLabel serviceId
    serviceName : string) (serviceNamespace : option string)
    (localPort : string) : M Config.t :=
  servicePortDetected ← getServicePort serviceNamespace serviceName;
  servicePortAnswer ← prompt (colorText c.yellow
    ("Enter the destination port on the Kubernetes service for "
     +:+ envLabel +:+ selectedService +:+ " (default: "
     +:+ servicePortDetected +:+ "): "));
  let servicePort :=
    if JS.isEmpty servicePortAnswer then servicePortDetected
    else servicePortAnswer in
  (if negb (isValidPort servicePort) then
     emit (print c.red ("Invalid destination port for "
            +:+ selectedService +:+ ". Using detected/default: "
            +:+ servicePortDetected))
   else mret tt);;
  logsAnswer ← prompt (colorText c.yellow
    ("Would you like to see the logs in real time for "
     +:+ envLabel +:+ selectedService +:+ "? (Y/n): "));
  let logsChoice :=
    JS.trim (let l := JS.toLowerCase logsAnswer in
             if JS.isEmpty l then "y" else l) in
  let showLogs :=
    String.eqb logsChoice "y" || String.eqb logsChoice "yes"
    || String.eqb logsChoice "" in
  mret (Config.mk selectedService environment envLabel serviceId serviceName
          serviceNamespace localPort
          (if JS.isEmpty servicePortAnswer
           then servicePortDetected else servicePort)
          showLogs).

(** The body of the loop over [selectedServices] (lines 510-617):
    [None] for a service that is skipped, otherwise its configuration;
    the set of reserved local ports is returned as the body leaves it. *)
Definition configureService (catalog : servicesMap) (namespace : option string)
    (reservedLocalPorts : gset string) (selectedService : string)
  : M (option Config.t * gset string) :=
  chosen ← chooseEnvironment catalog selectedService;
  match chosen with
  | None => mret (None, reservedLocalPorts)
  | Some (environment, serviceDetails) =>
      let serviceId := Details.id serviceDetails in
      let serviceName := Details.serviceName serviceDetails in
      let serviceNamespace :=
        match namespace with
        | Some ns => Some ns
        | None => Details.namespace serviceDetails
        end in
      let envLabel :=
        if String.eqb environment "default" then EmptyString
        else environment +:+ "~" in
      let suggestedLocalPort := nextAvailablePort 3000 reservedLocalPorts in
      localPort ← askLocalPort (colorText c.yellow
        ("Enter the local port for " +:+ envLabel +:+ selectedService
         +:+ " (default: " +:+ suggestedLocalPort +:+ "): "))
        suggestedLocalPort reservedLocalPorts;
      let reservedLocalPorts := {[localPort]} ∪ reservedLocalPorts in
      cfg ← completeConfig selectedService environment envLabel serviceId
              serviceName serviceNamespace localPort;
      mret (Some cfg, reservedLocalPorts)
  end.

(** The loop over [selectedServices]: [selectedConfigs] and
    [reservedLocalPorts] as they stand after it. *)
Fixpoint configureAll (catalog : servicesMap) (namespace : option string)
    (selectedServices : list string) (selectedConfigs : list Config.t)
    (reservedLocalPorts : gset string) : M (list Config.t * gset string) :=
  match selectedServices with
  | [] => mret (selectedConfigs, reservedLocalPorts)
  | selectedService :: rest =>
      r ← configureService catalog namespace reservedLocalPorts selectedService;
      match r with
      | (Some cfg, reserved') =>
          configureAll catalog namespace rest (selectedConfigs ++ [cfg]) reserved'
      | (None, reserved') =>
          configureAll catalog namespace rest selectedConfigs reserved'
      end
  end.

(** The configuration phase as [main] starts it: no configuration and
    no reserved port yet. *)
Definition configure (catalog : servicesMap) (namespace : option string)
    (selectedServices : list string) : M (list Config.t * gset string) :=
  configureAll catalog namespace selectedServices [] ∅.

(** ** Tunnels (lines 650-693) *)

Definition podName (cfg : Config.t) : string :=
  Config.serviceName cfg +:+ "-" +:+ Config.serviceId cfg.

Definition portForwardArgs (cfg : Config.t) : list string :=
  [ "port-forward"; "--namespace"; show (Config.serviceNamespace cfg);
    podName cfg; Config.localPort cfg +:+ ":" +:+ Config.servicePort cfg ].

Definition tunnelPrefix (cfg : Config.t) : string :=
  "[" +:+ Config.envLabel cfg +:+ Config.selectedService cfg +:+ ":"
  +:+ Config.localPort cfg +:+ "]".

(** What a tunnel process tells the script. *)
Inductive childEvent :=
  | StdoutData (data : string)
  | StderrData (data : string)
  | Close (code : option Z).

Definition availableMessage (cfg : Config.t) : string :=
  "Service available at: http://localhost:" +:+ Config.localPort cfg.

(** The three listeners of one tunnel: the flag [printedAvailable] as
    they leave it, and the texts written. *)
Definition onChildEvent (cfg : Config.t) (printedAvailable : bool)
    (ev : childEvent) : bool * list string :=
  let prefix := tunnelPrefix cfg in
  match ev with
  | StdoutData data =>
      ( true,
        (if printedAvailable then []
         else writePrefixedLines c.magenta prefix (availableMessage cfg))
        ++ writePrefixedLines c.green prefix data )
  | StderrData data =>
      (printedAvailable, writePrefixedLines c.red prefix data)
  | Close code =>
      ( printedAvailable,
        writePrefixedLines c.cyan prefix
          ("port-forward exited with code "
           +:+ match code with Some n => JS.String_ n | None => "null" end) )
  end.

(** The listeners run over the events of one tunnel, from
    [printedAvailable = false]. *)
Fixpoint runChild (cfg : Config.t) (printedAvailable : bool)
    (evs : list childEvent) : list string :=
  match evs with
  | [] => []
  | ev :: rest =>
      let '(flag, written) := onChildEvent cfg printedAvailable ev in
      written ++ runChild cfg flag rest
  end.

Definition tunnelOutput (cfg : Config.t) (evs : list childEvent) : list string :=
  runChild cfg false evs.

(** ** Shutdown coordinator: [attachGracefulShutdown] (lines 215-287) *)

Inductive platform := win32 | posix.

(** [killPortForwardProcess(p)]; exceptions of the calls are ignored by
    the source and have no place in the trace. *)
Definition killPortForwardProcess (os : platform) (p : Child.t) : list event :=
  match Child.pid p with
  | None => []
  | Some pid =>
      if pid =? 0 then []
      else match os with
           | win32 => [Kill p None; Taskkill pid]
           | posix => [Kill p (Some "SIGINT"); SetTimeout (ForceKill p) 1500]
           end
  end.

(** The script's side of the coordinator: the flag, the two one-time
    listeners, and whether the process still runs.  A signal whose
    listener is gone is handled by the runtime's default action, which
    ends the process without running any code of the script. *)
Record coordinator := mkCoordinator {
  isShuttingDown : bool;
  onSIGINT : bool;
  onSIGTERM : bool;
  running : bool;
  effects : list event }.

Inductive trigger :=
  | SIGINT
  | SIGTERM
  | CallShutdown (reason : option string).

Definition attachGracefulShutdown : coordinator :=
  mkCoordinator false true true true [].

(** [shutdown(reason)] *)
Definition shutdown (os : platform) (processes : list Child.t)
    (reason : option string) (st : coordinator) : coordinator :=
  if isShuttingDown st then st
  else
    mkCoordinator true (onSIGINT st) (onSIGTERM st) (running st)
      (effects st
       ++ match reason with
          | Some r =>
              if JS.isEmpty r then []
              else [print c.cyan (LF +:+ "Shutting down (" +:+ r +:+ ")...")]
          | None => []
          end
       ++ [RlClose]
       ++ flat_map (killPortForwardProcess os) processes
       ++ [SetTimeout (ExitProcess 0) 200]).

(** One trigger.  A signal runs its [process.once] listener, which is
    removed as it runs; a direct call runs [shutdown] with the reason
    passed. *)
Definition deliver (os : platform) (processes : list Child.t)
    (t : trigger) (st : coordinator) : coordinator :=
  if negb (running st) then st
  else
    match t with
    | SIGINT =>
        if onSIGINT st
        then shutdown os processes (Some "SIGINT / Ctrl+C")
               (mkCoordinator (isShuttingDown st) false (onSIGTERM st)
                              (running st) (effects st))
        else mkCoordinator (isShuttingDown st) false (onSIGTERM st) false
                           (effects st)
    | SIGTERM =>
        if onSIGTERM st
        then shutdown os processes (Some "SIGTERM")
               (mkCoordinator (isShuttingDown st) (onSIGINT st) false
                              (running st) (effects st))
        else mkCoordinator (isShuttingDown st) (onSIGINT st) false false
                           (effects st)
    | CallShutdown reason => shutdown os processes reason st
    end.

(** A sequence of triggers, in the order they arrive. *)
Definition deliverAll (os : platform) (processes : list Child.t)
    (ts : list trigger) (st : coordinator) : coordinator :=
  foldl (fun st t => deliver os processes t st) st ts.

(** ** What the statements below observe *)

#[global] Instance child_eq_dec : EqDecision Child.t.
Proof. solve_decision. Defined.

(** The calls [p.kill(...)] made on the child [p], and the forced kills
    scheduled for it. *)
Definition isKillOf (p : Child.t) (e : event) : bool :=
  match e with
  | Kill q _ => bool_decide (q = p)
  | _ => false
  end.

Definition isForceKillOf (p : Child.t) (e : event) : bool :=
  match e with
  | SetTimeout (ForceKill q) _ => bool_decide (q = p)
  | _ => false
  end.

Definition isConsoleLog (e : event) : bool :=
  match e with
  | ConsoleLog _ => true
  | _ => false
  end.

Definition count {A} (f : A -> bool) (l : list A) : nat :=
  length (List.filter f l).

(** A written text in the colour of the availability announcement. *)
Definition isMagenta (text : string) : bool := JS.startsWith c.magenta text.

Definition isStdoutData (ev : childEvent) : bool :=
  match ev with
  | StdoutData _ => true
  | _ => false
  end.

Fixpoint hasLineBreak (s : string) : bool :=
  match s with
  | EmptyString => false
  | String "010" _ | String "013" _ => true
  | String _ r => hasLineBreak r
  end.

(** The entry of a catalog under a short service name and an
    environment. *)
Definition entryAt (m : servicesMap) (key env : string) : option Details.t :=
  assocGet key m ≫= assocGet env.

(** The number a port text denotes for [isValidPort]. *)
Definition portNumber (value : string) : JS.number := JS.Number value.

(** ** Sample data and helpers of the statements *)

Definition child0 : Child.t := Child.mk 0 (Some 4242).

Definition child1 : Child.t := Child.mk 1 None.

Definition listingWithStatus : string :=
  "NAMESPACE NAME READY STATUS RESTARTS AGE" +:+ LF
  +:+ "team1 dev-team1-checkout-7d9f-abc12 1/1 Running 0 3d" +:+ LF
  +:+ "team1 qa-team1-checkout-7d9f-xyz34 0/1 Pending 0 3d" +:+ LF
  +:+ "team2 cart-5c6b-q2w3e 1/1 Running 2 8h" +:+ LF.

Definition listingWithoutStatus : string :=
  "NAMESPACE NAME READY" +:+ LF
  +:+ "team1 qa-team1-checkout-7d9f-xyz34 0/1" +:+ LF
  +:+ "team2 cart 1/1" +:+ LF.

Definition catalogWithStatus : servicesMap :=
  [ ("checkout",
     [("dev", Details.mk "7d9f-abc12" (Some "team1") "dev-team1-checkout")]);
    ("cart", [("default", Details.mk "5c6b-q2w3e" (Some "team2") "cart")]) ].

Definition catalogWithoutStatus : servicesMap :=
  [ ("checkout",
     [("qa", Details.mk "7d9f-xyz34" (Some "team1") "qa-team1-checkout")]) ].

Definition catalogExplicit : servicesMap :=
  [ ("team1-checkout",
     [("dev", Details.mk "7d9f-abc12" (Some "other") "dev-team1-checkout")]);
    ("cart", [("default", Details.mk "5c6b-q2w3e" (Some "other") "cart")]) ].

(** Unfolds the steps of a run. *)
Ltac run :=
  repeat (unfold mbind, M_bind, mret, M_ret, tryCatch, emit, spinner.start,
            spinner.stop, execPromise in *; simpl in * ).

Definition failingDetection : world :=
  mkWorld ["8080"; "n"] [mkExec (Some "Command failed: kubectl") "" ""]
          false "" [].

Definition destinationWorld : world :=
  mkWorld ["80x "; "n"] [mkExec None "8080" ""] false "" [].

(** What the loop keeps true of [selectedConfigs] and
    [reservedLocalPorts]: the local ports are valid, pairwise distinct
    as texts, and all reserved. *)
Definition portsReserved (configs : list Config.t) (reserved : gset string)
  : Prop :=
  NoDup (Config.localPort <$> configs) /\
  Forall (fun cfg => isValidPort (Config.localPort cfg) = true /\
                     Config.localPort cfg ∈ reserved) configs.

Definition twoServices : servicesMap :=
  [ ("checkout",
     [("dev", Details.mk "7d9f-abc12" (Some "team1") "dev-team1-checkout")]);
    ("cart", [("default", Details.mk "5c6b-q2w3e" (Some "team2") "cart")]) ].

Definition detected8080 : execOutcome := mkExec None "8080" "".

(** The operator accepts every default. *)
Definition allDefaults : world :=
  mkWorld [""; ""; ""; ""; ""; ""; ""; ""] [detected8080; detected8080]
          false "" [].

(** The operator types [3000] for the first service and [03000] for the
    second. *)
Definition samePortTwice : world :=
  mkWorld [""; "3000"; ""; ""; ""; "03000"; ""; ""] [detected8080; detected8080]
          false "" [].

(** The operator types [3000] for both services, then [3005]. *)
Definition samePortRefused : world :=
  mkWorld [""; "3000"; ""; ""; ""; "3000"; "3005"; ""; ""]
          [detected8080; detected8080] false "" [].

Definition localPortsOf (r : outcome (list Config.t * gset string))
  : option (list string) :=
  match r with
  | Done (configs, _) _ => Some (Config.localPort <$> configs)
  | _ => None
  end.

Definition listingSameKey : string :=
  "NAME STATUS" +:+ LF
  +:+ "dev-checkout-7d9f-abc12 Running" +:+ LF
  +:+ "dev-checkout-5c6b-q2w3e Running" +:+ LF.

Definition catalogSameKey : servicesMap :=
  [("checkout", [("dev", Details.mk "5c6b-q2w3e" None "dev-checkout")])].

(** The listing of the end-to-end scenario: one row whose name has three
    segments. *)
Definition listingThreeSegments : string :=
  "NAMESPACE NAME STATUS" +:+ LF +:+ "team1 dev-checkout-abc123 Running".

(** * Further parts of the script, and what is observed of them *)

(** ** Shapes of catalogs and rows *)

(** The environment tags a catalog can hold. *)
Definition envTags : list string := "default" :: envPrefixes.

(** A catalog as [parseServicesMap] builds it: every short service name
    occurs once and holds at least one environment, every environment
    occurs once under its service and is one of the five tags. *)
Definition wellFormed (m : servicesMap) : Prop :=
  NoDup (m.*1) /\
  Forall (fun entry =>
            snd entry <> [] /\ NoDup ((snd entry).*1) /\
            Forall (fun env => env ∈ envTags) ((snd entry).*1)) m.

(** The name a row has in the [NAME] column. *)
Definition nameOf (nameIndex : Z) (line : string) : option string :=
  JS.at_ (JS.splitSpaces line) nameIndex.

(** Whether the character [c] occurs in [s]. *)
Fixpoint occurs (c : ascii) (s : string) : bool :=
  match s with
  | EmptyString => false
  | String a r => Ascii.eqb a c || occurs c r
  end.


(** The namespace in play for a row: the explicit one, or the value of
    the [NAMESPACE] column. *)
Definition namespaceOf (namespace : option string) (namespaceIndex : Z)
    (line : string) : option string :=
  match namespace with
  | Some ns => Some ns
  | None => JS.at_ (JS.splitSpaces line) namespaceIndex
  end.

(** Whether the status filter of lines 74-77 lets a row through. *)
Definition passesStatus (statusIndex : Z) (line : string) : bool :=
  match JS.at_ (JS.splitSpaces line) statusIndex with
  | Some s => String.eqb s "Running"
  | None => true
  end.

(** ** The port counter as a double *)

(** The integer a double holds, for a double that holds one. *)
Definition integerOf (n : JS.number) : Z :=
  match n with
  | JS.Finite m e => if 0 <=? e then m * 2 ^ e else m / 2 ^ (- e)
  | _ => 0
  end.

(** [p++] on a number that holds the integer [p]: the double nearest
    to [p + 1], rounded on its absolute value. *)
Definition increment (p : Z) : Z :=
  if 0 <=? p + 1 then integerOf (JS.toDouble (p + 1) 1)
  else - integerOf (JS.toDouble (- (p + 1)) 1).

(** The [while] loop of [nextAvailablePort] counted as the source counts,
    for at most [turns] tests of the loop: the port the loop is left
    with, [None] when it has not been left.  [p] is the integer the
    counter holds; [String(p)] is its decimal numeral below [10^21]. *)
Fixpoint scanDoubles (turns : nat) (p : Z) (reservedPorts : gset string)
  : option Z :=
  match turns with
  | O => None
  | S turns' =>
      if decide (JS.String_ p ∈ reservedPorts)
      then scanDoubles turns' (increment p) reservedPorts
      else Some p
  end.

(** ** Decimal numerals *)

Definition isDigit (c : ascii) : bool :=
  let n := Z.of_N (N_of_ascii c) in (48 <=? n) && (n <=? 57).

Fixpoint allDigits (s : string) : bool :=
  match s with
  | EmptyString => true
  | String c r => isDigit c && allDigits r
  end.

(** A decimal numeral: one digit or more, and nothing else. *)
Definition isNumeral (s : string) : bool := negb (JS.isEmpty s) && allDigits s.

(** The integer a numeral denotes. *)
Definition numeralValue (s : string) : Z :=
  JS.mathInt 10 (JS.digitsPrefix 10 s).

(** ** Observations on a shutdown *)

(** [!p || !p.pid] fails: the child has a process id. *)
Definition hasPid (p : Child.t) : bool :=
  match Child.pid p with
  | Some pid => negb (pid =? 0)
  | None => false
  end.

Definition isRlClose (e : event) : bool :=
  match e with
  | RlClose => true
  | _ => false
  end.

Definition isExitTimer (e : event) : bool :=
  match e with
  | SetTimeout (ExitProcess _) _ => true
  | _ => false
  end.

(** ** Command line: [getArgValue] (lines 114-123) *)

(** The [for] loop over [args]: the first position that holds the flag
    and is followed by a non-empty argument. *)
Fixpoint argLoop (flag : string) (args : list string) : option string :=
  match args with
  | [] => None
  | arg :: rest =>
      if String.eqb arg flag
         && match rest with
            | value :: _ => negb (JS.isEmpty value)
            | [] => false                 (* args[i + 1] is undefined *)
            end
      then head rest
      else argLoop flag rest
  end.

(** [None] is [null]; [argv] is [process.argv]. *)
Definition getArgValue (argv : list string) (flag : string) : option string :=
  argLoop flag (drop 2 argv).

(** ** Logs windows: [openLogsInTerminal] (lines 290-365) *)

(** [s.replace(/\\/g, "\\\\")] *)
Fixpoint escapeBackslashes (s : string) : string :=
  match s with
  | EmptyString => EmptyString
  | String "092" r => String "092" (String "092" (escapeBackslashes r))
  | String ch r => String ch (escapeBackslashes r)
  end.

(** [s.replace(/"/g, '\\"')] *)
Fixpoint escapeQuotes (s : string) : string :=
  match s with
  | EmptyString => EmptyString
  | String "034" r => String "092" (String "034" (escapeQuotes r))
  | String ch r => String ch (escapeQuotes r)
  end.

(** The two replacements of lines 292-293. *)
Definition escape (s : string) : string := escapeQuotes (escapeBackslashes s).

(** What [openLogsInTerminal] starts and reports. *)
Inductive action :=
  | Exec (command : string)                       (* exec(command, callback) *)
  | Spawn (file : string) (args : list string)    (* spawn(file, args, ...) *)
  | Report (text : string).                       (* console.error(text) *)

(** The logs followed in the current process, when no window opens. *)
Definition inlineLogs (logsCommand : string) : action :=
  Spawn "kubectl" (tl (JS.split " " logsCommand)).

(** What the [osascript] child tells its listeners. *)
Inductive osascriptEvent :=
  | OsaStderr (data : string)
  | OsaClose (code : option Z)
  | OsaError (message : string).

(** The three listeners of lines 317-334, with [stderrData] as state. *)
Fixpoint osascriptListeners (logsCommand stderrData : string)
    (evs : list osascriptEvent) : list action :=
  match evs with
  | [] => []
  | OsaStderr data :: rest =>
      osascriptListeners logsCommand (stderrData +:+ data) rest
  | OsaClose code :: rest =>
      (match code with
       | Some 0 => []
       | _ =>
           [Report ("Failed to open Terminal (exit code "
                    +:+ match code with
                        | Some n => JS.String_ n
                        | None => "null"
                        end +:+ ")")]
           ++ (if JS.isEmpty stderrData then []
               else [Report ("stderr: " +:+ stderrData)])
           ++ [inlineLogs logsCommand]
       end)
      ++ osascriptListeners logsCommand stderrData rest
  | OsaError message :: rest =>
      [Report ("Failed to execute osascript: " +:+ message);
       inlineLogs logsCommand]
      ++ osascriptListeners logsCommand stderrData rest
  end.

(** What the world answers to [openLogsInTerminal]: the error each
    [exec] passes to its callback, in the order the commands are
    started ([None] for a command that succeeds), and the events of the
    [osascript] child. *)
Record terminalWorld := mkTerminalWorld {
  execErrors : list (option string);
  osascriptEvents : list osascriptEvent }.

(** [openLogsInTerminal(logsCommand, logsTitle)] under
    [process.platform = platform]: the actions in the order they are
    taken.  A callback that is never called takes no action. *)
Definition openLogsInTerminal (platform : string) (tw : terminalWorld)
    (logsCommand logsTitle : string) : list action :=
  let escapedCommand := escape logsCommand in
  let escapedTitle := escape logsTitle in
  if String.eqb platform "win32" then
    Exec ("start " +:+ DQ +:+ escapedTitle +:+ DQ +:+ " cmd.exe /k "
          +:+ DQ +:+ logsCommand +:+ DQ)
    :: match execErrors tw with
       | Some message :: _ =>
           [Report ("Failed to open terminal: " +:+ message);
            inlineLogs logsCommand]
       | _ => []
       end
  else if String.eqb platform "darwin" then
    Spawn "osascript"
      [ "-e"; "tell application " +:+ DQ +:+ "Terminal" +:+ DQ;
        "-e"; "set newTab to do script " +:+ DQ +:+ escapedCommand +:+ DQ;
        "-e"; "set custom title of newTab to " +:+ DQ +:+ escapedTitle +:+ DQ;
        "-e"; "activate";
        "-e"; "end tell" ]
    :: osascriptListeners logsCommand EmptyString (osascriptEvents tw)
  else
    let commandWithTitle :=
      "echo -ne '\033]0;" +:+ escapedTitle +:+ "\007'; " +:+ escapedCommand in
    Exec ("gnome-terminal -- bash -c " +:+ DQ +:+ commandWithTitle
          +:+ "; exec bash" +:+ DQ)
    :: match execErrors tw with
       | Some _ :: rest1 =>
           Exec ("x-terminal-emulator -e bash -c " +:+ DQ +:+ commandWithTitle
                 +:+ "; exec bash" +:+ DQ)
           :: match rest1 with
              | Some _ :: rest2 =>
                  Exec ("xterm -T " +:+ DQ +:+ escapedTitle +:+ DQ
                        +:+ " -e bash -c " +:+ DQ +:+ escapedCommand
                        +:+ "; exec bash" +:+ DQ)
                  :: match rest2 with
                     | Some message :: _ =>
                         [Report ("Failed to open terminal: " +:+ message);
                          inlineLogs logsCommand]
                     | _ => []
                     end
              | _ => []
              end
       | _ => []
       end.

(** How AppleScript and the shell read a text between double quotes: a
    backslash makes the next character literal, a bare double quote ends
    the text.  [readQuoted false s] is what is read from [s] when the
    text ends where [s] ends; [None] when a bare double quote comes
    before, or when [s] ends on a pending backslash. *)
Fixpoint readQuoted (escaped : bool) (s : string) : option string :=
  match s with
  | EmptyString => if escaped then None else Some EmptyString
  | String ch r =>
      if escaped then String ch <$> readQuoted false r
      else if Ascii.eqb ch "092" then readQuoted true r
      else if Ascii.eqb ch "034" then None
      else String ch <$> readQuoted false r
  end.

Definition isInlineLogs (a : action) : bool :=
  match a with
  | Spawn file _ => String.eqb file "kubectl"
  | _ => false
  end.

(** An event of the [osascript] child that its listeners take for a
    failure: an error, or a close with a code other than 0. *)
Definition osascriptFailure (ev : osascriptEvent) : bool :=
  match ev with
  | OsaStderr _ => false
  | OsaClose (Some 0) => false
  | OsaClose _ => true
  | OsaError _ => true
  end.

(** No terminal command and no [osascript] run fails. *)
Definition noFailure (tw : terminalWorld) : Prop :=
  Forall (fun e => e = None) (execErrors tw) /\
  Forall (fun ev => match ev with
                    | OsaStderr _ => True
                    | OsaClose code => code = Some 0
                    | OsaError _ => False
                    end) (osascriptEvents tw).

(** ** The script: [getNamespaces], [getPods] and [main] (lines 367-393, 412-702) *)

Module metadata.
Definition version : string := "0.0.4".
Definition repository : string :=
  "https://github.com/oijusti/k8s-port-forward-script".
End metadata.

(** [getNamespaces] (lines 367-379) *)
Definition getNamespaces : M (list string) :=
  let getNamespacesCommand :=
    "kubectl get namespaces -o jsonpath={.items[*].metadata.name}" in
  emit (print c.green (LF +:+ "> " +:+ getNamespacesCommand));;
  spinner.start "Loading namespaces";;
  nsOutput ← execPromise getNamespacesCommand;
  let namespaces := JS.splitSpaces (JS.trim nsOutput) in
  spinner.stop;;
  mret namespaces.

(** A value in a condition: [undefined], [null] and the empty string
    are falsy. *)
Definition truthy (v : option string) : bool :=
  match v with
  | Some s => negb (JS.isEmpty s)
  | None => false
  end.

(** [getPods] (lines 381-393) *)
Definition getPods (namespace : option string) : M string :=
  let getPodsCommand :=
    if truthy namespace
    then "kubectl get pods --namespace " +:+ show namespace
    else "kubectl get pods --all-namespaces" in
  emit (print c.green (LF +:+ "> " +:+ getPodsCommand));;
  spinner.start "Loading services";;
  podsData ← execPromise getPodsCommand;
  spinner.stop;;
  mret podsData.

(** What [main] starts: a logs window, or a tunnel. *)
Inductive launch :=
  | OpenLogs (logsCommand logsTitle : string)  (* openLogsInTerminal(...) *)
  | PortForward (args : list string).          (* spawn("kubectl", args, ...) *)

(** The order of [Array.prototype.sort()] without a comparator: the
    strings are compared code unit by code unit. *)
Definition codeUnitLe (a b : string) : Prop := String.leb a b = true.

#[global] Instance codeUnitLe_dec : RelDecision codeUnitLe.
Proof. intros a b. unfold codeUnitLe. apply _. Defined.

(** [Array.from(servicesMap.keys()).sort()] *)
Definition sortedKeys (catalog : servicesMap) : list string :=
  merge_sort codeUnitLe (catalog.*1).

(** The elements of [selectedNumbers.map((n) => servicesList[n - 1])].
    The numbers lie within the list, so none of them is [undefined]
    (theorem [selected_services_in_list_order]). *)
Definition definedServices (selected : list (option string)) : list string :=
  omap id selected.

Definition logsCommand (cfg : Config.t) : string :=
  "kubectl logs --namespace " +:+ show (Config.serviceNamespace cfg) +:+ " "
  +:+ podName cfg +:+ " -f".

(** [`${cfg.envLabel}${cfg.selectedService}:${cfg.localPort}`] *)
Definition sessionLabel (cfg : Config.t) : string :=
  Config.envLabel cfg +:+ Config.selectedService cfg +:+ ":"
  +:+ Config.localPort cfg.

(** The loop of lines 626-638. *)
Fixpoint openLogs (selectedConfigs : list Config.t) : M (list launch) :=
  match selectedConfigs with
  | [] => mret []
  | cfg :: rest =>
      if Config.showLogs cfg then
        emit (print c.green (LF +:+ "> " +:+ logsCommand cfg));;
        emit (print c.cyan ("Opening logs in a separate window ("
                            +:+ sessionLabel cfg +:+ ")"));;
        launches ← openLogs rest;
        mret (OpenLogs (logsCommand cfg) (sessionLabel cfg) :: launches)
      else openLogs rest
  end.

(** [`kubectl ${portForwardArgs.join(" ")}`]; [join] writes nothing for
    an element that is [undefined]. *)
Definition portForwardCommand (cfg : Config.t) : string :=
  "kubectl "
  +:+ JS.join " "
        [ "port-forward"; "--namespace";
          default EmptyString (Config.serviceNamespace cfg); podName cfg;
          Config.localPort cfg +:+ ":" +:+ Config.servicePort cfg ].

(** The loop of lines 650-693, up to the listeners, which are
    [onChildEvent]. *)
Fixpoint startForwards (selectedConfigs : list Config.t) : M (list launch) :=
  match selectedConfigs with
  | [] => mret []
  | cfg :: rest =>
      emit (print c.green (LF +:+ "> " +:+ portForwardCommand cfg));;
      launches ← startForwards rest;
      mret (PortForward (portForwardArgs cfg) :: launches)
  end.

(** The logs windows and the tunnels of a list of configurations. *)
Definition logsLaunches (configs : list Config.t) : list launch :=
  map (fun cfg => OpenLogs (logsCommand cfg) (sessionLabel cfg))
      (List.filter Config.showLogs configs).

Definition forwardLaunches (configs : list Config.t) : list launch :=
  map (fun cfg => PortForward (portForwardArgs cfg)) configs.

Section Main.

(** The first line of the banner holds characters above code unit 255;
    it is a parameter of the run. *)
Variable title : string.

Variable regexpReplace : string -> string -> option string.

Definition banner : list event :=
  [ print c.yellow title;
    print c.cyan metadata.repository;
    print c.cyan ("Version: " +:+ metadata.version);
    print c.cyan "Usage:";
    print c.cyan "  node ./k8s-port-forward-script.js";
    print c.cyan "  node ./k8s-port-forward-script.js --namespace <NAMESPACE>" ].

(** [rl.close(); return;] *)
Definition closeAndReturn : M (list launch) := emit RlClose;; mret [].

(** Lines 619-696: the logs windows, the tunnels, and the end of the
    prompts. *)
Definition startAll (selectedConfigs : list Config.t) : M (list launch) :=
  if (length selectedConfigs =? 0)%nat then
    emit (print c.magenta "No services selected/configured.");;
    closeAndReturn
  else
    logs ← openLogs selectedConfigs;
    emit (print c.reset
            (LF +:+ "Initializing port forwarding (all in this terminal)"));;
    forwards ← startForwards selectedConfigs;
    emit RlClose;;
    mret (logs ++ forwards).

(** Lines 461-696: what [main] does once the namespace is settled. *)
Definition forwardServices (namespace : option string) : M (list launch) :=
  podsData ← getPods namespace;
  match parseServicesMap regexpReplace podsData namespace with
  | Throw e => fun w => Threw e w
  | Ok servicesMap =>
      let servicesList := sortedKeys servicesMap in
      if (length servicesList =? 0)%nat then
        emit (print c.magenta "No services found.");;
        closeAndReturn
      else
        emit (print c.magenta (LF +:+ "Services found:"));;
        emitAll (listItems 0 servicesList);;
        serviceAnswer ← prompt (colorText c.yellow
          "Select one or more services by typing numbers (e.g. 1,3,5): ");
        match selectServices serviceAnswer servicesList with
        | None =>
            emit (ConsoleError
              "Invalid selection. Please run the script again and choose valid numbers (e.g. 1,3,5).");;
            closeAndReturn
        | Some selected =>
            let selectedServices := definedServices selected in
            emit (print c.cyan
                    ("You selected ("
                     +:+ JS.String_ (Z.of_nat (length selectedServices))
                     +:+ "): " +:+ JS.join ", " selectedServices));;
            r ← configure servicesMap namespace selectedServices;
            startAll (fst r)
        end
  end.

(** Lines 423-459: the namespace asked for when the command line names
    none, then the rest of [main]. *)
Definition askNamespace : M (list launch) :=
  namespaces ← getNamespaces;
  if (length namespaces =? 0)%nat then
    emit (print c.magenta "No namespaces found.");;
    closeAndReturn
  else
    emit (print c.magenta (LF +:+ "Namespaces found:"));;
    emitAll (listItems 0 namespaces);;
    nsAnswer ← prompt (colorText c.yellow
      "Select a namespace by typing a number (default: --all-namespaces): ");
    match selectNamespace nsAnswer namespaces with
    | NamespaceInvalid =>
        emit (ConsoleError
          "Invalid selection. Please run the script again and choose a valid number.");;
        closeAndReturn
    | NamespaceChosen namespace =>
        emit (print c.cyan
                ("You selected namespace: "
                 +:+ if truthy namespace then show namespace
                     else "--all-namespaces"));;
        forwardServices namespace
    end.

(** [main], run with [process.argv = argv]: the processes it starts, in
    order.  The error caught at line 697 is printed by its message. *)
Definition main (argv : list string) : M (list launch) :=
  emitAll banner;;
  tryCatch
    (let namespace := getArgValue argv "--namespace" in
     if truthy namespace then forwardServices namespace else askNamespace)
    (fun error =>
       spinner.stop;;
       emit (ConsoleError error);;
       closeAndReturn).

End Main.

(** ** What a run writes *)

(** Three messages of the script: no namespace found (line 428), no
    environment found for a service (line 514), and an environment that
    does not exist for a service (lines 541-544). *)
Definition isDeadMessage (text : string) : bool :=
  JS.startsWith (c.magenta +:+ "No namespaces found.") text
  || JS.startsWith (c.red +:+ "No environments found for ") text
  || JS.startsWith (c.red +:+ "The selected environment ") text.

(** An effect other than [rl.close()] and the three messages. *)
Definition ordinary (e : event) : Prop :=
  match e with
  | RlClose => False
  | ConsoleLog text => isDeadMessage text = false
  | _ => True
  end.

(** From [w] to [w'] only ordinary effects are added, and command
    outcomes are used in order. *)
Definition extends (w w' : world) : Prop :=
  (exists added, trace w' = trace w ++ added /\ Forall ordinary added) /\
  (exists used, commands w = used ++ commands w').

(** A step that adds ordinary effects only and, when it completes,
    leaves a stopped spinner stopped. *)
Definition quiet {A} (m : M A) : Prop :=
  forall w,
    match m w with
    | Done _ w' =>
        extends w w' /\ (spinnerRunning w = false -> spinnerRunning w' = false)
    | Threw _ w' => extends w w'
    | Pending w' => extends w w'
    end.

(** A step that, when it completes, has closed the prompt interface as
    its last effect, after ordinary effects only. *)
Definition closing {A} (m : M A) : Prop :=
  forall w,
    match m w with
    | Done _ w' =>
        (exists added, trace w' = trace w ++ added ++ [RlClose] /\
                       Forall ordinary added) /\
        (spinnerRunning w = false -> spinnerRunning w' = false)
    | Threw _ w' => extends w w'
    | Pending w' => extends w w'
    end.

(** A step that adds ordinary effects only, however it ends. *)
Definition traces {A} (m : M A) : Prop :=
  forall w,
    match m w with
    | Done _ w' => extends w w'
    | Threw _ w' => extends w w'
    | Pending w' => extends w w'
    end.

(** The world an outcome leaves. *)
Definition finalWorld {A} (r : outcome A) : world :=
  match r with
  | Done _ w => w
  | Threw _ w => w
  | Pending w => w
  end.

(** ** The local-port loop, line by line *)

(** [localPortAnswer || suggestedLocalPort] for the answer received. *)
Definition candidatePort (suggestedLocalPort line : string) : string :=
  let localPortAnswer := JS.trim line in
  if JS.isEmpty localPortAnswer then suggestedLocalPort else localPortAnswer.

(** The two tests of lines 563-573 both pass. *)
Definition acceptable (reservedLocalPorts : gset string) (localPort : string)
  : bool :=
  isValidPort localPort && bool_decide (localPort ∉ reservedLocalPorts).

Definition isQuestion (e : event) : bool :=
  match e with
  | Question _ => true
  | _ => false
  end.

(** ** Sample data of the statements *)

(** A listing whose header has no [NAME] column. *)
Definition listingNoName : string :=
  "NAMESPACE POD" +:+ LF +:+ "team1 checkout-7d9f-abc12".

(** A run with [--namespace team1]: one service selected, every default
    accepted but the logs. *)
Definition sessionArgv : list string :=
  ["node"; "k8s-port-forward-script.js"; "--namespace"; "team1"].

Definition listingTeam1 : string :=
  "NAME READY STATUS RESTARTS AGE" +:+ LF
  +:+ "dev-team1-checkout-7d9f-abc12 1/1 Running 0 3d" +:+ LF
  +:+ "cart-5c6b-q2w3e 0/1 Pending 0 8h" +:+ LF.

Definition sessionWorld : world :=
  mkWorld ["1"; ""; ""; ""; "n"] [mkExec None listingTeam1 ""; detected8080]
          false "" [].

(** The detection prints two ports; the operator accepts every default. *)
Definition twoPortsWorld : world :=
  mkWorld [""; "n"] [mkExec None "80 443" ""] false "" [].

(** The listing command fails: [kubectl] is not to be found. *)
Definition failingListing : world :=
  mkWorld [] [mkExec (Some "Command failed: kubectl get pods") "" ""] false "" [].

(** A service listed in two environments, [qa] first. *)
Definition listingTwoEnvironments : string :=
  "NAME STATUS" +:+ LF
  +:+ "qa-checkout-7d9f-xyz34 Running" +:+ LF
  +:+ "dev-checkout-7d9f-abc12 Running" +:+ LF.

(** A run without [--namespace]: the second of two namespaces is chosen,
    then its one service, every default accepted but the logs. *)
Definition promptArgv : list string := ["node"; "k8s-port-forward-script.js"].

Definition listingTeam2 : string :=
  "NAME READY STATUS RESTARTS AGE" +:+ LF
  +:+ "cart-5c6b-q2w3e 1/1 Running 2 8h" +:+ LF.

Definition promptWorld : world :=
  mkWorld ["2"; "1"; ""; ""; ""; "n"]
          [mkExec None "team1 team2" ""; mkExec None listingTeam2 "";
           detected8080]
          false "" [].
(** * Properties *)

(** ** Selection resolver *)

Example parseMultiSelect_spaces :
  parseMultiSelect " 2, 1 ,1,,2 " 5 = Some [1; 2].
Proof. reflexivity. Qed.

Section SelectLoop.

Variable max : Z.

Lemma setAdd_NoDup n result : NoDup result -> NoDup (setAdd n result).
Proof.
  intros Hnd. unfold setAdd. case_decide; [done|].
  apply NoDup_app. repeat split; [done| |apply NoDup_singleton].
  intros x Hx Hx'. apply list_elem_of_singleton in Hx'. by subst.
Qed.

Lemma elem_of_setAdd n m result : m ∈ setAdd n result <-> m = n \/ m ∈ result.
Proof.
  unfold setAdd. case_decide.
  - split; [by right|]. intros [->|]; done.
  - rewrite elem_of_app, list_elem_of_singleton. tauto.
Qed.

Lemma selectLoop_Some parts acc result :
  selectLoop max parts acc = Some result ->
  (NoDup acc -> NoDup result) /\
  (forall n, n ∈ result <->
     n ∈ acc \/ exists part, part ∈ parts /\ JS.parseInt part 10 = Some n) /\
  Forall (fun part => exists n, JS.parseInt part 10 = Some n /\ 1 <= n <= max)
         parts.
Proof.
  revert acc. induction parts as [|part rest IH]; intros acc Hloop; simpl in Hloop.
  - injection Hloop as <-. split; [done|]. split; [|constructor].
    intros n. split; [by left|]. intros [|(p & Hp & _)]; [done|].
    by apply elem_of_nil in Hp.
  - destruct (JS.parseInt part 10) as [n|] eqn:Hparse; [|done].
    destruct ((n <? 1) || (max <? n)) eqn:Hrange; [done|].
    apply orb_false_iff in Hrange as [H1 H2].
    apply Z.ltb_ge in H1, H2.
    destruct (IH _ Hloop) as (Hnd & Hel & Hall).
    split; [|split].
    + intros Hacc. by apply Hnd, setAdd_NoDup.
    + intros m. rewrite Hel, elem_of_setAdd. split.
      * intros [[->|Hm]|(p & Hp & Hpm)].
        -- right. exists part. split; [left|done].
        -- by left.
        -- right. exists p. split; [by right|done].
      * intros [Hm|(p & Hp & Hpm)]; [by left; right|].
        apply elem_of_cons in Hp as [->|Hp].
        -- left; left. congruence.
        -- right. by exists p.
    + constructor; [|done]. exists n. split; [done|lia].
Qed.

Lemma selectLoop_None parts acc :
  selectLoop max parts acc = None <->
  exists part, part ∈ parts /\ rejected max part.
Proof.
  revert acc. induction parts as [|part rest IH]; intros acc; simpl.
  - split; [done|]. intros (p & Hp & _). by apply elem_of_nil in Hp.
  - unfold rejected at 1. 
    destruct (JS.parseInt part 10) as [n|] eqn:Hparse.
    + destruct ((n <? 1) || (max <? n)) eqn:Hrange.
      * split; [|done]. intros _. exists part. split; [left|].
        unfold rejected. rewrite Hparse.
        apply orb_true_iff in Hrange as [H|H]; apply Z.ltb_lt in H; lia.
      * apply orb_false_iff in Hrange as [H1 H2].
        apply Z.ltb_ge in H1, H2. rewrite IH. split.
        -- intros (p & Hp & Hrej). exists p. split; [by right|done].
        -- intros (p & Hp & Hrej). apply elem_of_cons in Hp as [->|Hp].
           ++ unfold rejected in Hrej. rewrite Hparse in Hrej. lia.
           ++ by exists p.
    + split; [|done]. intros _. exists part. split; [left|].
      unfold rejected. by rewrite Hparse.
Qed.

End SelectLoop.

Lemma Sorted_le_NoDup_lt (l : list Z) :
  Sorted Z.le l -> NoDup l -> StronglySorted Z.lt l.
Proof.
  intros Hs Hnd. apply Sorted_StronglySorted in Hs; [|apply _].
  induction Hs as [|x l Hs IH Hall]; [constructor|].
  apply NoDup_cons in Hnd as [Hx Hnd].
  constructor; [by apply IH|].
  apply Forall_forall. intros y Hy.
  rewrite Forall_forall in Hall. specialize (Hall y Hy).
  assert (x <> y) by (intros ->; done). lia.
Qed.

(** A selection that is returned. *)
Lemma parseMultiSelect_Some (input : string) (max : Z) (l : list Z) :
  parseMultiSelect input max = Some l ->
  StronglySorted Z.lt l /\ NoDup l /\
  Forall (fun n => 1 <= n <= max) l /\
  (JS.trim input <> EmptyString ->
   forall n, n ∈ l <->
     exists part, part ∈ selectionParts (JS.trim input) /\
                  JS.parseInt part 10 = Some n).
Proof.
  unfold parseMultiSelect. intros Hl.
  destruct (JS.trim input) as [|ch raw] eqn:Hraw; simpl in Hl.
  { injection Hl as <-.
    split; [constructor|]. split; [constructor|]. split; [constructor|].
    done. }
  destruct (selectLoop max _ []) as [result|] eqn:Hloop; [|done].
  injection Hl as <-.
  destruct (selectLoop_Some _ _ _ _ Hloop) as (Hnd & Hel & Hall).
  specialize (Hnd (NoDup_nil_2)).
  assert (Hperm : merge_sort Z.le result ≡ₚ result)
    by apply merge_sort_Permutation.
  assert (Hnd' : NoDup (merge_sort Z.le result)) by by rewrite Hperm.
  split; [|split; [done|split]].
  - apply Sorted_le_NoDup_lt; [|done]. apply Sorted_merge_sort. apply _.
  - apply Forall_forall. intros n Hn. rewrite Hperm in Hn.
    apply Hel in Hn as [Hn|(p & Hp & Hpn)]; [by apply elem_of_nil in Hn|].
    rewrite Forall_forall in Hall. destruct (Hall p Hp) as (n' & Hn' & ?).
    congruence.
  - intros _ n. rewrite Hperm, Hel. split; [|by right].
    intros [Hn|?]; [by apply elem_of_nil in Hn|done].
Qed.

(** The empty selection. *)
Lemma parseMultiSelect_blank (input : string) (max : Z) :
  JS.trim input = EmptyString -> parseMultiSelect input max = Some [].
Proof. unfold parseMultiSelect. by intros ->. Qed.

(** The invalid marker. *)
Lemma parseMultiSelect_None (input : string) (max : Z) :
  JS.trim input <> EmptyString ->
  (parseMultiSelect input max = None <->
   exists part, part ∈ selectionParts (JS.trim input) /\ rejected max part).
Proof.
  unfold parseMultiSelect. intros Hne.
  destruct (JS.trim input) as [|ch raw]; [done|]. simpl.
  rewrite <- selectLoop_None with (acc := []).
  destruct (selectLoop max _ []); split; done.
Qed.

(** C1 (as amended).  [parseMultiSelect] returns the invalid marker or a
    strictly ascending (hence duplicate-free) list of integers of
    [1..max] that holds exactly the values [parseInt] reads from the
    tokens; input that is empty after trimming gives the empty
    selection; and the result is invalid exactly when [parseInt] reads
    no number, or a number outside [1..max], from some token, so that a
    part of a selection is never returned. *)
Theorem parseMultiSelect_sorted_atomic (input : string) (max : Z) :
  (forall l, parseMultiSelect input max = Some l ->
     StronglySorted Z.lt l /\ NoDup l /\
     Forall (fun n => 1 <= n <= max) l /\
     (JS.trim input <> EmptyString ->
      forall n, n ∈ l <->
        exists part, part ∈ selectionParts (JS.trim input) /\
                     JS.parseInt part 10 = Some n)) /\
  (JS.trim input = EmptyString -> parseMultiSelect input max = Some []) /\
  (JS.trim input <> EmptyString ->
   (parseMultiSelect input max = None <->
    exists part, part ∈ selectionParts (JS.trim input) /\ rejected max part)).
Proof.
  split; [|split].
  - intros l. apply parseMultiSelect_Some.
  - apply parseMultiSelect_blank.
  - apply parseMultiSelect_None.
Qed.

(** C1, as stated, fails: the token [2x] is no integer, yet the
    selection [1,2x] is accepted with [2] read from it, and so is [2.5]. *)
Lemma parseMultiSelect_accepts_non_integer_token :
  isIntegerToken "2x" = false /\
  "2x" ∈ selectionParts "1,2x" /\
  parseMultiSelect "1,2x" 5 = Some [1; 2] /\
  isIntegerToken "2.5" = false /\
  parseMultiSelect "2.5" 5 = Some [2].
Proof.
  split; [reflexivity|]. split; [|repeat split; reflexivity].
  vm_compute. apply list_elem_of_In. right. by left.
Qed.

(** ** Port allocator *)

Section ScanPorts.

Variable reservedPorts : gset string.

Lemma scanPorts_spec turns p :
  let r := scanPorts turns p reservedPorts in
  p <= r <= p + Z.of_nat turns /\
  (forall q, p <= q < r -> JS.String_ q ∈ reservedPorts) /\
  (r < p + Z.of_nat turns -> JS.String_ r ∉ reservedPorts).
Proof.
  revert p. induction turns as [|turns IH]; intros p; simpl.
  - split; [lia|]. split; intros; lia.
  - case_decide as Hin.
    + destruct (IH (p + 1)) as (Hle & Hbelow & Hexit).
      split; [lia|]. split.
      * intros q Hq. destruct (decide (q = p)) as [->|]; [done|].
        apply Hbelow. lia.
      * intros Hlt. apply Hexit. lia.
    + split; [lia|]. split; [intros; lia|done].
Qed.

(** The pigeonhole: a run of consecutive ports whose numerals are all
    reserved is no longer than the set. *)
Lemma reserved_run_size p (n : nat) :
  (forall q, p <= q < p + Z.of_nat n -> JS.String_ q ∈ reservedPorts) ->
  (n <= size reservedPorts)%nat.
Proof.
  intros Hrun.
  set (l := JS.String_ <$> seqZ p (Z.of_nat n)).
  assert (Hnd : NoDup l).
  { apply NoDup_fmap_2; [unfold JS.String_; apply _|apply NoDup_seqZ]. }
  assert (Hsub : list_to_set (C := gset string) l ⊆ reservedPorts).
  { intros s Hs. apply elem_of_list_to_set in Hs.
    apply list_elem_of_fmap in Hs as (q & -> & Hq).
    apply elem_of_seqZ in Hq. apply Hrun. lia. }
  apply subseteq_size in Hsub.
  rewrite size_list_to_set in Hsub by done.
  unfold l in Hsub. rewrite length_fmap, length_seqZ in Hsub. lia.
Qed.

(** After [size reservedPorts] turns the loop test fails: the bound of
    [scanPorts] cuts no run of the source's loop short. *)
Lemma scanPorts_exit p :
  JS.String_ (scanPorts (size reservedPorts) p reservedPorts) ∉ reservedPorts.
Proof.
  destruct (scanPorts_spec (size reservedPorts) p) as (Hle & Hbelow & Hexit).
  set (r := scanPorts (size reservedPorts) p reservedPorts) in *.
  destruct (decide (r < p + Z.of_nat (size reservedPorts))) as [Hlt|Hge];
    [by apply Hexit|].
  assert (r = p + Z.of_nat (size reservedPorts)) as Hr by lia.
  intros Hin.
  assert (S (size reservedPorts) <= size reservedPorts)%nat; [|lia].
  apply (reserved_run_size p). intros q Hq.
  destruct (decide (q = r)) as [->|]; [done|]. apply Hbelow. lia.
Qed.

(** More turns than [size reservedPorts] reach the same port. *)
Lemma scanPorts_more turns p :
  (size reservedPorts <= turns)%nat ->
  scanPorts turns p reservedPorts
  = scanPorts (size reservedPorts) p reservedPorts.
Proof.
  intros Hturns.
  destruct (scanPorts_spec turns p) as (Hle & Hbelow & Hexit).
  destruct (scanPorts_spec (size reservedPorts) p) as (Hle' & Hbelow' & _).
  pose proof (scanPorts_exit p) as Hout.
  set (r := scanPorts turns p reservedPorts) in *.
  set (r' := scanPorts (size reservedPorts) p reservedPorts) in *.
  destruct (Z.lt_trichotomy r r') as [Hlt|[->|Hgt]]; [|done|].
  - exfalso. apply Hexit; [lia|]. apply Hbelow'. lia.
  - exfalso. apply Hout. apply Hbelow. lia.
Qed.

End ScanPorts.

Lemma roundHalfEven_one n : JS.roundHalfEven n 1 = n.
Proof.
  unfold JS.roundHalfEven. rewrite Z.div_1_r, Z.mod_1_r. reflexivity.
Qed.

(** Below [2^53] the double nearest to an integer holds that integer. *)
Lemma toDouble_exact n : 0 < n < 2 ^ 53 -> integerOf (JS.toDouble n 1) = n.
Proof.
  intros [Hpos Hn].
  destruct (Z.log2_spec n Hpos) as [Hlo Hhi].
  pose proof (Z.log2_nonneg n) as Hk.
  unfold JS.toDouble.
  destruct (n =? 0) eqn:E; [apply Z.eqb_eq in E; lia|].
  change (Z.log2 1) with 0. rewrite Z.sub_0_r.
  set (k := Z.log2 n) in *.
  assert (Hk52 : k <= 52).
  { destruct (decide (k <= 52)) as [|Hbig]; [done|].
    assert (2 ^ 53 <= 2 ^ k) by (apply Z.pow_le_mono_r; lia). lia. }
  destruct (0 <=? k) eqn:E1; [|apply Z.leb_gt in E1; lia].
  cbv zeta. rewrite !Z.mul_1_l.
  destruct (2 ^ k <=? n) eqn:E2; [|apply Z.leb_gt in E2; lia].
  rewrite Z.max_l by lia.
  destruct (decide (k < 52)) as [Hsmall|Hlast].
  - destruct (0 <=? k - 52) eqn:E3; [apply Z.leb_le in E3; lia|].
    cbn [andb]. rewrite roundHalfEven_one. cbn [integerOf]. rewrite E3.
    apply Z.div_mul.
    assert (0 < 2 ^ (- (k - 52))) by (apply Z.pow_pos_nonneg; lia). lia.
  - assert (Hk' : k = 52) by lia. rewrite Hk'.
    change (52 - 52) with 0. change (0 <=? 0) with true.
    change (2 ^ 0) with 1. rewrite roundHalfEven_one, Z.mul_1_r.
    destruct (2 ^ 1024 <=? n) eqn:E4.
    { apply Z.leb_le in E4.
      assert (2 ^ 53 <= 2 ^ 1024) by (apply Z.pow_le_mono_r; lia). lia. }
    cbn [andb integerOf]. rewrite Z.pow_0_r. apply Z.mul_1_r.
Qed.

Lemma increment_exact p :
  - 2 ^ 53 <= p -> p + 1 < 2 ^ 53 -> increment p = p + 1.
Proof.
  intros Hp Hbound. unfold increment.
  destruct (0 <=? p + 1) eqn:E.
  - apply Z.leb_le in E. destruct (decide (p + 1 = 0)) as [->|Hne].
    + reflexivity.
    + apply toDouble_exact. lia.
  - apply Z.leb_gt in E. rewrite toDouble_exact by lia. lia.
Qed.

(** Below [2^53] the loop counted in doubles is left after as many
    turns as the loop counted in integers, with the same port. *)
Lemma scanDoubles_exact reservedPorts turns p :
  - 2 ^ 53 <= p ->
  scanPorts turns p reservedPorts < 2 ^ 53 ->
  (JS.String_ (scanPorts turns p reservedPorts) ∉ reservedPorts) ->
  scanDoubles (S turns) p reservedPorts
  = Some (scanPorts turns p reservedPorts).
Proof.
  revert p. induction turns as [|turns IH]; intros p Hp Hbound Hfree.
  - cbn [scanPorts] in *. cbn [scanDoubles].
    by destruct (decide (JS.String_ p ∈ reservedPorts)).
  - cbn [scanPorts] in Hbound, Hfree |- *.
    change (scanDoubles (S (S turns)) p reservedPorts)
      with (if decide (JS.String_ p ∈ reservedPorts)
            then scanDoubles (S turns) (increment p) reservedPorts
            else Some p).
    destruct (decide (JS.String_ p ∈ reservedPorts)) as [Hin|Hout]; [|done].
    destruct (scanPorts_spec reservedPorts turns (p + 1)) as (Hle & _ & _).
    cbv zeta in Hle.
    rewrite increment_exact by lia.
    apply IH; [lia|exact Hbound|exact Hfree].
Qed.

(** C7.  For an integer [startPort >= - 2^53] with
    [startPort + size reservedPorts < 2^53], the range in which the
    counter of the source, a double, counts exactly:
    [nextAvailablePort] returns the numeral of the least integer
    [p >= startPort] whose numeral is not in [reservedPorts], the loop
    being left after [size reservedPorts] increments at most, also when
    it is counted in doubles as the source counts; [3000] from an empty
    set, [3002] when [3000] and [3001] are reserved. *)
Theorem nextAvailablePort_least (startPort : Z) (reservedPorts : gset string) :
  - 2 ^ 53 <= startPort ->
  startPort + Z.of_nat (size reservedPorts) < 2 ^ 53 ->
  (exists p, nextAvailablePort startPort reservedPorts = JS.String_ p /\
     startPort <= p <= startPort + Z.of_nat (size reservedPorts) /\
     scanDoubles (S (size reservedPorts)) startPort reservedPorts = Some p /\
     (JS.String_ p ∉ reservedPorts) /\
     (forall q, startPort <= q < p -> JS.String_ q ∈ reservedPorts)) /\
  nextAvailablePort 3000 ∅ = "3000" /\
  nextAvailablePort 3000 {[ "3000"; "3001" ]} = "3002".
Proof.
  intros Hstart Hbound.
  split; [|split; vm_compute; reflexivity].
  exists (scanPorts (size reservedPorts) startPort reservedPorts).
  destruct (scanPorts_spec reservedPorts (size reservedPorts) startPort)
    as (Hle & Hbelow & _).
  cbv zeta in Hle, Hbelow.
  pose proof (scanPorts_exit reservedPorts startPort) as Hfree.
  split; [done|]. split; [exact Hle|].
  split; [apply scanDoubles_exact; [exact Hstart|lia|exact Hfree]|].
  split; [exact Hfree|exact Hbelow].
Qed.

(** The theorem at [startPort = 3000] with [3000] and [3001] reserved. *)
Lemma nextAvailablePort_least_witness :
  - 2 ^ 53 <= 3000 /\
  3000 + Z.of_nat (size ({[ "3000"; "3001" ]} : gset string)) < 2 ^ 53 /\
  exists p, nextAvailablePort 3000 {[ "3000"; "3001" ]} = JS.String_ p /\
    scanDoubles (S (size ({[ "3000"; "3001" ]} : gset string))) 3000
                {[ "3000"; "3001" ]} = Some p /\
    3000 <= p.
Proof.
  assert (Hstart : - 2 ^ 53 <= 3000) by lia.
  assert (Hbound : 3000 + Z.of_nat (size ({[ "3000"; "3001" ]} : gset string))
                   < 2 ^ 53) by (vm_compute; reflexivity).
  split; [exact Hstart|]. split; [exact Hbound|].
  destruct (proj1 (nextAvailablePort_least 3000 {[ "3000"; "3001" ]}
                     Hstart Hbound))
    as (p & Hp & [Hle _] & Hdoubles & _).
  exists p. split; [exact Hp|]. split; [exact Hdoubles|exact Hle].
Defined.

(** Outside that range the source does not return.  At
    [startPort = 2^53] with the numeral of [2^53] reserved, [String(p)]
    is in the set, [p++] leaves [p] as it is, since [2^53 + 1] is no
    double and rounds back to [2^53], and the loop is never left. *)
Lemma nextAvailablePort_stalls :
  JS.String_ 9007199254740992 = "9007199254740992" /\
  9007199254740992 = 2 ^ 53 /\
  increment 9007199254740992 = 9007199254740992 /\
  (forall turns,
     scanDoubles turns 9007199254740992 {[ "9007199254740992" ]} = None).
Proof.
  assert (Hstring : JS.String_ 9007199254740992 = "9007199254740992")
    by (vm_compute; reflexivity).
  assert (Hstall : increment 9007199254740992 = 9007199254740992)
    by (vm_compute; reflexivity).
  split; [exact Hstring|]. split; [reflexivity|]. split; [exact Hstall|].
  induction turns as [|turns IH]; [reflexivity|].
  cbn [scanDoubles]. rewrite Hstall, Hstring.
  destruct (decide ("9007199254740992" ∈ ({[ "9007199254740992" ]} : gset string)))
    as [_|Hout]; [exact IH|].
  destruct Hout. by apply elem_of_singleton.
Qed.

(** ** The indexed prompts *)

Lemma at_in_range {A} (xs : list A) (n : Z) :
  1 <= n <= Z.of_nat (length xs) -> is_Some (JS.at_ xs (n - 1)).
Proof.
  intros Hn. unfold JS.at_.
  destruct (n - 1 <? 0) eqn:Hneg; [apply Z.ltb_lt in Hneg; lia|].
  apply lookup_lt_is_Some. lia.
Qed.





(** ** Shutdown coordinator *)

Section Shutdown.

Variable os : platform.
Variable processes : list Child.t.

Lemma count_app {A} (f : A -> bool) (l1 l2 : list A) :
  count f (l1 ++ l2) = (count f l1 + count f l2)%nat.
Proof. unfold count. by rewrite List.filter_app, length_app. Qed.

(** Once the flag is set, a trigger adds no effect and leaves the flag. *)
Lemma deliver_shutting_down t st :
  isShuttingDown st = true ->
  effects (deliver os processes t st) = effects st /\
  isShuttingDown (deliver os processes t st) = true.
Proof.
  intros Hflag. unfold deliver, shutdown.
  destruct (running st); simpl; [|done].
  destruct t as [| |reason]; simpl; rewrite ?Hflag.
  - destruct (onSIGINT st); simpl; rewrite ?Hflag; done.
  - destruct (onSIGTERM st); simpl; rewrite ?Hflag; done.
  - done.
Qed.

Lemma deliverAll_shutting_down ts st :
  isShuttingDown st = true ->
  effects (deliverAll os processes ts st) = effects st /\
  isShuttingDown (deliverAll os processes ts st) = true.
Proof.
  revert st. induction ts as [|t ts IH]; intros st Hflag; [done|].
  simpl. destruct (deliver_shutting_down t st Hflag) as [Heff Hflag'].
  destruct (IH _ Hflag') as [Heff' Hflag'']. split; [congruence|done].
Qed.

(** The first trigger after [attachGracefulShutdown] sets the flag. *)
Lemma first_trigger_sets_flag t :
  isShuttingDown (deliver os processes t attachGracefulShutdown) = true.
Proof. by destruct t. Qed.

(** What the first trigger writes: the announcement when a reason is
    given, then the cleanup. *)
Lemma first_trigger_effects t :
  exists announcement,
    (length announcement <= 1)%nat /\
    Forall (fun e => isConsoleLog e = true) announcement /\
    effects (deliver os processes t attachGracefulShutdown)
    = announcement ++ [RlClose]
      ++ flat_map (killPortForwardProcess os) processes
      ++ [SetTimeout (ExitProcess 0) 200].
Proof.
  destruct t as [| |[r|]]; simpl.
  - eexists [_]. split; [simpl; lia|]. split; [|done]. by repeat constructor.
  - eexists [_]. split; [simpl; lia|]. split; [|done]. by repeat constructor.
  - destruct (JS.isEmpty r).
    + exists []. split; [simpl; lia|]. split; [constructor|done].
    + eexists [_]. split; [simpl; lia|]. split; [|done]. by repeat constructor.
  - exists []. split; [simpl; lia|]. split; [constructor|done].
Qed.

Lemma count_killPortForwardProcess p q :
  (count (isKillOf p) (killPortForwardProcess os q)
   <= if decide (q = p) then 1 else 0)%nat /\
  (count (isForceKillOf p) (killPortForwardProcess os q)
   <= if decide (q = p) then 1 else 0)%nat /\
  count isConsoleLog (killPortForwardProcess os q) = 0%nat.
Proof.
  unfold killPortForwardProcess.
  destruct (Child.pid q) as [pid|];
    [|case_decide; unfold count; simpl; repeat split; lia].
  destruct (pid =? 0); [case_decide; unfold count; simpl; repeat split; lia|].
  destruct os; unfold count; simpl; unfold bool_decide;
    repeat case_decide; simpl; repeat split; try lia; contradiction.
Qed.

Lemma count_kills p (ps : list Child.t) :
  NoDup ps ->
  (count (isKillOf p) (flat_map (killPortForwardProcess os) ps) <= 1)%nat /\
  (count (isForceKillOf p) (flat_map (killPortForwardProcess os) ps) <= 1)%nat /\
  (p ∉ ps ->
   count (isKillOf p) (flat_map (killPortForwardProcess os) ps) = 0%nat /\
   count (isForceKillOf p) (flat_map (killPortForwardProcess os) ps) = 0%nat).
Proof.
  induction 1 as [|q ps Hq Hnd IH];
    [unfold count; simpl; repeat split; lia|].
  simpl. rewrite !count_app.
  destruct (count_killPortForwardProcess p q) as (Hk & Hf & _).
  destruct IH as (IHk & IHf & IH0).
  destruct (decide (q = p)) as [->|Hne].
  - destruct (IH0 Hq) as [-> ->]. split; [lia|]. split; [lia|].
    intros Hp. exfalso. apply Hp. left.
  - split; [lia|]. split; [lia|].
    intros Hp. apply not_elem_of_cons in Hp as [_ Hp].
    destruct (IH0 Hp) as [-> ->]. lia.
Qed.

Lemma count_log_kills (ps : list Child.t) :
  count isConsoleLog (flat_map (killPortForwardProcess os) ps) = 0%nat.
Proof.
  induction ps as [|q ps IH]; [done|]. simpl. rewrite count_app, IH.
  by destruct (count_killPortForwardProcess q q) as (_ & _ & ->).
Qed.

Lemma count_le_length {A} (f : A -> bool) (l : list A) :
  (count f l <= length l)%nat.
Proof. unfold count. apply List.filter_length_le. Qed.

Lemma count_none {A} (f : A -> bool) (l : list A) :
  Forall (fun e => f e = false) l -> count f l = 0%nat.
Proof.
  unfold count. induction 1 as [|x l Hx _ IH]; [done|]. simpl. by rewrite Hx.
Qed.

End Shutdown.

(** C3.  Whatever triggers follow the first one (signals or calls of
    [shutdown]), the effects of the whole sequence are those of the
    first trigger alone: the announcement is printed at most once, each
    tracked child is sent [kill] at most once and gets at most one
    forced kill scheduled, and a trigger that finds the coordinator
    shutting down adds no effect. *)
Theorem shutdown_runs_once (os : platform) (processes : list Child.t)
    (t : trigger) (ts : list trigger) (p : Child.t) :
  NoDup processes ->
  let first := deliver os processes t attachGracefulShutdown in
  let final := deliverAll os processes (t :: ts) attachGracefulShutdown in
  effects final = effects first /\
  (count isConsoleLog (effects final) <= 1)%nat /\
  (count (isKillOf p) (effects final) <= 1)%nat /\
  (count (isForceKillOf p) (effects final) <= 1)%nat /\
  (forall t' st, isShuttingDown st = true ->
     effects (deliver os processes t' st) = effects st /\
     isShuttingDown (deliver os processes t' st) = true).
Proof.
  intros Hnd first final.
  assert (Heff : effects final = effects first).
  { unfold final. simpl.
    apply (deliverAll_shutting_down os processes ts), first_trigger_sets_flag. }
  split; [done|]. rewrite Heff. unfold first.
  destruct (first_trigger_effects os processes t) as (ann & Hlen & Hann & ->).
  destruct (count_kills os p processes Hnd) as (Hk & Hf & _).
  rewrite !count_app, count_log_kills.
  rewrite (count_none (isKillOf p) ann), (count_none (isForceKillOf p) ann).
  - pose proof (count_le_length isConsoleLog ann) as Hle.
    change (count isConsoleLog [RlClose]) with 0%nat.
    change (count isConsoleLog [SetTimeout (ExitProcess 0) 200]) with 0%nat.
    change (count (isKillOf p) [RlClose]) with 0%nat.
    change (count (isKillOf p) [SetTimeout (ExitProcess 0) 200]) with 0%nat.
    change (count (isForceKillOf p) [RlClose]) with 0%nat.
    change (count (isForceKillOf p) [SetTimeout (ExitProcess 0) 200])
      with 0%nat.
    split; [lia|]. split; [lia|]. split; [lia|].
    apply deliver_shutting_down.
  - eapply Forall_impl; [exact Hann|]. by intros [].
  - eapply Forall_impl; [exact Hann|]. by intros [].
Qed.

(** A second interrupt, a termination signal and a direct call after the
    first interrupt add nothing to what the first interrupt did. *)
Lemma shutdown_runs_once_witness :
  NoDup [child0; child1] /\
  effects (deliverAll posix [child0; child1]
             [SIGINT; SIGINT; SIGTERM; CallShutdown (Some "again")]
             attachGracefulShutdown)
  = effects (deliver posix [child0; child1] SIGINT attachGracefulShutdown).
Proof.
  assert (Hnd : NoDup [child0; child1]).
  { apply NoDup_cons. split; [|apply NoDup_singleton].
    intros Hin. apply list_elem_of_singleton in Hin. discriminate. }
  split; [exact Hnd|].
  exact (proj1 (shutdown_runs_once posix [child0; child1] SIGINT
                  [SIGINT; SIGTERM; CallShutdown (Some "again")] child0 Hnd)).
Defined.

(** ** Tunnel output *)

Lemma string_app_assoc (s1 s2 s3 : string) :
  (s1 +:+ s2) +:+ s3 = s1 +:+ (s2 +:+ s3).
Proof.
  induction s1 as [|a s1 IH]; [done|].
  change (String a s1 +:+ s2) with (String a (s1 +:+ s2)).
  change (String a (s1 +:+ s2) +:+ s3) with (String a ((s1 +:+ s2) +:+ s3)).
  by rewrite IH.
Qed.

Lemma startsWith_app (p s : string) : JS.startsWith p (p +:+ s) = true.
Proof.
  induction p as [|a p IH]; [done|]. simpl.
  change (String a p +:+ s) with (String a (p +:+ s)).
  simpl. by rewrite Ascii.eqb_refl, IH.
Qed.

Lemma writeLines_colour (colorCode prefix : string) (lines : list string) :
  Forall (fun text => JS.startsWith colorCode text = true)
         (writeLines colorCode prefix lines).
Proof.
  induction lines as [|line [|next rest] IH].
  - constructor.
  - simpl. destruct (JS.isEmpty line); constructor; [|constructor].
    unfold colorText. rewrite string_app_assoc. apply startsWith_app.
  - change (writeLines colorCode prefix (line :: next :: rest))
      with ((colorText colorCode (prefix +:+ " " +:+ line) +:+ LF)
            :: writeLines colorCode prefix (next :: rest)).
    constructor; [|done].
    unfold colorText. rewrite string_app_assoc. apply startsWith_app.
Qed.

Lemma writePrefixedLines_magenta (prefix data : string) :
  List.filter isMagenta (writePrefixedLines c.magenta prefix data)
  = writePrefixedLines c.magenta prefix data.
Proof.
  unfold writePrefixedLines.
  generalize (writeLines_colour c.magenta prefix
                (JS.split "010" (replaceCR (replaceCRLF data)))).
  induction 1 as [|text l Htext _ IH]; [done|].
  simpl. unfold isMagenta at 1. by rewrite Htext, IH.
Qed.

(** A text that starts in another colour is not magenta. *)
Lemma not_magenta (colorCode : string) (l : list string) :
  (forall s, JS.startsWith c.magenta (colorCode +:+ s) = false) ->
  Forall (fun text => JS.startsWith colorCode text = true) l ->
  List.filter isMagenta l = [].
Proof.
  intros Hcolour. induction 1 as [|text l Htext _ IH]; [done|].
  simpl. rewrite IH. unfold isMagenta.
  assert (exists s, text = colorCode +:+ s) as [s ->].
  { clear -Htext. revert text Htext.
    induction colorCode as [|a p IHp]; intros text Htext.
    - by exists text.
    - destruct text as [|b text]; [done|]. simpl in Htext.
      apply andb_true_iff in Htext as [Hab Htext].
      apply Ascii.eqb_eq in Hab as ->.
      destruct (IHp _ Htext) as [s ->]. by exists s. }
  by rewrite Hcolour.
Qed.

Lemma writePrefixedLines_not_magenta (colorCode prefix data : string) :
  (forall s, JS.startsWith c.magenta (colorCode +:+ s) = false) ->
  List.filter isMagenta (writePrefixedLines colorCode prefix data) = [].
Proof.
  intros Hcolour. apply (not_magenta colorCode); [done|].
  apply writeLines_colour.
Qed.

Lemma green_not_magenta s : JS.startsWith c.magenta (c.green +:+ s) = false.
Proof. reflexivity. Qed.
Lemma red_not_magenta s : JS.startsWith c.magenta (c.red +:+ s) = false.
Proof. reflexivity. Qed.
Lemma cyan_not_magenta s : JS.startsWith c.magenta (c.cyan +:+ s) = false.
Proof. reflexivity. Qed.

Section Tunnel.

Variable cfg : Config.t.

Abbreviation announcement :=
  (writePrefixedLines c.magenta (tunnelPrefix cfg) (availableMessage cfg)).

(** With the flag set nothing magenta is written any more. *)
Lemma runChild_printed evs :
  List.filter isMagenta (runChild cfg true evs) = [].
Proof.
  induction evs as [|ev evs IH]; [done|].
  destruct ev as [data|data|code]; simpl;
    rewrite List.filter_app, IH, app_nil_r.
  - apply writePrefixedLines_not_magenta, green_not_magenta.
  - apply writePrefixedLines_not_magenta, red_not_magenta.
  - apply writePrefixedLines_not_magenta, cyan_not_magenta.
Qed.

(** Before the first chunk of standard output nothing magenta is
    written and the flag stays unset. *)
Lemma runChild_before_stdout pre rest :
  forallb (fun ev => negb (isStdoutData ev)) pre = true ->
  runChild cfg false (pre ++ rest)
  = runChild cfg false pre ++ runChild cfg false rest /\
  List.filter isMagenta (runChild cfg false pre) = [].
Proof.
  induction pre as [|ev pre IH]; intros Hpre; [done|].
  simpl in Hpre. apply andb_true_iff in Hpre as [Hev Hpre].
  destruct (IH Hpre) as [Happ Hnone].
  destruct ev as [data|data|code]; [done| |]; simpl;
    rewrite Happ, List.filter_app, Hnone, app_nil_r, <- app_assoc;
    (split; [done|]).
  - apply writePrefixedLines_not_magenta, red_not_magenta.
  - apply writePrefixedLines_not_magenta, cyan_not_magenta.
Qed.

Lemma runChild_magenta evs :
  List.filter isMagenta (runChild cfg false evs)
  = if existsb isStdoutData evs then announcement else [].
Proof.
  induction evs as [|ev evs IH]; [done|].
  destruct ev as [data|data|code]; simpl.
  - rewrite !List.filter_app, runChild_printed, app_nil_r.
    rewrite writePrefixedLines_magenta.
    rewrite (writePrefixedLines_not_magenta c.green); [|apply green_not_magenta].
    by rewrite app_nil_r.
  - rewrite List.filter_app, IH.
    by rewrite (writePrefixedLines_not_magenta c.red); [|apply red_not_magenta].
  - rewrite List.filter_app, IH.
    by rewrite (writePrefixedLines_not_magenta c.cyan); [|apply cyan_not_magenta].
Qed.

End Tunnel.

Lemma replaceCRLF_id s : hasLineBreak s = false -> replaceCRLF s = s.
Proof.
  induction s as [|a s IH]; [done|]. intros Hs.
  assert (hasLineBreak s = false /\ a <> "013"%char) as [Hs' Ha].
  { destruct a as [[] [] [] [] [] [] [] []]; simpl in Hs; try done. }
  simpl. rewrite (IH Hs').
  destruct a as [[] [] [] [] [] [] [] []]; try done.
Qed.

Lemma replaceCR_id s : hasLineBreak s = false -> replaceCR s = s.
Proof.
  induction s as [|a s IH]; [done|]. intros Hs.
  assert (hasLineBreak s = false /\ a <> "013"%char) as [Hs' Ha].
  { destruct a as [[] [] [] [] [] [] [] []]; simpl in Hs; try done. }
  simpl. rewrite (IH Hs').
  destruct a as [[] [] [] [] [] [] [] []]; try done.
Qed.

Lemma split_no_line_break s :
  hasLineBreak s = false -> JS.split "010" s = [s].
Proof.
  induction s as [|a s IH]; [done|]. intros Hs.
  assert (hasLineBreak s = false /\ Ascii.eqb a "010" = false) as [Hs' Ha].
  { destruct a as [[] [] [] [] [] [] [] []]; simpl in Hs; try done. }
  simpl. by rewrite Ha, (IH Hs').
Qed.

Lemma hasLineBreak_app s1 s2 :
  hasLineBreak (s1 +:+ s2) = hasLineBreak s1 || hasLineBreak s2.
Proof.
  induction s1 as [|a s1 IH]; [done|].
  change (String a s1 +:+ s2) with (String a (s1 +:+ s2)).
  destruct a as [[] [] [] [] [] [] [] []]; simpl; try done.
Qed.

(** C4.  In the output of one tunnel the texts in the colour of the
    announcement are exactly the announcement [Service available at:
    http://localhost:<localPort>], once, when a chunk of standard output
    arrives, and none otherwise: chunks of standard error and the close
    event never bring it.  It is a single line when the port holds no
    line break.  It is written at the first chunk of standard output,
    before the lines of that chunk, and neither before nor after. *)
Theorem available_announced_once (cfg : Config.t) (evs : list childEvent) :
  let prefix := tunnelPrefix cfg in
  let announcement :=
    writePrefixedLines c.magenta prefix (availableMessage cfg) in
  List.filter isMagenta (tunnelOutput cfg evs)
  = (if existsb isStdoutData evs then announcement else []) /\
  (hasLineBreak (Config.localPort cfg) = false ->
   announcement
   = [colorText c.magenta (prefix +:+ " " +:+ availableMessage cfg) +:+ LF]) /\
  (forall pre data post,
     evs = pre ++ StdoutData data :: post ->
     forallb (fun ev => negb (isStdoutData ev)) pre = true ->
     tunnelOutput cfg evs
     = tunnelOutput cfg pre ++ announcement
       ++ writePrefixedLines c.green prefix data ++ runChild cfg true post /\
     List.filter isMagenta (tunnelOutput cfg pre) = [] /\
     List.filter isMagenta (runChild cfg true post) = []).
Proof.
  intros prefix announcement. split; [apply runChild_magenta|]. split.
  - intros Hport. unfold announcement, writePrefixedLines.
    assert (Hmsg : hasLineBreak (availableMessage cfg) = false).
    { unfold availableMessage. by rewrite hasLineBreak_app, Hport. }
    by rewrite (replaceCRLF_id _ Hmsg), (replaceCR_id _ Hmsg),
      (split_no_line_break _ Hmsg).
  - intros pre data post -> Hpre. unfold tunnelOutput.
    destruct (runChild_before_stdout cfg pre (StdoutData data :: post) Hpre)
      as [-> Hnone].
    split; [|split; [done|apply runChild_printed]].
    simpl. by rewrite <- !app_assoc.
Qed.

Example tunnel_output_example :
  tunnelOutput
    (Config.mk "checkout" "dev" "dev~" "7d9f-abc12" "dev-checkout"
               (Some "team1") "3000" "80" true)
    [StderrData "warn"; StdoutData ("Forwarding" +:+ LF); StdoutData "more"]
  = [ c.red +:+ "[dev~checkout:3000] warn" +:+ c.reset +:+ LF;
      c.magenta
      +:+ "[dev~checkout:3000] Service available at: http://localhost:3000"
      +:+ c.reset +:+ LF;
      c.green +:+ "[dev~checkout:3000] Forwarding" +:+ c.reset +:+ LF;
      c.green +:+ "[dev~checkout:3000] more" +:+ c.reset +:+ LF ].
Proof. reflexivity. Qed.

(** ** Catalog parser *)

Lemma assocGet_set_eq {V} k (v : V) m : assocGet k (assocSet k v m) = Some v.
Proof.
  induction m as [|[k' v'] m IH]; simpl.
  - by rewrite decide_True.
  - destruct (decide (k' = k)) as [->|Hne]; simpl.
    + by rewrite decide_True.
    + by rewrite decide_False.
Qed.

Lemma assocGet_set_ne {V} k k' (v : V) m :
  k' <> k -> assocGet k' (assocSet k v m) = assocGet k' m.
Proof.
  intros Hne. induction m as [|[k2 v2] m IH]; simpl.
  - by rewrite decide_False.
  - destruct (decide (k2 = k)) as [->|Hne2]; simpl.
    + by rewrite !decide_False.
    + destruct (decide (k2 = k')); [done|apply IH].
Qed.

Lemma entryAt_upsert_eq key env d m : entryAt (upsert key env d m) key env = Some d.
Proof.
  unfold entryAt, upsert.
  destruct (assocGet key m) as [obj|] eqn:Hget.
  - rewrite Hget, assocGet_set_eq. simpl. apply assocGet_set_eq.
  - rewrite !assocGet_set_eq. simpl. by rewrite decide_True.
Qed.

Lemma entryAt_upsert_ne key env d m key' env' :
  (key', env') <> (key, env) ->
  entryAt (upsert key env d m) key' env' = entryAt m key' env'.
Proof.
  intros Hne. unfold entryAt, upsert.
  destruct (decide (key' = key)) as [->|Hkey].
  - assert (env' <> env) as Henv by congruence.
    destruct (assocGet key m) as [obj|] eqn:Hget.
    + rewrite Hget, assocGet_set_eq. simpl. by apply assocGet_set_ne.
    + rewrite !assocGet_set_eq. simpl. by rewrite decide_False.
  - destruct (assocGet key m) as [obj|] eqn:Hget.
    + rewrite Hget. by rewrite assocGet_set_ne.
    + rewrite assocGet_set_eq. by rewrite !assocGet_set_ne.
Qed.

Lemma indexOf_spec x xs :
  (x ∈ xs -> 0 <= JS.indexOf x xs) /\ (x ∉ xs -> JS.indexOf x xs = -1).
Proof.
  induction xs as [|y xs [IHin IHout]]; simpl.
  - split; [intros Hin; by apply elem_of_nil in Hin|done].
  - destruct (String.eqb y x) eqn:Hyx.
    + apply String.eqb_eq in Hyx as ->. split; [lia|].
      intros Hout. exfalso. apply Hout. left.
    + apply String.eqb_neq in Hyx. split.
      * intros Hin. apply elem_of_cons in Hin as [->|Hin]; [done|].
        specialize (IHin Hin).
        destruct (JS.indexOf x xs <? 0) eqn:Hneg;
          [apply Z.ltb_lt in Hneg|]; lia.
      * intros Hout. apply not_elem_of_cons in Hout as [_ Hout].
        by rewrite (IHout Hout).
Qed.

Section CatalogFacts.

Variable regexpReplace : string -> string -> option string.
Variable namespace : option string.
Variables namespaceIndex nameIndex statusIndex : Z.

Abbreviation entryOf :=
  (rowEntry regexpReplace namespace namespaceIndex nameIndex statusIndex).
Abbreviation rowsFrom :=
  (parseRows regexpReplace namespace namespaceIndex nameIndex statusIndex).

(** A row whose status is given and is not [Running] is passed over. *)
Lemma rowEntry_other_status line s :
  statusIndex <> -1 ->
  JS.at_ (JS.splitSpaces line) statusIndex = Some s ->
  s <> "Running" ->
  entryOf line = Ok None.
Proof.
  intros Hidx Hs Hne. unfold rowEntry.
  apply Z.eqb_neq in Hidx. rewrite Hidx. simpl. rewrite Hs.
  apply String.eqb_neq in Hne. by rewrite Hne.
Qed.

(** The status of a row that adds an entry. *)
Lemma rowEntry_status line x :
  entryOf line = Ok (Some x) ->
  JS.at_ (JS.splitSpaces line) statusIndex = None \/
  JS.at_ (JS.splitSpaces line) statusIndex = Some "Running".
Proof.
  unfold rowEntry. intros Hrow.
  destruct (JS.at_ (JS.splitSpaces line) statusIndex) as [s|] eqn:Hs;
    [|by left].
  right. destruct (negb (statusIndex =? -1)) eqn:Hidx.
  - destruct (String.eqb s "Running") eqn:Hrun; [|done].
    by apply String.eqb_eq in Hrun as ->.
  - apply negb_false_iff, Z.eqb_eq in Hidx. subst statusIndex.
    unfold JS.at_ in Hs. done.
Qed.

(** Without a status column a row with three segments or more is not
    passed over. *)
Lemma rowEntry_no_status line name :
  statusIndex = -1 ->
  JS.at_ (JS.splitSpaces line) nameIndex = Some name ->
  (2 < length (JS.split "-" name))%nat ->
  entryOf line <> Ok None.
Proof.
  intros -> Hname Hparts. unfold rowEntry. simpl. rewrite Hname.
  apply Nat.ltb_lt in Hparts. rewrite Hparts.
  by repeat case_match.
Qed.

(** The namespace an entry records. *)
Lemma rowEntry_namespace line key env d :
  entryOf line = Ok (Some (key, env, d)) ->
  Details.namespace d
  = match namespace with
    | Some ns => Some ns
    | None => JS.at_ (JS.splitSpaces line) namespaceIndex
    end.
Proof.
  unfold rowEntry. intros Hrow.
  repeat case_match; simplify_eq; done.
Qed.

Lemma parseRows_provenance rows m catalog :
  rowsFrom rows m = Ok catalog ->
  forall key env d, entryAt catalog key env = Some d ->
    entryAt m key env = Some d \/
    exists line, line ∈ rows /\ entryOf line = Ok (Some (key, env, d)).
Proof.
  revert m. induction rows as [|line rows IH]; intros m Hrows key env d Hentry.
  - simpl in Hrows. injection Hrows as ->. by left.
  - simpl in Hrows.
    destruct (entryOf line) as [[[[key' env'] d']|]|e] eqn:Hline; [| |done].
    + destruct (IH _ Hrows _ _ _ Hentry) as [Hm|(l & Hl & Hrow)].
      * destruct (decide ((key, env) = (key', env'))) as [Heq|Hne].
        -- injection Heq as -> ->. rewrite entryAt_upsert_eq in Hm.
           injection Hm as ->. right. exists line. split; [left|done].
        -- rewrite entryAt_upsert_ne in Hm by done. by left.
      * right. exists l. split; [by right|done].
    + destruct (IH _ Hrows _ _ _ Hentry) as [Hm|(l & Hl & Hrow)]; [by left|].
      right. exists l. split; [by right|done].
Qed.

Lemma parseRows_keeps rows m catalog key env :
  rowsFrom rows m = Ok catalog ->
  is_Some (entryAt m key env) -> is_Some (entryAt catalog key env).
Proof.
  revert m. induction rows as [|line rows IH]; intros m Hrows Hm.
  - simpl in Hrows. by injection Hrows as ->.
  - simpl in Hrows.
    destruct (entryOf line) as [[[[key' env'] d']|]|e] eqn:Hline; [| |done].
    + apply (IH _ Hrows).
      destruct (decide ((key, env) = (key', env'))) as [Heq|Hne].
      * injection Heq as -> ->. by rewrite entryAt_upsert_eq.
      * by rewrite entryAt_upsert_ne.
    + by apply (IH _ Hrows).
Qed.

Lemma parseRows_coverage rows m catalog line :
  rowsFrom rows m = Ok catalog ->
  line ∈ rows ->
  exists r, entryOf line = Ok r /\
    forall key env d, r = Some (key, env, d) -> is_Some (entryAt catalog key env).
Proof.
  revert m. induction rows as [|l rows IH]; intros m Hrows Hin.
  - by apply elem_of_nil in Hin.
  - simpl in Hrows.
    destruct (entryOf l) as [[[[key' env'] d']|]|e] eqn:Hl; [| |done].
    + apply elem_of_cons in Hin as [->|Hin]; [|by apply (IH _ Hrows)].
      exists (Some (key', env', d')). split; [done|].
      intros key env d [= -> -> ->].
      apply (parseRows_keeps _ _ _ _ _ Hrows). by rewrite entryAt_upsert_eq.
    + apply elem_of_cons in Hin as [->|Hin]; [|by apply (IH _ Hrows)].
      exists None. split; [done|]. intros; discriminate.
Qed.

End CatalogFacts.

Lemma catalog_facts_aux (regexpReplace : string -> string -> option string)
    (podsData : string) (namespace : option string) (catalog : servicesMap) :
  parseServicesMap regexpReplace podsData namespace = Ok catalog ->
  let headers := listingHeaders podsData in
  let namespaceIndex := JS.indexOf "NAMESPACE" headers in
  let nameIndex := JS.indexOf "NAME" headers in
  let statusIndex := JS.indexOf "STATUS" headers in
  let entryOf :=
    rowEntry regexpReplace namespace namespaceIndex nameIndex statusIndex in
  (forall key env d, entryAt catalog key env = Some d ->
     exists line, line ∈ listingRows podsData /\
       entryOf line = Ok (Some (key, env, d))) /\
  (forall line, line ∈ listingRows podsData ->
     exists r, entryOf line = Ok r /\
       forall key env d, r = Some (key, env, d) ->
         is_Some (entryAt catalog key env)).
Proof.
  unfold parseServicesMap. intros Hparse. cbv zeta. split.
  - intros key env d Hentry.
    destruct (parseRows_provenance _ _ _ _ _ _ _ _ Hparse _ _ _ Hentry)
      as [Hempty|Hrow]; [done|done].
  - intros line Hline. by eapply parseRows_coverage.
Qed.

(** C5.  Every entry of the catalog is what some data row gives, and
    the status of that row is [Running] or missing.  When the header
    has a [STATUS] column, a row whose status is anything else adds no
    entry.  When it has none, no row is passed over for its status:
    every row whose name has three hyphen-separated segments or more
    has its entry in the catalog. *)
Theorem status_filter (regexpReplace : string -> string -> option string)
    (podsData : string) (namespace : option string) (catalog : servicesMap) :
  parseServicesMap regexpReplace podsData namespace = Ok catalog ->
  let headers := listingHeaders podsData in
  let namespaceIndex := JS.indexOf "NAMESPACE" headers in
  let nameIndex := JS.indexOf "NAME" headers in
  let statusIndex := JS.indexOf "STATUS" headers in
  let entryOf :=
    rowEntry regexpReplace namespace namespaceIndex nameIndex statusIndex in
  let statusOf line := JS.at_ (JS.splitSpaces line) statusIndex in
  (forall key env d, entryAt catalog key env = Some d ->
     exists line, line ∈ listingRows podsData /\
       entryOf line = Ok (Some (key, env, d)) /\
       (statusOf line = None \/ statusOf line = Some "Running")) /\
  ("STATUS" ∈ headers ->
   forall line s, line ∈ listingRows podsData ->
     statusOf line = Some s -> s <> "Running" -> entryOf line = Ok None) /\
  ("STATUS" ∉ headers ->
   forall line name, line ∈ listingRows podsData ->
     JS.at_ (JS.splitSpaces line) nameIndex = Some name ->
     (2 < length (JS.split "-" name))%nat ->
     exists key env d, entryOf line = Ok (Some (key, env, d)) /\
       is_Some (entryAt catalog key env)).
Proof.
  intros Hparse headers namespaceIndex nameIndex statusIndex entryOf statusOf.
  destruct (catalog_facts_aux _ _ _ _ Hparse) as [Hfrom Hcover].
  fold headers namespaceIndex nameIndex statusIndex entryOf in Hfrom, Hcover.
  split; [|split].
  - intros key env d Hentry.
    destruct (Hfrom _ _ _ Hentry) as (line & Hline & Hrow).
    exists line. split; [done|]. split; [done|].
    by eapply rowEntry_status.
  - intros Hstatus line s _ Hs Hne.
    apply (rowEntry_other_status _ _ _ _ _ _ s); [|done|done].
    apply (indexOf_spec "STATUS" headers) in Hstatus. fold statusIndex in Hstatus.
    lia.
  - intros Hstatus line name Hline Hname Hparts.
    destruct (Hcover line Hline) as (r & Hrow & Hentry).
    destruct r as [[[key env] d]|].
    + exists key, env, d. split; [done|]. by eapply Hentry.
    + exfalso. revert Hrow.
      apply (rowEntry_no_status _ _ _ _ _ _ name); [|done|done].
      by apply (indexOf_spec "STATUS" headers).
Qed.

Example parse_listingWithStatus :
  parseServicesMap noRegexp listingWithStatus None = Ok catalogWithStatus.
Proof. reflexivity. Qed.

Example parse_listingWithoutStatus :
  parseServicesMap noRegexp listingWithoutStatus None = Ok catalogWithoutStatus.
Proof. reflexivity. Qed.

(** The [Pending] row of [listingWithStatus] adds nothing, and the row of
    [listingWithoutStatus], which has no [STATUS] column, is in its
    catalog. *)
Lemma status_filter_witness :
  parseServicesMap noRegexp listingWithStatus None = Ok catalogWithStatus /\
  rowEntry noRegexp None 0 1 3
    "team1 qa-team1-checkout-7d9f-xyz34 0/1 Pending 0 3d" = Ok None /\
  parseServicesMap noRegexp listingWithoutStatus None
  = Ok catalogWithoutStatus /\
  exists key env d,
    rowEntry noRegexp None 0 1 (-1) "team1 qa-team1-checkout-7d9f-xyz34 0/1"
    = Ok (Some (key, env, d)) /\
    is_Some (entryAt catalogWithoutStatus key env).
Proof.
  assert (H1 : "STATUS" ∈ listingHeaders listingWithStatus).
  { vm_compute. apply list_elem_of_In. simpl. tauto. }
  assert (H2 : "team1 qa-team1-checkout-7d9f-xyz34 0/1 Pending 0 3d"
               ∈ listingRows listingWithStatus).
  { vm_compute. apply list_elem_of_In. simpl. tauto. }
  assert (H3 : "Pending" <> "Running") by discriminate.
  assert (H4 : "STATUS" ∉ listingHeaders listingWithoutStatus).
  { vm_compute. intros Hin. apply list_elem_of_In in Hin. simpl in Hin.
    intuition discriminate. }
  assert (H5 : "team1 qa-team1-checkout-7d9f-xyz34 0/1"
               ∈ listingRows listingWithoutStatus).
  { vm_compute. apply list_elem_of_In. simpl. tauto. }
  assert (H6 : (2 < length (JS.split "-" "qa-team1-checkout-7d9f-xyz34"))%nat).
  { vm_compute. lia. }
  split; [reflexivity|]. split.
  - exact (proj1 (proj2 (status_filter noRegexp listingWithStatus None
                           catalogWithStatus eq_refl))
             H1 _ "Pending" H2 eq_refl H3).
  - split; [reflexivity|].
    exact (proj2 (proj2 (status_filter noRegexp listingWithoutStatus None
                           catalogWithoutStatus eq_refl))
             H4 _ "qa-team1-checkout-7d9f-xyz34" H5 eq_refl H6).
Defined.

(** C9.  With an explicit namespace every entry of the catalog records
    that namespace, whatever the [NAMESPACE] column holds; without one
    an entry records the value its row has in that column. *)
Theorem explicit_namespace_recorded
    (regexpReplace : string -> string -> option string)
    (podsData : string) (namespace : option string) (catalog : servicesMap)
    (key env : string) (d : Details.t) :
  parseServicesMap regexpReplace podsData namespace = Ok catalog ->
  entryAt catalog key env = Some d ->
  match namespace with
  | Some ns => Details.namespace d = Some ns
  | None =>
      let headers := listingHeaders podsData in
      let namespaceIndex := JS.indexOf "NAMESPACE" headers in
      exists line, line ∈ listingRows podsData /\
        rowEntry regexpReplace None namespaceIndex (JS.indexOf "NAME" headers)
                 (JS.indexOf "STATUS" headers) line
        = Ok (Some (key, env, d)) /\
        Details.namespace d = JS.at_ (JS.splitSpaces line) namespaceIndex
  end.
Proof.
  intros Hparse Hentry.
  destruct (catalog_facts_aux _ _ _ _ Hparse) as [Hfrom _].
  destruct (Hfrom _ _ _ Hentry) as (line & Hline & Hrow).
  pose proof (rowEntry_namespace _ _ _ _ _ _ _ _ _ Hrow) as Hns.
  destruct namespace as [ns|]; [done|].
  exists line. split; [done|]. split; done.
Qed.

(** The rows of [listingWithStatus] name [team1] and [team2] in their
    [NAMESPACE] column; parsed under the explicit namespace [other],
    the entries record [other]. *)
Lemma explicit_namespace_recorded_witness :
  parseServicesMap noRegexp listingWithStatus (Some "other")
  = Ok catalogExplicit /\
  entryAt catalogExplicit "cart" "default"
  = Some (Details.mk "5c6b-q2w3e" (Some "other") "cart") /\
  Details.namespace (Details.mk "5c6b-q2w3e" (Some "other") "cart")
  = Some "other".
Proof.
  split; [reflexivity|]. split; [reflexivity|].
  exact (explicit_namespace_recorded noRegexp listingWithStatus (Some "other")
           catalogExplicit "cart" "default" _ eq_refl eq_refl).
Defined.

(** ** The interactive run *)

Lemma bind_run {A B} (m : M A) (k : A -> M B) (w : world) :
  (m ≫= k) w
  = match m w with
    | Done a w' => k a w'
    | Threw e w' => Threw e w'
    | Pending w' => Pending w'
    end.
Proof. reflexivity. Qed.

Lemma bind_Done {A B} (m : M A) (k : A -> M B) (w w' : world) (b : B) :
  (m ≫= k) w = Done b w' ->
  exists a w1, m w = Done a w1 /\ k a w1 = Done b w'.
Proof.
  rewrite bind_run. destruct (m w) as [a w1|e w1|w1]; [|done|done].
  intros Hk. by exists a, w1.
Qed.

Lemma settle_rejected (o : execOutcome) :
  is_Some (error o) \/ stderr o <> EmptyString ->
  exists message, settle o = Rejected message.
Proof.
  unfold settle. intros [[e He]|Herr].
  - rewrite He. by exists e.
  - destruct (error o) as [e|]; [by exists e|].
    destruct (stderr o) as [|ch s]; [done|]. simpl. by eexists.
Qed.

(** [getServicePort] completes or stays pending; it throws nothing. *)
Lemma getServicePort_no_throw serviceNamespace serviceName w e w' :
  getServicePort serviceNamespace serviceName w <> Threw e w'.
Proof.
  unfold getServicePort. run.
  destruct (spinnerRunning w) eqn:Hspin; run;
    (destruct (commands w) as [|o rest]; run; [done|]);
    destruct (settle o); run; rewrite ?Hspin; run; done.
Qed.

Lemma getServicePort_rejected serviceNamespace serviceName w o rest message :
  commands w = o :: rest ->
  settle o = Rejected message ->
  exists w',
    getServicePort serviceNamespace serviceName w = Done "3000" w' /\
    answers w' = answers w /\ commands w' = rest /\
    spinnerRunning w' = false /\
    exists written,
      trace w' = trace w ++ written
                 ++ [ConsoleError ("Error detecting port: Error: " +:+ message)].
Proof.
  intros Hcmds Hsettle. unfold getServicePort. run.
  destruct (spinnerRunning w) eqn:Hspin; run; rewrite Hcmds, Hsettle; run;
    rewrite ?Hspin; run;
    (eexists; split; [reflexivity|]); simpl; repeat split;
    rewrite <- ?app_assoc; simpl;
    first [by eexists [_; _] | by eexists [_; _; _]].
Qed.

Lemma getServicePort_resolved serviceNamespace serviceName w o rest out :
  commands w = o :: rest ->
  settle o = Resolved out ->
  exists w',
    getServicePort serviceNamespace serviceName w = Done out w' /\
    answers w' = answers w /\ commands w' = rest /\
    exists written, trace w' = trace w ++ written.
Proof.
  intros Hcmds Hsettle. unfold getServicePort. run.
  destruct (spinnerRunning w) eqn:Hspin; run; rewrite Hcmds, Hsettle; run;
    rewrite ?Hspin; run;
    (eexists; split; [reflexivity|]); simpl; repeat split;
    rewrite <- ?app_assoc; simpl; eexists; reflexivity.
Qed.

(** C8.  When the port-detection command fails, with an error or with
    output on its standard error, [getServicePort] returns ["3000"]
    after reporting the error; the rejection is caught inside the
    function, which in no world ends in an exception, so the step that
    follows it in the loop is run. *)
Theorem getServicePort_falls_back (serviceNamespace : option string)
    (serviceName : string) (w : world) (o : execOutcome)
    (rest : list execOutcome) :
  commands w = o :: rest ->
  is_Some (error o) \/ stderr o <> EmptyString ->
  (exists w' message written,
     getServicePort serviceNamespace serviceName w = Done "3000" w' /\
     settle o = Rejected message /\
     answers w' = answers w /\ commands w' = rest /\
     trace w' = trace w ++ written
                ++ [ConsoleError ("Error detecting port: Error: " +:+ message)]) /\
  (forall w0 e w1,
     getServicePort serviceNamespace serviceName w0 <> Threw e w1).
Proof.
  intros Hcmds Hfail. split; [|intros; apply getServicePort_no_throw].
  destruct (settle_rejected o Hfail) as [message Hsettle].
  destruct (getServicePort_rejected serviceNamespace serviceName _ _ _ _
              Hcmds Hsettle) as (w' & Hrun & Hans & Hrest & _ & written & Htr).
  by exists w', message, written.
Qed.

(** The run after a failed detection goes on with the default. *)
Lemma getServicePort_falls_back_witness :
  commands failingDetection = [mkExec (Some "Command failed: kubectl") "" ""] /\
  exists w', getServicePort (Some "team1") "dev-checkout" failingDetection
             = Done "3000" w' /\ answers w' = ["8080"; "n"].
Proof.
  split; [reflexivity|].
  destruct (proj1 (getServicePort_falls_back (Some "team1") "dev-checkout"
                     failingDetection _ [] eq_refl
                     (or_introl (ex_intro _ "Command failed: kubectl" eq_refl))))
    as (w' & message & written & Hrun & _ & Hans & _).
  exists w'. split; [exact Hrun|exact Hans].
Defined.

Lemma prompt_run question w line rest :
  answers w = line :: rest ->
  prompt question w
  = Done (JS.trim line)
         (mkWorld rest (commands w) (spinnerRunning w) (spinnerMessage w)
                  (trace w ++ [Question question])).
Proof. intros Hans. unfold prompt. by rewrite Hans. Qed.

Lemma isEmpty_false s : s <> EmptyString -> JS.isEmpty s = false.
Proof. by destruct s. Qed.

(** C10.  A non-empty answer at the destination-port prompt is what the
    configuration stores as [servicePort], as typed, and what the tunnel
    arguments carry after the local port; when it is no valid port the
    only reaction is the message that names the detected (or default)
    port, and the typed value is used all the same. *)
Theorem typed_destination_port_kept
    (selectedService environment envLabel serviceId serviceName : string)
    (serviceNamespace : option string) (localPort : string)
    (w : world) (o : execOutcome) (cmds : list execOutcome)
    (destLine logsLine : string) (rest : list string) :
  commands w = o :: cmds ->
  answers w = destLine :: logsLine :: rest ->
  JS.trim destLine <> EmptyString ->
  let detected :=
    match settle o with Resolved out => out | Rejected _ => "3000" end in
  exists cfg w',
    completeConfig selectedService environment envLabel serviceId serviceName
                   serviceNamespace localPort w = Done cfg w' /\
    Config.servicePort cfg = JS.trim destLine /\
    Config.localPort cfg = localPort /\
    last (portForwardArgs cfg) = Some (localPort +:+ ":" +:+ JS.trim destLine) /\
    (isValidPort (JS.trim destLine) = false ->
     print c.red ("Invalid destination port for " +:+ selectedService
                  +:+ ". Using detected/default: " +:+ detected) ∈ trace w') /\
    answers w' = rest /\ commands w' = cmds.
Proof.
  intros Hcmds Hans Htyped detected.
  assert (exists w1, getServicePort serviceNamespace serviceName w
                     = Done detected w1 /\
                     answers w1 = answers w /\ commands w1 = cmds)
    as (w1 & Hport & Hans1 & Hcmds1).
  { unfold detected. destruct (settle o) as [out|message] eqn:Hsettle.
    - destruct (getServicePort_resolved serviceNamespace serviceName _ _ _ _
                  Hcmds Hsettle) as (w1 & ? & ? & ? & _). by exists w1.
    - destruct (getServicePort_rejected serviceNamespace serviceName _ _ _ _
                  Hcmds Hsettle) as (w1 & ? & ? & ? & _). by exists w1. }
  rewrite Hans in Hans1.
  unfold completeConfig. rewrite bind_run, Hport.
  rewrite bind_run, (prompt_run _ _ _ _ Hans1).
  rewrite (isEmpty_false _ Htyped).
  destruct (isValidPort (JS.trim destLine)) eqn:Hvalid; run;
    (eexists _, _; split; [reflexivity|]); simpl;
    (split; [done|]); (split; [done|]); (split; [done|]);
    (split; [|done]); [done|].
  intros _. rewrite !elem_of_app, !list_elem_of_singleton. left; right. done.
Qed.

(** The answer [80x] is no valid port and is stored and passed on. *)
Lemma typed_destination_port_kept_witness :
  commands destinationWorld = [mkExec None "8080" ""] /\
  answers destinationWorld = ["80x "; "n"] /\
  JS.trim "80x " <> EmptyString /\
  isValidPort (JS.trim "80x ") = false /\
  exists cfg w',
    completeConfig "checkout" "dev" "dev~" "7d9f-abc12" "dev-checkout"
                   (Some "team1") "3000" destinationWorld = Done cfg w' /\
    Config.servicePort cfg = "80x" /\
    last (portForwardArgs cfg) = Some "3000:80x".
Proof.
  split; [reflexivity|]. split; [reflexivity|].
  assert (Htyped : JS.trim "80x " <> EmptyString) by discriminate.
  split; [exact Htyped|]. split; [reflexivity|].
  destruct (typed_destination_port_kept "checkout" "dev" "dev~" "7d9f-abc12"
              "dev-checkout" (Some "team1") "3000" destinationWorld
              _ [] "80x " "n" [] eq_refl eq_refl Htyped)
    as (cfg & w' & Hrun & Hport & _ & Hargs & _).
  exists cfg, w'. split; [exact Hrun|]. split; [exact Hport|exact Hargs].
Defined.

(** ** The configuration loop and the reserved local ports *)

(** A port the loop of lines 555-576 accepts is valid and was not
    reserved. *)
Lemma localPortLoop_accepts question suggested reserved lines tr port rest tr' :
  localPortLoop question suggested reserved lines tr = (Some port, rest, tr') ->
  isValidPort port = true /\ port ∉ reserved.
Proof.
  revert tr. induction lines as [|line lines IH]; intros tr Hloop;
    simpl in Hloop; [discriminate|].
  set (candidate := if JS.isEmpty (JS.trim line) then suggested
                    else JS.trim line) in Hloop.
  destruct (isValidPort candidate) eqn:Hvalid; simpl in Hloop;
    [|exact (IH _ Hloop)].
  destruct (decide (candidate ∈ reserved)) as [Hin|Hout];
    [exact (IH _ Hloop)|].
  injection Hloop as <- <- <-. done.
Qed.

Lemma askLocalPort_Done question suggested reserved w port w' :
  askLocalPort question suggested reserved w = Done port w' ->
  isValidPort port = true /\ port ∉ reserved.
Proof.
  unfold askLocalPort.
  destruct (localPortLoop _ _ _ _ _) as [[[p|] rest] tr] eqn:Hloop; [|done].
  intros [= <- <-]. by eapply localPortLoop_accepts.
Qed.

Lemma completeConfig_localPort selectedService environment envLabel serviceId
    serviceName serviceNamespace localPort w cfg w' :
  completeConfig selectedService environment envLabel serviceId serviceName
                 serviceNamespace localPort w = Done cfg w' ->
  Config.localPort cfg = localPort.
Proof.
  unfold completeConfig. intros Hrun.
  apply bind_Done in Hrun as (detected & w1 & _ & Hrun).
  apply bind_Done in Hrun as (answer & w2 & _ & Hrun).
  apply bind_Done in Hrun as ([] & w3 & _ & Hrun).
  apply bind_Done in Hrun as (logs & w4 & _ & Hrun).
  by injection Hrun as <- _.
Qed.

(** One turn of the loop over the selected services: a configuration
    comes with a valid local port that was not reserved, and that port
    is reserved when the turn ends; a skipped service reserves nothing. *)
Lemma configureService_Done catalog namespace reserved selectedService w r
    reserved' w' :
  configureService catalog namespace reserved selectedService w
  = Done (r, reserved') w' ->
  match r with
  | Some cfg =>
      isValidPort (Config.localPort cfg) = true /\
      (Config.localPort cfg ∉ reserved) /\
      reserved' = {[Config.localPort cfg]} ∪ reserved
  | None => reserved' = reserved
  end.
Proof.
  unfold configureService. intros Hrun.
  apply bind_Done in Hrun as (chosen & w1 & _ & Hrun).
  destruct chosen as [[environment serviceDetails]|].
  - apply bind_Done in Hrun as (localPort & w2 & Hport & Hrun).
    apply bind_Done in Hrun as (cfg & w3 & Hcfg & Hrun).
    injection Hrun as <- <- <-.
    apply completeConfig_localPort in Hcfg. rewrite Hcfg.
    apply askLocalPort_Done in Hport as [Hvalid Hfresh]. done.
  - by injection Hrun as <- <- <-.
Qed.

(** The configuration a turn pushes on [selectedConfigs] is the one
    lines 578-616 build, for the local port the loop of lines 555-576
    accepted. *)
Lemma configureService_config catalog namespace reserved selectedService w cfg
    reserved' w' :
  configureService catalog namespace reserved selectedService w
  = Done (Some cfg, reserved') w' ->
  exists environment details envLabel serviceNamespace question suggested w1 w2,
    chooseEnvironment catalog selectedService w
    = Done (Some (environment, details)) w1 /\
    askLocalPort question suggested reserved w1
    = Done (Config.localPort cfg) w2 /\
    completeConfig selectedService environment envLabel (Details.id details)
      (Details.serviceName details) serviceNamespace (Config.localPort cfg) w2
    = Done cfg w'.
Proof.
  unfold configureService. intros Hrun.
  apply bind_Done in Hrun as (chosen & w1 & Hchosen & Hrun).
  destruct chosen as [[environment details]|]; [|done].
  apply bind_Done in Hrun as (localPort & w2 & Hport & Hrun).
  apply bind_Done in Hrun as (cfg' & w3 & Hcfg & Hrun).
  injection Hrun as -> _ ->.
  pose proof (completeConfig_localPort _ _ _ _ _ _ _ _ _ _ Hcfg) as ->.
  by repeat eexists.
Qed.

Lemma configureAll_portsReserved catalog namespace selectedServices configs
    reserved w configs' reserved' w' :
  portsReserved configs reserved ->
  configureAll catalog namespace selectedServices configs reserved w
  = Done (configs', reserved') w' ->
  portsReserved configs' reserved'.
Proof.
  revert configs reserved w.
  induction selectedServices as [|svc rest IH]; intros configs reserved w Hinv Hrun.
  - simpl in Hrun. by injection Hrun as <- <- <-.
  - simpl in Hrun. apply bind_Done in Hrun as ([r reserved1] & w1 & Hone & Hrun).
    apply configureService_Done in Hone.
    destruct r as [cfg|].
    + destruct Hone as (Hvalid & Hfresh & ->).
      apply (IH _ _ _) in Hrun; [done|].
      destruct Hinv as [Hnd Hall]. split.
      * rewrite fmap_app. apply NoDup_app. split; [done|]. split.
        -- intros port Hport Hport'. simpl in Hport'.
           apply list_elem_of_singleton in Hport' as ->.
           apply list_elem_of_fmap in Hport as (cfg' & Heq & Hcfg').
           rewrite Forall_forall in Hall. destruct (Hall _ Hcfg') as [_ Hin].
           rewrite <- Heq in Hin. done.
        -- apply NoDup_singleton.
      * apply Forall_app. split.
        -- eapply Forall_impl; [exact Hall|]. intros cfg' [? ?].
           split; [done|]. set_solver.
        -- constructor; [|constructor]. split; [done|]. set_solver.
    + subst reserved1. by apply (IH _ _ _) in Hrun.
Qed.

(** Two services that both take the default get [3000] and [3001], and
    a second [3000] is refused until another port is typed. *)
Example defaults_do_not_collide :
  localPortsOf (configure twoServices None ["checkout"; "cart"] allDefaults)
  = Some ["3000"; "3001"] /\
  localPortsOf (configure twoServices None ["checkout"; "cart"] samePortRefused)
  = Some ["3000"; "3005"].
Proof. split; vm_compute; reflexivity. Qed.

(** C6, at the failing input: the second service is given [03000] while
    [3000] is reserved; the text is not in the set, so it is accepted,
    and two finished configurations hold the local port 3000. *)
Theorem same_port_accepted_twice :
  localPortsOf (configure twoServices None ["checkout"; "cart"] samePortTwice)
  = Some ["3000"; "03000"] /\
  isValidPort "3000" = true /\ isValidPort "03000" = true /\
  portNumber "03000" = portNumber "3000" /\
  JS.Number_isInteger (portNumber "3000") = true /\
  JS.le (portNumber "3000") 3000 = true /\
  JS.gt (portNumber "3000") 2999 = true.
Proof. repeat split; vm_compute; reflexivity. Qed.

(** ** Further properties of the code *)

Lemma parseRows_last regexpReplace namespace namespaceIndex nameIndex
    statusIndex rows m catalog key env :
  parseRows regexpReplace namespace namespaceIndex nameIndex statusIndex rows m
  = Ok catalog ->
  entryAt catalog key env
  = match lastEntry regexpReplace namespace namespaceIndex nameIndex
                    statusIndex rows key env with
    | Some d => Some d
    | None => entryAt m key env
    end.
Proof.
  revert m. induction rows as [|line rows IH]; intros m Hrows; simpl in *.
  - by injection Hrows as ->.
  - destruct (rowEntry _ _ _ _ _ line) as [[[[key' env'] d']|]|e]; [| |done].
    + rewrite (IH _ Hrows). destruct (lastEntry _ _ _ _ _ rows key env); [done|].
      destruct (decide ((key', env') = (key, env))) as [Heq|Hne].
      * injection Heq as -> ->. apply entryAt_upsert_eq.
      * apply entryAt_upsert_ne. congruence.
    + rewrite (IH _ Hrows). by destruct (lastEntry _ _ _ _ _ rows key env).
Qed.

(** X2.  Last wins: the entry of the catalog under a short service name and
    an environment is the one of the last data row that gives an entry
    under that pair, and there is none when no row does. *)
Theorem catalog_last_wins (regexpReplace : string -> string -> option string)
    (podsData : string) (namespace : option string) (catalog : servicesMap)
    (key env : string) :
  parseServicesMap regexpReplace podsData namespace = Ok catalog ->
  let headers := listingHeaders podsData in
  entryAt catalog key env
  = lastEntry regexpReplace namespace (JS.indexOf "NAMESPACE" headers)
      (JS.indexOf "NAME" headers) (JS.indexOf "STATUS" headers)
      (listingRows podsData) key env.
Proof.
  unfold parseServicesMap. intros Hparse. cbv zeta.
  rewrite (parseRows_last _ _ _ _ _ _ _ _ key env Hparse).
  by destruct (lastEntry _ _ _ _ _ _ key env).
Qed.

Lemma catalog_last_wins_witness :
  parseServicesMap noRegexp listingSameKey None = Ok catalogSameKey /\
  entryAt catalogSameKey "checkout" "dev"
  = Some (Details.mk "5c6b-q2w3e" None "dev-checkout").
Proof.
  split; [reflexivity|].
  exact (catalog_last_wins noRegexp listingSameKey None catalogSameKey
           "checkout" "dev" eq_refl).
Defined.

(** X1.  The finished configurations have pairwise distinct local-port
    texts, each a valid port. *)
Theorem finalized_local_port_texts_distinct (catalog : servicesMap)
    (namespace : option string) (selectedServices : list string) (w : world)
    (configs : list Config.t) (reserved : gset string) (w' : world) :
  configure catalog namespace selectedServices w = Done (configs, reserved) w' ->
  NoDup (Config.localPort <$> configs) /\
  Forall (fun cfg => isValidPort (Config.localPort cfg) = true) configs.
Proof.
  intros Hrun. apply configureAll_portsReserved in Hrun as [Hnd Hall].
  - split; [done|]. eapply Forall_impl; [exact Hall|]. by intros cfg [? _].
  - split; [constructor|constructor].
Qed.

Lemma finalized_local_port_texts_distinct_witness :
  localPortsOf (configure twoServices None ["checkout"; "cart"] samePortRefused)
  = Some ["3000"; "3005"] /\
  NoDup ["3000"; "3005"].
Proof.
  split; [vm_compute; reflexivity|].
  destruct (configure twoServices None ["checkout"; "cart"] samePortRefused)
    as [[configs reserved] w'|e w'|w'] eqn:Hrun; [|vm_compute in Hrun; discriminate..].
  destruct (finalized_local_port_texts_distinct _ _ _ _ _ _ _ Hrun) as [Hnd _].
  assert (Hports : Config.localPort <$> configs = ["3000"; "3005"]).
  { assert (Some (Config.localPort <$> configs) = Some ["3000"; "3005"])
      as Heq; [|by injection Heq].
    change (Some (Config.localPort <$> configs))
      with (localPortsOf (Done (configs, reserved) w')).
    rewrite <- Hrun. vm_compute. reflexivity. }
  rewrite <- Hports. exact Hnd.
Defined.

(** The port checks of the examples: a valid port is the text of an
    integer of 1..65535. *)
Example isValidPort_examples :
  isValidPort "0" = false /\ isValidPort "65535" = true /\
  isValidPort "65536" = false /\ isValidPort "abc" = false.
Proof. repeat split; vm_compute; reflexivity. Qed.

(** A name of three segments keeps its first segment only as service
    name: the last two are the id, whatever they are. *)
Example three_segment_name :
  parseServicesMap noRegexp listingThreeSegments (Some "team1")
  = Ok [("dev", [("dev", Details.mk "checkout-abc123" (Some "team1") "dev")])].
Proof. reflexivity. Qed.

(** The selections of the examples. *)
Example parseMultiSelect_examples :
  parseMultiSelect "1,3,5" 5 = Some [1; 3; 5] /\
  parseMultiSelect "1,9" 5 = None /\
  parseMultiSelect "" 5 = Some [] /\
  parseMultiSelect "1,1,2" 5 = Some [1; 2].
Proof. repeat split; reflexivity. Qed.

(** * Further properties of the code *)

(** ** Splitting and joining *)

Lemma split_nonempty c s : JS.split c s <> [].
Proof.
  destruct s as [|a s]; simpl; [done|].
  destruct (Ascii.eqb a c); [done|]. by destruct (JS.split c s).
Qed.

Lemma join_cons sep p q rest :
  JS.join sep (p :: q :: rest) = p +:+ sep +:+ JS.join sep (q :: rest).
Proof. reflexivity. Qed.

Lemma string_app_nil_r (s : string) : s +:+ EmptyString = s.
Proof.
  induction s as [|a s IH]; [done|].
  change (String a s +:+ EmptyString) with (String a (s +:+ EmptyString)).
  by rewrite IH.
Qed.

(** [s.split(c).join(c)] is [s]. *)
Lemma join_split c s : JS.join (String c EmptyString) (JS.split c s) = s.
Proof.
  induction s as [|a s IH]; [done|]. simpl.
  destruct (Ascii.eqb a c) eqn:Hac.
  - apply Ascii.eqb_eq in Hac as ->.
    destruct (JS.split c s) as [|h t] eqn:Hs; [by apply split_nonempty in Hs|].
    rewrite join_cons, IH. reflexivity.
  - destruct (JS.split c s) as [|h [|h' t]] eqn:Hs;
      [by apply split_nonempty in Hs| |].
    + simpl in *. by rewrite IH.
    + rewrite join_cons in *.
      change (String a h +:+ String c EmptyString +:+ JS.join (String c EmptyString) (h' :: t))
        with (String a (h +:+ String c EmptyString +:+ JS.join (String c EmptyString) (h' :: t))).
      by rewrite IH.
Qed.

Lemma join_app sep (l1 l2 : list string) :
  l1 <> [] -> l2 <> [] ->
  JS.join sep (l1 ++ l2) = JS.join sep l1 +:+ sep +:+ JS.join sep l2.
Proof.
  intros H1 H2. induction l1 as [|p [|q l1] IH]; [done| |].
  - destruct l2 as [|r l2]; [done|]. reflexivity.
  - change ((p :: q :: l1) ++ l2) with (p :: (q :: l1) ++ l2).
    change ((q :: l1) ++ l2) with (q :: l1 ++ l2) at 1.
    rewrite join_cons. change (q :: l1 ++ l2) with ((q :: l1) ++ l2).
    rewrite IH by done. rewrite join_cons.
    by rewrite !string_app_assoc.
Qed.

Lemma occurs_app c s1 s2 : occurs c (s1 +:+ s2) = occurs c s1 || occurs c s2.
Proof.
  induction s1 as [|a s1 IH]; [done|].
  change (String a s1 +:+ s2) with (String a (s1 +:+ s2)). simpl.
  by rewrite IH, orb_assoc.
Qed.

(** The fields of a split are free of the separator. *)
Lemma split_fields c s : Forall (fun f => occurs c f = false) (JS.split c s).
Proof.
  induction s as [|a s IH]; simpl; [by repeat constructor|].
  destruct (Ascii.eqb a c) eqn:Hac; [by constructor|].
  destruct (JS.split c s) as [|h t].
  { constructor; [simpl; by rewrite Hac|constructor]. }
  apply Forall_cons in IH as [Hh Ht]. constructor; [|done].
  simpl. by rewrite Hac.
Qed.

Lemma split_no_separator c s : occurs c s = false -> JS.split c s = [s].
Proof.
  induction s as [|a s IH]; [done|]. simpl. intros Hs.
  apply orb_false_iff in Hs as [Hac Hs]. by rewrite Hac, (IH Hs).
Qed.

Lemma split_app_separator c s1 s2 :
  occurs c s1 = false ->
  JS.split c (s1 +:+ String c s2) = s1 :: JS.split c s2.
Proof.
  induction s1 as [|a s1 IH]; intros Hs.
  - simpl. by rewrite Ascii.eqb_refl.
  - simpl in Hs. apply orb_false_iff in Hs as [Hac Hs].
    change (String a s1 +:+ String c s2) with (String a (s1 +:+ String c s2)).
    simpl. by rewrite Hac, (IH Hs).
Qed.

(** [parts.join(c).split(c)] is [parts] when no part holds [c]. *)
Lemma split_join c (parts : list string) :
  parts <> [] ->
  Forall (fun f => occurs c f = false) parts ->
  JS.split c (JS.join (String c EmptyString) parts) = parts.
Proof.
  intros Hne Hall. induction parts as [|p [|q rest] IH]; [done| |].
  - apply Forall_cons in Hall as [Hp _]. simpl. by apply split_no_separator.
  - apply Forall_cons in Hall as [Hp Hrest]. rewrite join_cons.
    change (p +:+ String c EmptyString +:+ JS.join (String c EmptyString) (q :: rest))
      with (p +:+ String c (JS.join (String c EmptyString) (q :: rest))).
    rewrite split_app_separator by done. by rewrite IH.
Qed.

(** ** Catalog parser: names, shape, exceptions *)

Section RowFacts.

Variable regexpReplace : string -> string -> option string.
Variable namespace : option string.
Variables namespaceIndex nameIndex statusIndex : Z.

(** The name of the row is put back together from the service name and
    the id of its entry; the id is made of two segments and the
    environment is the tag the name starts with. *)
Lemma rowEntry_name line key env d :
  rowEntry regexpReplace namespace namespaceIndex nameIndex statusIndex line
  = Ok (Some (key, env, d)) ->
  nameOf nameIndex line
  = Some (Details.serviceName d +:+ "-" +:+ Details.id d) /\
  length (JS.split "-" (Details.id d)) = 2%nat /\
  env = envPrefixOf (Details.serviceName d +:+ "-" +:+ Details.id d).
Proof.
  unfold rowEntry, nameOf. intros Hrow.
  destruct (match (if negb (statusIndex =? -1) then _ else _) with
            | Some s => _ | None => _ end); [done|].
  destruct (JS.at_ (JS.splitSpaces line) nameIndex) as [nameColumn|]; [|done].
  destruct (2 <? length (JS.split "-" nameColumn))%nat eqn:Hlen; [|done].
  apply Nat.ltb_lt in Hlen.
  set (parts := JS.split "-" nameColumn) in *.
  set (n := (length parts - 2)%nat) in *.
  assert (Hname : JS.join "-" (take n parts) +:+ "-" +:+ JS.join "-" (drop n parts)
                  = nameColumn).
  { rewrite <- join_app.
    - rewrite take_drop. apply (join_split "-").
    - intros Htake. apply (f_equal length) in Htake.
      rewrite length_take in Htake. simpl in Htake. lia.
    - intros Hdrop. apply (f_equal length) in Hdrop.
      rewrite length_drop in Hdrop. simpl in Hdrop. lia. }
  assert (Hid : length (JS.split "-" (JS.join "-" (drop n parts))) = 2%nat).
  { rewrite (split_join "-").
    - rewrite length_drop. lia.
    - intros Hdrop. apply (f_equal length) in Hdrop.
      rewrite length_drop in Hdrop. simpl in Hdrop. lia.
    - apply Forall_drop, split_fields. }
  repeat case_match; simplify_eq; simpl; rewrite Hname; done.
Qed.

End RowFacts.

Lemma completeConfig_fields selectedService environment envLabel serviceId
    serviceName serviceNamespace localPort w cfg w' :
  completeConfig selectedService environment envLabel serviceId serviceName
                 serviceNamespace localPort w = Done cfg w' ->
  Config.selectedService cfg = selectedService /\
  Config.environment cfg = environment /\
  Config.envLabel cfg = envLabel /\
  Config.serviceId cfg = serviceId /\
  Config.serviceName cfg = serviceName /\
  Config.serviceNamespace cfg = serviceNamespace /\
  Config.localPort cfg = localPort.
Proof.
  unfold completeConfig. intros Hrun.
  apply bind_Done in Hrun as (detected & w1 & _ & Hrun).
  apply bind_Done in Hrun as (answer & w2 & _ & Hrun).
  apply bind_Done in Hrun as ([] & w3 & _ & Hrun).
  apply bind_Done in Hrun as (logs & w4 & _ & Hrun).
  by injection Hrun as <- _.
Qed.

(** The details [chooseEnvironment] returns are an entry of the catalog
    under the selected service. *)
Lemma chooseEnvironment_entry catalog selectedService w environment details w' :
  chooseEnvironment catalog selectedService w
  = Done (Some (environment, details)) w' ->
  entryAt catalog selectedService environment = Some details.
Proof.
  unfold chooseEnvironment, entryAt. intros Hrun.
  apply bind_Done in Hrun as ([] & w1 & _ & Hrun).
  destruct (assocGet selectedService catalog) as [envs|] eqn:Hget; simpl in *.
  - destruct (length (map fst envs) =? 0)%nat.
    { apply bind_Done in Hrun as ([] & w2 & _ & Hrun). done. }
    apply bind_Done in Hrun as ([] & w2 & _ & Hrun).
    apply bind_Done in Hrun as ([] & w3 & _ & Hrun).
    apply bind_Done in Hrun as (envAnswer & w4 & _ & Hrun).
    destruct (selectEnvironment envAnswer (map fst envs)) as [[env|]|];
      simpl in Hrun.
    + destruct (assocGet env envs) as [d|] eqn:Henv.
      * by injection Hrun as <- <- _.
      * apply bind_Done in Hrun as ([] & w5 & _ & Hrun). done.
    + apply bind_Done in Hrun as ([] & w5 & _ & Hrun). done.
    + apply bind_Done in Hrun as ([] & w5 & _ & Hrun). done.
  - apply bind_Done in Hrun as ([] & w2 & _ & Hrun). done.
Qed.

(** *** The shape of a catalog *)

Lemma assocSet_keys {V} k (v : V) m :
  (assocSet k v m).*1 = if decide (k ∈ m.*1) then m.*1 else m.*1 ++ [k].
Proof.
  induction m as [|[k' v'] m IH].
  - destruct (decide (k ∈ (@nil (string * V)).*1)) as [Hin|_]; [|done].
    by apply elem_of_nil in Hin.
  - cbn [assocSet]. destruct (decide (k' = k)) as [->|Hne].
    + destruct (decide (k ∈ ((k, v') :: m).*1)) as [_|Hout]; [done|].
      exfalso. apply Hout. left.
    + change (((k', v') :: assocSet k v m).*1) with (k' :: (assocSet k v m).*1).
      change (((k', v') :: m).*1) with (k' :: m.*1).
      rewrite IH.
      destruct (decide (k ∈ m.*1)) as [Hin|Hout];
        destruct (decide (k ∈ k' :: m.*1)) as [Hin'|Hout']; try done.
      * exfalso. apply Hout'. by right.
      * exfalso. apply elem_of_cons in Hin' as [->|Hin']; done.
Qed.

Lemma assocSet_NoDup {V} k (v : V) m : NoDup (m.*1) -> NoDup ((assocSet k v m).*1).
Proof.
  intros Hnd. rewrite assocSet_keys. case_decide; [done|].
  apply NoDup_app. split; [done|]. split; [|apply NoDup_singleton].
  intros x Hx Hx'. apply list_elem_of_singleton in Hx' as ->. done.
Qed.

Lemma assocGet_Some_elem {V} k (v : V) m : assocGet k m = Some v -> (k, v) ∈ m.
Proof.
  induction m as [|[k' v'] m IH]; simpl; [done|].
  destruct (decide (k' = k)) as [->|Hne].
  - intros [= ->]. left.
  - intros Hget. right. by apply IH.
Qed.

Lemma assocGet_None_keys {V} k (m : list (string * V)) :
  assocGet k m = None <-> k ∉ m.*1.
Proof.
  induction m as [|[k' v'] m IH]; simpl.
  - split; [intros _; apply not_elem_of_nil|done].
  - destruct (decide (k' = k)) as [->|Hne].
    + split; [done|]. intros Hout. exfalso. apply Hout. left.
    + rewrite IH, not_elem_of_cons. split; [by intros ?|by intros [_ ?]].
Qed.

(** Every value of the map after an update is the new value or an old
    one. *)
Lemma assocSet_values {V} (P : V -> Prop) k (v : V) m :
  P v -> Forall (fun entry => P (snd entry)) m ->
  Forall (fun entry => P (snd entry)) (assocSet k v m).
Proof.
  intros Hv Hall. induction Hall as [|[k' v'] m Hx Hm IH]; simpl.
  - by repeat constructor.
  - destruct (decide (k' = k)); constructor; done.
Qed.

Lemma assocSet_assocSet {V} k (v1 v2 : V) m :
  assocSet k v2 (assocSet k v1 m) = assocSet k v2 m.
Proof.
  induction m as [|[k' v'] m IH]; simpl.
  - by rewrite decide_True.
  - destruct (decide (k' = k)) as [->|Hne]; simpl.
    + by rewrite decide_True.
    + by rewrite decide_False, IH.
Qed.

Lemma envPrefixOf_tag nameColumn : envPrefixOf nameColumn ∈ envTags.
Proof.
  unfold envPrefixOf, envTags, envPrefixes. cbn [List.find].
  destruct (JS.startsWith ("dev" +:+ "-") nameColumn); [set_solver|].
  destruct (JS.startsWith ("qa" +:+ "-") nameColumn); [set_solver|].
  destruct (JS.startsWith ("stg" +:+ "-") nameColumn); [set_solver|].
  destruct (JS.startsWith ("prod" +:+ "-") nameColumn); set_solver.
Qed.

Lemma upsert_wellFormed key env d m :
  env ∈ envTags -> wellFormed m -> wellFormed (upsert key env d m).
Proof.
  intros Henv [Hkeys Hall]. unfold upsert.
  set (good := fun obj : list (string * Details.t) =>
         obj <> [] /\ NoDup (obj.*1) /\ Forall (fun e => e ∈ envTags) (obj.*1)).
  assert (Hnew : forall obj,
             obj = [] \/ good obj -> good (assocSet env d obj)).
  { intros obj Hobj. split; [by destruct obj as [|[??]?]; simpl; try case_decide|].
    destruct Hobj as [->|(_ & Hnd & Htags)].
    - simpl. split; [apply NoDup_singleton|].
      constructor; [exact Henv|constructor].
    - split; [by apply assocSet_NoDup|].
      rewrite assocSet_keys. case_decide; [done|].
      apply Forall_app. split; [done|].
      constructor; [exact Henv|constructor]. }
  destruct (assocGet key m) as [obj|] eqn:Hget.
  - rewrite Hget. split; [by apply assocSet_NoDup|].
    apply (assocSet_values good); [|done].
    apply Hnew. right. apply assocGet_Some_elem in Hget.
    rewrite Forall_forall in Hall. apply (Hall _ Hget).
  - rewrite assocGet_set_eq, assocSet_assocSet.
    split; [by apply assocSet_NoDup|].
    apply (assocSet_values good); [apply Hnew; by left|done].
Qed.

Lemma parseRows_wellFormed regexpReplace namespace namespaceIndex nameIndex
    statusIndex rows m catalog :
  wellFormed m ->
  parseRows regexpReplace namespace namespaceIndex nameIndex statusIndex rows m
  = Ok catalog ->
  wellFormed catalog.
Proof.
  revert m. induction rows as [|line rows IH]; intros m Hm Hrows; simpl in Hrows.
  - by injection Hrows as <-.
  - destruct (rowEntry _ _ _ _ _ line) as [[[[key env] d]|]|e] eqn:Hrow;
      [| |done].
    + apply (IH (upsert key env d m)); [|done].
      apply upsert_wellFormed; [|done].
      destruct (rowEntry_name _ _ _ _ _ _ _ _ _ Hrow) as (_ & _ & ->).
      apply envPrefixOf_tag.
    + by apply (IH m).
Qed.

(** X3.  The catalog is well formed: every short service name is listed
    once, and under it at least one and at most five environments, each
    once and each one of [default], [dev], [qa], [stg] and [prod]. *)
Theorem catalog_shape (regexpReplace : string -> string -> option string)
    (podsData : string) (namespace : option string) (catalog : servicesMap) :
  parseServicesMap regexpReplace podsData namespace = Ok catalog ->
  NoDup (catalog.*1) /\
  forall key envs, (key, envs) ∈ catalog ->
    envs <> [] /\ NoDup (envs.*1) /\ (length envs <= 5)%nat /\
    forall env, env ∈ envs.*1 -> env ∈ envTags.
Proof.
  unfold parseServicesMap. intros Hparse.
  apply parseRows_wellFormed in Hparse as [Hkeys Hall];
    [|split; constructor].
  split; [done|]. intros key envs Hin.
  rewrite Forall_forall in Hall.
  destruct (Hall _ Hin) as (Hne & Hnd & Htags). simpl in *.
  split; [done|]. split; [done|]. split.
  - rewrite <- (length_fmap fst).
    change 5%nat with (length envTags).
    apply submseteq_length, NoDup_submseteq; [done|].
    intros env Henv. rewrite Forall_forall in Htags. by apply Htags.
  - intros env Henv. rewrite Forall_forall in Htags. by apply Htags.
Qed.

Lemma catalog_shape_witness :
  parseServicesMap noRegexp listingWithStatus None = Ok catalogWithStatus /\
  NoDup (catalogWithStatus.*1).
Proof.
  split; [reflexivity|].
  exact (proj1 (catalog_shape noRegexp listingWithStatus None catalogWithStatus
                  eq_refl)).
Defined.

Lemma passesStatus_rowEntry regexpReplace namespace namespaceIndex nameIndex
    statusIndex line :
  passesStatus statusIndex line = false ->
  rowEntry regexpReplace namespace namespaceIndex nameIndex statusIndex line
  = Ok None.
Proof.
  unfold passesStatus, rowEntry. intros Hpass.
  destruct (statusIndex =? -1) eqn:Hidx.
  - apply Z.eqb_eq in Hidx as ->. done.
  - simpl. destruct (JS.at_ (JS.splitSpaces line) statusIndex); [|done].
    by rewrite Hpass.
Qed.

(** A row that passes the filter and has no name throws. *)
Lemma rowEntry_no_name regexpReplace namespace namespaceIndex nameIndex
    statusIndex line :
  passesStatus statusIndex line = true ->
  nameOf nameIndex line = None ->
  exists e, rowEntry regexpReplace namespace namespaceIndex nameIndex
                     statusIndex line = Throw e.
Proof.
  unfold passesStatus, rowEntry, nameOf. intros Hpass Hname.
  rewrite Hname.
  destruct (negb (statusIndex =? -1)); [|by eexists].
  destruct (JS.at_ (JS.splitSpaces line) statusIndex); [|by eexists].
  rewrite Hpass. by eexists.
Qed.

(** A row that has a name and a namespace free of syntax characters
    throws nothing. *)
Lemma rowEntry_Ok regexpReplace namespace namespaceIndex nameIndex
    statusIndex line :
  is_Some (nameOf nameIndex line) ->
  (forall ns, namespaceOf namespace namespaceIndex line = Some ns ->
              hasSyntaxCharacter ns = false) ->
  exists r, rowEntry regexpReplace namespace namespaceIndex nameIndex
                     statusIndex line = Ok r.
Proof.
  unfold rowEntry, nameOf. intros [name Hname] Hns.
  rewrite Hname. fold (namespaceOf namespace namespaceIndex line).
  destruct (match (if negb (statusIndex =? -1) then _ else _) with
            | Some s => _ | None => _ end); [by eexists|].
  destruct (2 <? length (JS.split "-" name))%nat; [|by eexists].
  destruct (namespaceOf namespace namespaceIndex line) as [ns|] eqn:Hnsof;
    [|by eexists].
  destruct (JS.isEmpty ns); [by eexists|].
  unfold stripNamespace. rewrite (Hns ns eq_refl). by eexists.
Qed.

Lemma parseRows_Throw regexpReplace namespace namespaceIndex nameIndex
    statusIndex rows m line :
  line ∈ rows ->
  (exists e, rowEntry regexpReplace namespace namespaceIndex nameIndex
                      statusIndex line = Throw e) ->
  exists e, parseRows regexpReplace namespace namespaceIndex nameIndex
                      statusIndex rows m = Throw e.
Proof.
  revert m. induction rows as [|l rows IH]; intros m Hin Hthrow.
  - by apply elem_of_nil in Hin.
  - simpl. destruct (rowEntry _ _ _ _ _ l) as [[[[key env] d]|]|e] eqn:Hl.
    + apply elem_of_cons in Hin as [->|Hin]; [|by apply IH].
      destruct Hthrow as [e He]. congruence.
    + apply elem_of_cons in Hin as [->|Hin]; [|by apply IH].
      destruct Hthrow as [e He]. congruence.
    + by exists e.
Qed.

Lemma parseRows_Ok regexpReplace namespace namespaceIndex nameIndex
    statusIndex rows m :
  Forall (fun line => exists r,
            rowEntry regexpReplace namespace namespaceIndex nameIndex
                     statusIndex line = Ok r) rows ->
  exists catalog, parseRows regexpReplace namespace namespaceIndex nameIndex
                            statusIndex rows m = Ok catalog.
Proof.
  intros Hall. revert m. induction Hall as [|l rows [r Hr] _ IH]; intros m.
  - by exists m.
  - simpl. rewrite Hr. destruct r as [[[key env] d]|]; apply IH.
Qed.

(** X4.  [parseServicesMap] throws exactly when a data row that passes
    the status filter has no value in the [NAME] column, provided that
    no namespace in play holds a pattern syntax character; in
    particular a header without a [NAME] column gives an exception as
    soon as one row passes the filter, and a listing whose rows all have
    a name gives a catalog. *)
Theorem parseServicesMap_throws (regexpReplace : string -> string -> option string)
    (podsData : string) (namespace : option string) :
  let headers := listingHeaders podsData in
  let namespaceIndex := JS.indexOf "NAMESPACE" headers in
  let nameIndex := JS.indexOf "NAME" headers in
  let statusIndex := JS.indexOf "STATUS" headers in
  (forall line ns, line ∈ listingRows podsData ->
     namespaceOf namespace namespaceIndex line = Some ns ->
     hasSyntaxCharacter ns = false) ->
  ((exists e, parseServicesMap regexpReplace podsData namespace = Throw e) <->
   exists line, line ∈ listingRows podsData /\
     passesStatus statusIndex line = true /\ nameOf nameIndex line = None) /\
  ("NAME" ∉ headers ->
   forall line, line ∈ listingRows podsData ->
     passesStatus statusIndex line = true ->
     exists e, parseServicesMap regexpReplace podsData namespace = Throw e).
Proof.
  intros headers namespaceIndex nameIndex statusIndex Hclean.
  assert (Hthrow : forall line, line ∈ listingRows podsData ->
            passesStatus statusIndex line = true ->
            nameOf nameIndex line = None ->
            exists e, parseServicesMap regexpReplace podsData namespace = Throw e).
  { intros line Hline Hpass Hname. unfold parseServicesMap.
    apply (parseRows_Throw _ _ _ _ _ _ _ line); [done|].
    by apply rowEntry_no_name. }
  split; [split|].
  - intros [e He].
    destruct (decide (Exists (fun line => passesStatus statusIndex line = true /\
                                nameOf nameIndex line = None)
                             (listingRows podsData))) as [Hex|Hnone].
    { apply Exists_exists in Hex as (line & Hline & Hpass & Hname).
      by exists line. }
    exfalso. apply not_Exists_Forall in Hnone; [|intros line; apply _].
    unfold parseServicesMap in He.
    destruct (parseRows_Ok regexpReplace namespace namespaceIndex nameIndex
                statusIndex (listingRows podsData) []) as [catalog Hok].
    { apply Forall_forall. intros line Hline.
      rewrite Forall_forall in Hnone. specialize (Hnone line Hline).
      simpl in Hnone.
      destruct (passesStatus statusIndex line) eqn:Hpass.
      + apply rowEntry_Ok; [|intros ns; by apply Hclean].
        destruct (nameOf nameIndex line) eqn:Hname; [done|].
        exfalso. by apply Hnone.
      + exists None. by apply passesStatus_rowEntry. }
    subst statusIndex nameIndex namespaceIndex headers.
    rewrite Hok in He. discriminate.
  - intros (line & Hline & Hpass & Hname). by apply (Hthrow line).
  - intros Hno line Hline Hpass. apply (Hthrow line); [done|done|].
    unfold nameOf, nameIndex.
    rewrite (proj2 (indexOf_spec "NAME" headers) Hno). reflexivity.
Qed.

Lemma parseServicesMap_throws_witness :
  ("NAME" ∉ listingHeaders listingNoName) /\
  exists e, parseServicesMap noRegexp listingNoName None = Throw e.
Proof.
  assert (Hclean : forall line ns,
            line ∈ listingRows listingNoName ->
            namespaceOf None (JS.indexOf "NAMESPACE" (listingHeaders listingNoName))
                        line = Some ns ->
            hasSyntaxCharacter ns = false).
  { intros line ns Hline. vm_compute in Hline.
    apply list_elem_of_singleton in Hline. subst line.
    intros Hns. vm_compute in Hns. injection Hns as <-. reflexivity. }
  assert (Hname : "NAME" ∉ listingHeaders listingNoName).
  { vm_compute. intros Hin.
    repeat (apply elem_of_cons in Hin as [Hin|Hin]; [discriminate Hin|]).
    by apply elem_of_nil in Hin. }
  split; [exact Hname|].
  apply (proj2 (parseServicesMap_throws noRegexp listingNoName None Hclean)
               Hname "team1 checkout-7d9f-abc12").
  - vm_compute. apply list_elem_of_singleton. reflexivity.
  - reflexivity.
Defined.

(** ** Numerals, [Number] and [isValidPort] *)

Lemma isDigit_radixDigit c :
  isDigit c = true -> exists d, JS.radixDigit 10 c = Some d /\ 0 <= d <= 9.
Proof.
  unfold isDigit, JS.radixDigit, JS.digitValue. cbv zeta. intros H.
  rewrite H. apply andb_true_iff in H as [H1 H2].
  apply Z.leb_le in H1. apply Z.leb_le in H2.
  eexists. split.
  - destruct (_ <? 10) eqn:E; [reflexivity|]. apply Z.ltb_ge in E. lia.
  - lia.
Qed.

Lemma isDigit_not_space c : isDigit c = true -> JS.isWhiteSpace c = false.
Proof. destruct c as [[] [] [] [] [] [] [] []]; try discriminate; reflexivity. Qed.

Lemma spanDigits_allDigits s :
  allDigits s = true ->
  JS.spanDigits 10 s = (JS.digitsPrefix 10 s, EmptyString) /\
  length (JS.digitsPrefix 10 s) = String.length s.
Proof.
  induction s as [|c r IH]; simpl; [done|].
  intros [Hc Hr]%andb_true_iff.
  destruct (isDigit_radixDigit c Hc) as (d & -> & _).
  destruct (IH Hr) as [-> Hlen]. simpl. by rewrite Hlen.
Qed.

Lemma trimEnd_allDigits s : allDigits s = true -> JS.trimEnd s = s.
Proof.
  induction s as [|c r IH]; simpl; [done|].
  intros [Hc Hr]%andb_true_iff.
  rewrite (isDigit_not_space c Hc), (IH Hr). done.
Qed.

Lemma trim_numeral s : allDigits s = true -> JS.trim s = s.
Proof.
  intros H. unfold JS.trim.
  assert (JS.trimStart s = s) as ->.
  { destruct s as [|c r]; simpl; [done|].
    apply andb_true_iff in H as [Hc _].
    by rewrite (isDigit_not_space c Hc). }
  by apply trimEnd_allDigits.
Qed.

Lemma foldl_mathInt radix acc ds :
  foldl (fun acc d => acc * radix + d) acc ds
  = acc * radix ^ Z.of_nat (length ds) + JS.mathInt radix ds.
Proof.
  unfold JS.mathInt. revert acc.
  induction ds as [|d ds IH]; intros acc; simpl foldl.
  - simpl. lia.
  - rewrite IH, (IH (0 * radix + d)).
    replace (Z.of_nat (length (d :: ds))) with (Z.succ (Z.of_nat (length ds)))
      by (simpl length; lia).
    rewrite Z.pow_succ_r by lia. ring.
Qed.

Lemma mathInt_cons radix d ds :
  JS.mathInt radix (d :: ds)
  = d * radix ^ Z.of_nat (length ds) + JS.mathInt radix ds.
Proof.
  unfold JS.mathInt at 1. simpl foldl. rewrite foldl_mathInt. ring.
Qed.

Lemma mathInt_nonneg ds :
  Forall (fun d => 0 <= d) ds -> 0 <= JS.mathInt 10 ds.
Proof.
  induction 1 as [|d ds Hd _ IH]; [done|].
  rewrite mathInt_cons.
  assert (0 <= 10 ^ Z.of_nat (length ds)) by (apply Z.pow_nonneg; lia). nia.
Qed.

Lemma digitsPrefix_nonneg s : Forall (fun d => 0 <= d) (JS.digitsPrefix 10 s).
Proof.
  induction s as [|c r IH]; simpl; [constructor|].
  unfold JS.radixDigit, JS.digitValue. cbv zeta.
  repeat case_match; simplify_eq; try constructor; try done;
    repeat match goal with
           | H : (_ && _) = true |- _ => apply andb_true_iff in H as [? ?]
           | H : (_ <=? _) = true |- _ => apply Z.leb_le in H
           end; lia.
Qed.

Lemma numeralValue_nonneg s : 0 <= numeralValue s.
Proof. apply mathInt_nonneg, digitsPrefix_nonneg. Qed.

Lemma roundHalfEven_lower num den : num / den <= JS.roundHalfEven num den.
Proof. unfold JS.roundHalfEven. repeat case_match; lia. Qed.

(** The double nearest to a natural number passes the three tests of
    [isValidPort] exactly when the number is a port. *)
Lemma toDouble_port n :
  0 <= n ->
  JS.Number_isInteger (JS.toDouble n 1) && JS.gt (JS.toDouble n 1) 0
  && JS.le (JS.toDouble n 1) 65535
  = (1 <=? n) && (n <=? 65535).
Proof.
  intros Hn. destruct (decide (n = 0)) as [->|Hne]; [reflexivity|].
  assert (Hpos : 0 < n) by lia.
  destruct (Z.log2_spec n Hpos) as [Hlo Hhi].
  pose proof (Z.log2_nonneg n) as Hk.
  assert (H1n : (1 <=? n) = true) by (apply Z.leb_le; lia).
  rewrite H1n. cbn [andb].
  unfold JS.toDouble.
  destruct (n =? 0) eqn:E; [apply Z.eqb_eq in E; lia|].
  change (Z.log2 1) with 0. rewrite Z.sub_0_r.
  set (k := Z.log2 n) in *.
  destruct (0 <=? k) eqn:E1; [|apply Z.leb_gt in E1; lia].
  cbv zeta. rewrite !Z.mul_1_l.
  destruct (2 ^ k <=? n) eqn:E2; [|apply Z.leb_gt in E2; lia].
  destruct (decide (k < 52)) as [Hsmall|Hbig].
  - rewrite Z.max_l by lia.
    destruct (0 <=? k - 52) eqn:E3; [apply Z.leb_le in E3; lia|].
    cbn [andb]. rewrite roundHalfEven_one.
    cbn [JS.Number_isInteger JS.gt JS.le]. rewrite E3.
    replace (- (k - 52)) with (52 - k) by lia.
    assert (Hp : 0 < 2 ^ (52 - k)) by (apply Z.pow_pos_nonneg; lia).
    rewrite Z.mod_mul by lia. cbn [Z.eqb andb].
    assert ((0 * 2 ^ (52 - k) <? n * 2 ^ (52 - k)) = true) as ->
      by (apply Z.ltb_lt; nia).
    cbn [andb].
    destruct (n <=? 65535) eqn:E4.
    + apply Z.leb_le in E4. apply Z.leb_le. nia.
    + apply Z.leb_gt in E4. apply Z.leb_gt. nia.
  - rewrite Z.max_l by lia.
    destruct (0 <=? k - 52) eqn:E3; [|apply Z.leb_gt in E3; lia].
    set (q := k - 52) in *.
    assert (Hq : 0 < 2 ^ q) by (apply Z.pow_pos_nonneg; lia).
    assert (Hk52 : 2 ^ k = 2 ^ 52 * 2 ^ q).
    { rewrite <- Z.pow_add_r by lia. f_equal. lia. }
    assert (Hm : 2 ^ 52 <= JS.roundHalfEven n (2 ^ q)).
    { etrans; [|apply roundHalfEven_lower].
      apply Z.div_le_lower_bound; [lia|]. lia. }
    set (m := JS.roundHalfEven n (2 ^ q)) in *.
    assert (Hn52 : 2 ^ 52 <= n) by nia.
    assert ((n <=? 65535) = false) as -> by (apply Z.leb_gt; lia).
    cbn [andb].
    destruct (2 ^ 1024 <=? m * 2 ^ q); [reflexivity|].
    cbn [JS.Number_isInteger JS.gt JS.le]. rewrite E3.
    assert ((m * 2 ^ q <=? 65535) = false) as -> by (apply Z.leb_gt; nia).
    by rewrite andb_false_r.
Qed.

Lemma nonDecimalPrefix_digits c r :
  isDigit c = true -> allDigits r = true ->
  JS.nonDecimalPrefix (String c r) = None.
Proof.
  intros Hc Hr. destruct r as [|c2 r2].
  - destruct c as [[] [] [] [] [] [] [] []]; try discriminate Hc; reflexivity.
  - simpl in Hr. apply andb_true_iff in Hr as [Hc2 _].
    destruct c2 as [[] [] [] [] [] [] [] []]; try discriminate Hc2;
      destruct c as [[] [] [] [] [] [] [] []]; try discriminate Hc; reflexivity.
Qed.

Lemma parseDecimal_numeral s :
  isNumeral s = true ->
  JS.parseDecimal s = Some (numeralValue s, 0).
Proof.
  unfold isNumeral. intros [Hne Hd]%andb_true_iff.
  unfold JS.parseDecimal, numeralValue.
  destruct (spanDigits_allDigits s Hd) as [-> Hlen].
  rewrite app_nil_r.
  destruct (JS.digitsPrefix 10 s) as [|d ds] eqn:E.
  - destruct s; [discriminate Hne|discriminate Hlen].
  - reflexivity.
Qed.

Lemma Number_numeral s :
  isNumeral s = true -> JS.Number s = JS.toDouble (numeralValue s) 1.
Proof.
  intros Hs. pose proof Hs as [Hne Hd]%andb_true_iff.
  unfold JS.Number. rewrite (trim_numeral s Hd). cbv zeta.
  destruct s as [|c r]; [discriminate Hne|].
  cbn [JS.isEmpty]. simpl in Hd. apply andb_true_iff in Hd as [Hc Hr].
  rewrite (nonDecimalPrefix_digits c r Hc Hr).
  assert (Hsign :
    match String c r with
    | String "-" r0 => (true, r0)
    | String "+" r0 => (false, r0)
    | _ => (false, String c r)
    end = (false, String c r)).
  { destruct c as [[] [] [] [] [] [] [] []]; try discriminate Hc; reflexivity. }
  rewrite Hsign.
  assert (Hinf : String.eqb (String c r) "Infinity" = false).
  { destruct c as [[] [] [] [] [] [] [] []]; try discriminate Hc; reflexivity. }
  rewrite Hinf, (parseDecimal_numeral _ Hs).
  unfold JS.decimalToDouble. cbn [Z.leb Z.compare Z.pow Z.pow_pos].
  by rewrite Z.mul_1_r.
Qed.

Lemma isValidPort_numeral s :
  isNumeral s = true ->
  isValidPort s = (1 <=? numeralValue s) && (numeralValue s <=? 65535).
Proof.
  intros Hs. unfold isValidPort. cbv zeta. rewrite (Number_numeral s Hs).
  apply toDouble_port, numeralValue_nonneg.
Qed.

Lemma pretty_N_char_digit x :
  (x < 10)%N ->
  isDigit (pretty_N_char x) = true /\
  JS.radixDigit 10 (pretty_N_char x) = Some (Z.of_N x).
Proof.
  intros Hx.
  assert (x = 0 \/ x = 1 \/ x = 2 \/ x = 3 \/ x = 4 \/ x = 5 \/ x = 6
          \/ x = 7 \/ x = 8 \/ x = 9)%N as Hcases by lia.
  destruct_or!; subst x; split; reflexivity.
Qed.

Lemma numeralValue_String c s d :
  JS.radixDigit 10 c = Some d -> allDigits s = true ->
  numeralValue (String c s)
  = d * 10 ^ Z.of_nat (String.length s) + numeralValue s.
Proof.
  intros Hc Hs. unfold numeralValue. cbn [JS.digitsPrefix]. rewrite Hc.
  rewrite mathInt_cons.
  by destruct (spanDigits_allDigits s Hs) as [_ ->].
Qed.

(** The digits [pretty] writes in front of [s] are those of [x]. *)
Lemma pretty_N_go_numeral x s :
  allDigits s = true ->
  allDigits (pretty_N_go x s) = true /\
  numeralValue (pretty_N_go x s)
  = Z.of_N x * 10 ^ Z.of_nat (String.length s) + numeralValue s.
Proof.
  revert s. induction x as [x IH] using (well_founded_induction N.lt_wf_0).
  intros s Hs. destruct (decide (x = 0)%N) as [->|Hx].
  - rewrite pretty_N_go_0. split; [done|]. lia.
  - rewrite pretty_N_go_step by lia.
    destruct (pretty_N_char_digit (x `mod` 10)%N) as [Hd Hv].
    { apply N.mod_lt. lia. }
    destruct (IH (x `div` 10)%N) with (s := String (pretty_N_char (x `mod` 10)) s)
      as [Hall Hval].
    { apply N.div_lt; lia. }
    { simpl. by rewrite Hd, Hs. }
    split; [exact Hall|].
    rewrite Hval, (numeralValue_String _ _ _ Hv Hs).
    cbn [String.length].
    replace (Z.of_nat (S (String.length s)))
      with (Z.succ (Z.of_nat (String.length s))) by lia.
    rewrite Z.pow_succ_r by lia.
    rewrite N2Z.inj_div, N2Z.inj_mod. change (Z.of_N 10) with 10.
    pose proof (Z.div_mod (Z.of_N x) 10 ltac:(lia)) as Hdm.
    set (len := 10 ^ Z.of_nat (String.length s)).
    rewrite Hdm at 3. ring.
Qed.

(** [String(p)] is the numeral of [p]. *)
Lemma String_numeral p :
  0 <= p ->
  isNumeral (JS.String_ p) = true /\ numeralValue (JS.String_ p) = p.
Proof.
  intros Hp. unfold JS.String_, pretty, pretty_Z.
  destruct p as [|p|p]; [split; reflexivity| |lia].
  unfold pretty, pretty_positive, pretty, pretty_N.
  destruct (decide (N.pos p = 0%N)) as [Heq|_]; [discriminate Heq|].
  destruct (pretty_N_go_numeral (N.pos p) EmptyString eq_refl) as [Hall Hval].
  change (numeralValue "") with 0 in Hval. cbn [String.length] in Hval.
  rewrite Z.add_0_r in Hval. change (10 ^ Z.of_nat 0) with 1 in Hval.
  rewrite Z.mul_1_r in Hval. change (Z.of_N (N.pos p)) with (Z.pos p) in Hval.
  split; [|exact Hval].
  unfold isNumeral. rewrite Hall, andb_true_r.
  destruct (pretty_N_go (N.pos p) "") eqn:E; [|reflexivity].
  discriminate Hval.
Qed.

Lemma isValidPort_String p :
  0 <= p -> isValidPort (JS.String_ p) = (1 <=? p) && (p <=? 65535).
Proof.
  intros Hp. destruct (String_numeral p Hp) as [Hnum Hval].
  by rewrite (isValidPort_numeral _ Hnum), Hval.
Qed.

(** X5.  A decimal numeral is a valid port exactly when the integer it
    denotes lies in 1..65535, whatever its length; zeros in front of it
    change nothing. *)
Theorem numeral_is_port (s : string) :
  isNumeral s = true ->
  (isValidPort s = true <-> 1 <= numeralValue s <= 65535) /\
  isValidPort (String "0" s) = isValidPort s /\
  (forall p, 0 <= p -> s = JS.String_ p ->
     (isValidPort s = true <-> 1 <= p <= 65535)).
Proof.
  intros Hs. split; [|split].
  - rewrite (isValidPort_numeral s Hs), andb_true_iff, !Z.leb_le. tauto.
  - pose proof Hs as [_ Hd]%andb_true_iff.
    assert (Hs0 : isNumeral (String "0" s) = true) by (unfold isNumeral; simpl; exact Hd).
    rewrite (isValidPort_numeral _ Hs0), (isValidPort_numeral s Hs).
    rewrite (numeralValue_String "0" s 0 eq_refl Hd). by rewrite Z.mul_0_l.
  - intros p Hp ->. rewrite (isValidPort_String p Hp), andb_true_iff, !Z.leb_le.
    tauto.
Qed.

Lemma numeral_is_port_witness :
  isNumeral "03000" = true /\ isValidPort "03000" = true /\
  numeralValue "03000" = 3000.
Proof.
  split; [reflexivity|]. split; [|reflexivity].
  apply (proj1 (numeral_is_port "03000" eq_refl)). vm_compute. split; discriminate.
Defined.

(** X6.  Pressing Enter at the local-port prompt takes the suggested port:
    as long as fewer than 62536 ports are reserved, the suggestion of
    [nextAvailablePort(3000, reserved)] is a valid port outside the set,
    and the loop of lines 555-576 accepts it at once. *)
Theorem suggested_port_accepted (question : string) (reserved : gset string)
    (w : world) (line : string) (rest : list string) :
  Z.of_nat (size reserved) <= 62535 ->
  answers w = line :: rest ->
  JS.trim line = EmptyString ->
  let suggested := nextAvailablePort 3000 reserved in
  isValidPort suggested = true /\ (suggested ∉ reserved) /\
  askLocalPort question suggested reserved w
  = Done suggested
         (mkWorld rest (commands w) (spinnerRunning w) (spinnerMessage w)
                  (trace w ++ [Question question])).
Proof.
  intros Hsize Hanswers Hblank suggested.
  pose proof (scanPorts_spec reserved (size reserved) 3000) as (Hrange & _ & _).
  cbv zeta in Hrange.
  assert (Hvalid : isValidPort suggested = true).
  { unfold suggested, nextAvailablePort.
    rewrite isValidPort_String by lia.
    apply andb_true_iff. rewrite !Z.leb_le. lia. }
  assert (Hfree : suggested ∉ reserved) by apply scanPorts_exit.
  split; [exact Hvalid|]. split; [exact Hfree|].
  unfold askLocalPort. rewrite Hanswers. cbn [localPortLoop].
  rewrite Hblank. cbn [JS.isEmpty]. rewrite Hvalid. cbn [negb].
  destruct (decide (suggested ∈ reserved)) as [Hin|_]; [by destruct Hfree|].
  reflexivity.
Qed.

Lemma suggested_port_accepted_witness :
  Z.of_nat (size ({["3000"]} : gset string)) <= 62535 /\
  isValidPort (nextAvailablePort 3000 {["3000"]}) = true /\
  nextAvailablePort 3000 {["3000"]} = "3001".
Proof.
  assert (Hsize : Z.of_nat (size ({["3000"]} : gset string)) <= 62535)
    by (rewrite size_singleton; lia).
  split; [exact Hsize|]. split; [|by vm_compute].
  exact (proj1 (suggested_port_accepted "port: " {["3000"]}
                  (mkWorld [" "] [] false "" []) " " [] Hsize eq_refl eq_refl)).
Defined.

(** ** The services selected, in the order of the list *)

Lemma at_cons_succ {A} (x : A) (xs : list A) (i : Z) :
  0 < i -> JS.at_ (x :: xs) i = JS.at_ xs (i - 1).
Proof.
  intros Hi. unfold JS.at_.
  destruct (i <? 0) eqn:E1; [apply Z.ltb_lt in E1; lia|].
  destruct (i - 1 <? 0) eqn:E2; [apply Z.ltb_lt in E2; lia|].
  replace (Z.to_nat i) with (S (Z.to_nat (i - 1))) by lia. reflexivity.
Qed.

Lemma sorted_indices_sublist {A} (xs : list A) (l : list Z) (base : Z) :
  StronglySorted Z.lt l ->
  Forall (fun n => base <= n < base + Z.of_nat (length xs)) l ->
  exists items,
    map (fun n => JS.at_ xs (n - base)) l = Some <$> items /\
    sublist items xs.
Proof.
  revert l base. induction xs as [|x xs IH]; intros l base Hsorted Hrange.
  - destruct l as [|n l].
    + exists []. split; [done|constructor].
    + apply Forall_cons in Hrange as [Hn _]. simpl in Hn. lia.
  - assert (Hshift : forall l',
              Forall (fun n => base + 1 <= n < base + 1 + Z.of_nat (length xs)) l' ->
              map (fun n => JS.at_ (x :: xs) (n - base)) l'
              = map (fun n => JS.at_ xs (n - (base + 1))) l').
    { intros l' Hl'. apply map_ext_in. intros n Hn%list_elem_of_In.
      rewrite Forall_forall in Hl'. specialize (Hl' n Hn).
      rewrite at_cons_succ by lia. f_equal. lia. }
    destruct l as [|n l].
    { exists []. split; [done|]. apply sublist_nil_l. }
    apply StronglySorted_inv in Hsorted as [Hsorted Hlt].
    apply Forall_cons in Hrange as [Hn Hrange].
    assert (Htail : Forall (fun m => base + 1 <= m < base + 1 + Z.of_nat (length xs)) l).
    { rewrite Forall_forall in Hlt, Hrange |- *. intros m Hm.
      specialize (Hlt m Hm). specialize (Hrange m Hm).
      simpl length in Hrange. lia. }
    destruct (decide (n = base)) as [->|Hne].
    + destruct (IH l (base + 1) Hsorted Htail) as (items & Hmap & Hsub).
      exists (x :: items). split.
      * cbn [map]. rewrite Z.sub_diag. cbn [fmap list_fmap]. f_equal.
        rewrite (Hshift l Htail). exact Hmap.
      * by apply sublist_skip.
    + assert (Hall : Forall (fun m => base + 1 <= m < base + 1 + Z.of_nat (length xs))
                            (n :: l)).
      { constructor; [simpl length in Hn; lia|exact Htail]. }
      destruct (IH (n :: l) (base + 1)) as (items & Hmap & Hsub);
        [by constructor|exact Hall|].
      exists items. split.
      * rewrite (Hshift (n :: l) Hall). exact Hmap.
      * by apply sublist_cons.
Qed.

Lemma selectServices_items serviceAnswer servicesList selected :
  selectServices serviceAnswer servicesList = Some selected ->
  exists items,
    selected = Some <$> items /\ items <> [] /\ sublist items servicesList.
Proof.
  unfold selectServices. intros Hsel.
  destruct (parseMultiSelect serviceAnswer (Z.of_nat (length servicesList)))
    as [numbers|] eqn:Hparse; [|discriminate Hsel].
  destruct (parseMultiSelect_Some _ _ _ Hparse) as (Hsorted & _ & Hrange & _).
  destruct numbers as [|n numbers]; [discriminate Hsel|].
  injection Hsel as <-.
  destruct (sorted_indices_sublist servicesList (n :: numbers) 1 Hsorted)
    as (items & Hmap & Hsub).
  { eapply Forall_impl; [exact Hrange|]. simpl. intros m Hm. lia. }
  exists items. split; [exact Hmap|]. split; [|exact Hsub].
  intros ->. discriminate Hmap.
Qed.

(** X7.  Whatever the order and the repetitions of the numbers typed, the
    services selected come in the order of the list shown, each one
    once, and there is at least one. *)
Theorem selected_services_in_list_order (serviceAnswer : string)
    (servicesList : list string) (selected : list (option string)) :
  selectServices serviceAnswer servicesList = Some selected ->
  exists selectedServices,
    selected = Some <$> selectedServices /\
    selectedServices <> [] /\
    sublist selectedServices servicesList /\
    (NoDup servicesList -> NoDup selectedServices).
Proof.
  unfold selectServices. intros Hsel.
  destruct (parseMultiSelect serviceAnswer (Z.of_nat (length servicesList)))
    as [numbers|] eqn:Hparse; [|discriminate Hsel].
  destruct (parseMultiSelect_Some _ _ _ Hparse) as (Hsorted & _ & Hrange & _).
  destruct numbers as [|n numbers]; [discriminate Hsel|].
  injection Hsel as <-.
  destruct (sorted_indices_sublist servicesList (n :: numbers) 1 Hsorted)
    as (items & Hmap & Hsub).
  { eapply Forall_impl; [exact Hrange|]. simpl. intros m Hm. lia. }
  exists items. split; [exact Hmap|]. split; [|split].
  - intros ->. discriminate Hmap.
  - exact Hsub.
  - intros Hnd. eapply sublist_NoDup; eassumption.
Qed.

Lemma selected_services_in_list_order_witness :
  selectServices "3, 1,3" ["cart"; "checkout"; "search"]
  = Some [Some "cart"; Some "search"] /\
  exists selectedServices,
    [Some "cart"; Some "search"] = Some <$> selectedServices /\
    sublist selectedServices ["cart"; "checkout"; "search"].
Proof.
  assert (Hrun : selectServices "3, 1,3" ["cart"; "checkout"; "search"]
                 = Some [Some "cart"; Some "search"]) by reflexivity.
  split; [exact Hrun|].
  destruct (selected_services_in_list_order _ _ _ Hrun)
    as (selectedServices & Heq & _ & Hsub & _).
  exists selectedServices. split; assumption.
Defined.

(** ** The configurations of a run *)

Lemma configureService_fields catalog namespace reserved selectedService w cfg
    reserved' w' :
  configureService catalog namespace reserved selectedService w
  = Done (Some cfg, reserved') w' ->
  Config.selectedService cfg = selectedService /\
  exists details,
    entryAt catalog selectedService (Config.environment cfg) = Some details /\
    Config.serviceId cfg = Details.id details /\
    Config.serviceName cfg = Details.serviceName details /\
    Config.serviceNamespace cfg
    = match namespace with
      | Some ns => Some ns
      | None => Details.namespace details
      end /\
    Config.envLabel cfg
    = if String.eqb (Config.environment cfg) "default" then EmptyString
      else Config.environment cfg +:+ "~".
Proof.
  intros Hrun. unfold configureService in Hrun.
  apply bind_Done in Hrun as (chosen & w1 & Hchosen & Hrun).
  destruct chosen as [[environment details]|]; [|done].
  apply bind_Done in Hrun as (localPort & w2 & _ & Hrun).
  apply bind_Done in Hrun as (cfg' & w3 & Hcfg & Hrun).
  injection Hrun as -> _ _.
  apply completeConfig_fields in Hcfg
    as (Hsel & Henv & Hlabel & Hid & Hname & Hns & _).
  apply chooseEnvironment_entry in Hchosen.
  split; [exact Hsel|]. exists details. rewrite Henv. by repeat split.
Qed.

Lemma configureAll_Forall (P : Config.t -> Prop) catalog namespace
    selectedServices acc reserved w configs reserved' w' :
  (forall reserved0 selectedService w0 cfg reserved1 w1,
     selectedService ∈ selectedServices ->
     configureService catalog namespace reserved0 selectedService w0
     = Done (Some cfg, reserved1) w1 -> P cfg) ->
  Forall P acc ->
  configureAll catalog namespace selectedServices acc reserved w
  = Done (configs, reserved') w' ->
  Forall P configs.
Proof.
  revert acc reserved w.
  induction selectedServices as [|s rest IH]; intros acc reserved w Hstep Hacc Hrun.
  - by injection Hrun as <- _ _.
  - cbn [configureAll] in Hrun.
    apply bind_Done in Hrun as ([r reserved1] & w1 & Hone & Hrun).
    assert (Hrest : forall reserved0 selectedService w0 cfg reserved2 w2,
              selectedService ∈ rest ->
              configureService catalog namespace reserved0 selectedService w0
              = Done (Some cfg, reserved2) w2 -> P cfg).
    { intros ? ? ? ? ? ? Hin. apply Hstep. by right. }
    destruct r as [cfg|].
    + eapply (IH _ _ _ Hrest); [|exact Hrun].
      apply Forall_app. split; [exact Hacc|].
      constructor; [|constructor]. eapply Hstep; [by left|exact Hone].
    + by eapply (IH _ _ _ Hrest); [|exact Hrun].
Qed.

Lemma configureAll_new catalog namespace selectedServices acc reserved w
    configs reserved' w' :
  configureAll catalog namespace selectedServices acc reserved w
  = Done (configs, reserved') w' ->
  exists new,
    configs = acc ++ new /\
    sublist (Config.selectedService <$> new) selectedServices /\
    reserved' = list_to_set (Config.localPort <$> new) ∪ reserved.
Proof.
  revert acc reserved w.
  induction selectedServices as [|s rest IH]; intros acc reserved w Hrun.
  - injection Hrun as <- <- _. exists []. rewrite app_nil_r.
    split; [done|]. split; [constructor|]. set_solver.
  - cbn [configureAll] in Hrun.
    apply bind_Done in Hrun as ([r reserved1] & w1 & Hone & Hrun).
    pose proof (configureService_Done _ _ _ _ _ _ _ _ Hone) as Hres.
    destruct r as [cfg|].
    + destruct Hres as (_ & _ & ->).
      apply configureService_fields in Hone as [Hsel _].
      destruct (IH _ _ _ Hrun) as (new & -> & Hsub & ->).
      exists (cfg :: new). split; [by rewrite <- app_assoc|].
      split.
      * cbn [fmap list_fmap]. rewrite Hsel. by apply sublist_skip.
      * cbn [fmap list_fmap list_to_set]. set_solver.
    + subst reserved1.
      destruct (IH _ _ _ Hrun) as (new & -> & Hsub & ->).
      exists new. split; [done|]. split; [by apply sublist_cons|done].
Qed.

(** X8.  The configurations the loop of lines 510-617 leaves: they follow
    the order of the selected services, a skipped service leaving no
    trace; the reserved set holds their local ports and nothing else;
    and each one is read off the catalog entry of its service and
    environment. *)
Theorem configure_sessions (catalog : servicesMap) (namespace : option string)
    (selectedServices : list string) (w : world)
    (configs : list Config.t) (reserved : gset string) (w' : world) :
  configure catalog namespace selectedServices w = Done (configs, reserved) w' ->
  sublist (Config.selectedService <$> configs) selectedServices /\
  reserved = list_to_set (Config.localPort <$> configs) /\
  Forall (fun cfg =>
    exists details,
      entryAt catalog (Config.selectedService cfg) (Config.environment cfg)
      = Some details /\
      Config.serviceId cfg = Details.id details /\
      Config.serviceName cfg = Details.serviceName details /\
      Config.serviceNamespace cfg
      = match namespace with
        | Some ns => Some ns
        | None => Details.namespace details
        end /\
      Config.envLabel cfg
      = if String.eqb (Config.environment cfg) "default" then EmptyString
        else Config.environment cfg +:+ "~") configs.
Proof.
  unfold configure. intros Hrun.
  destruct (configureAll_new _ _ _ _ _ _ _ _ _ Hrun) as (new & -> & Hsub & ->).
  cbn [app]. split; [exact Hsub|]. split; [set_solver|].
  eapply configureAll_Forall with (acc := []); [|constructor|exact Hrun].
  intros reserved0 s w0 cfg reserved1 w1 _ Hone.
  apply configureService_fields in Hone as [<- Hdetails]. exact Hdetails.
Qed.

Lemma configure_sessions_witness :
  localPortsOf (configure twoServices None ["checkout"; "cart"] samePortRefused)
  = Some ["3000"; "3005"] /\
  exists configs reserved w',
    configure twoServices None ["checkout"; "cart"] samePortRefused
    = Done (configs, reserved) w' /\
    sublist (Config.selectedService <$> configs) ["checkout"; "cart"] /\
    reserved = list_to_set (Config.localPort <$> configs).
Proof.
  split; [by vm_compute|].
  destruct (configure twoServices None ["checkout"; "cart"] samePortRefused)
    as [[configs reserved] w'| |] eqn:Hrun.
  - exists configs, reserved, w'. split; [reflexivity|].
    destruct (configure_sessions _ _ _ _ _ _ _ Hrun) as (Hsub & Hres & _).
    split; assumption.
  - exfalso. revert Hrun. vm_compute. discriminate.
  - exfalso. revert Hrun. vm_compute. discriminate.
Defined.

(** The pod of a finished configuration is a pod of the listing. *)
Lemma configureService_listed_pod
    (regexpReplace : string -> string -> option string) (podsData : string)
    (namespace : option string) (catalog : servicesMap)
    (reserved : gset string) (selectedService : string) (w : world)
    (cfg : Config.t) (reserved' : gset string) (w' : world) :
  parseServicesMap regexpReplace podsData namespace = Ok catalog ->
  configureService catalog namespace reserved selectedService w
  = Done (Some cfg, reserved') w' ->
  let headers := listingHeaders podsData in
  exists line, line ∈ listingRows podsData /\
    nameOf (JS.indexOf "NAME" headers) line = Some (podName cfg) /\
    (JS.at_ (JS.splitSpaces line) (JS.indexOf "STATUS" headers) = None \/
     JS.at_ (JS.splitSpaces line) (JS.indexOf "STATUS" headers)
     = Some "Running") /\
    Config.serviceNamespace cfg
    = match namespace with
      | Some ns => Some ns
      | None => JS.at_ (JS.splitSpaces line) (JS.indexOf "NAMESPACE" headers)
      end.
Proof.
  intros Hparse Hrun headers.
  apply configureService_fields in Hrun
    as (_ & details & Hentry & Hid & Hname & Hns & _).
  destruct (catalog_facts_aux _ _ _ _ Hparse) as [Hfrom _].
  destruct (Hfrom _ _ _ Hentry) as (line & Hline & Hrow).
  exists line. split; [done|].
  destruct (rowEntry_name _ _ _ _ _ _ _ _ _ Hrow) as (Hpod & _ & _).
  unfold podName. rewrite Hid, Hname. split; [done|].
  split; [by eapply rowEntry_status|].
  rewrite Hns. rewrite (rowEntry_namespace _ _ _ _ _ _ _ _ _ Hrow).
  by destruct namespace.
Qed.

(** X9.  The pod a tunnel is opened to is a pod of the listing: for every
    configuration the loop finishes, the pod name is the name some data
    row has in the [NAME] column, the status of that row is [Running] or
    missing, and the namespace of the configuration is the explicit one
    or, when there is none, the one of that row. *)
Theorem tunnel_targets_listed_pod
    (regexpReplace : string -> string -> option string) (podsData : string)
    (namespace : option string) (catalog : servicesMap)
    (selectedServices : list string) (w : world)
    (configs : list Config.t) (reserved : gset string) (w' : world) :
  parseServicesMap regexpReplace podsData namespace = Ok catalog ->
  configure catalog namespace selectedServices w = Done (configs, reserved) w' ->
  let headers := listingHeaders podsData in
  Forall (fun cfg =>
    exists line, line ∈ listingRows podsData /\
      nameOf (JS.indexOf "NAME" headers) line = Some (podName cfg) /\
      (JS.at_ (JS.splitSpaces line) (JS.indexOf "STATUS" headers) = None \/
       JS.at_ (JS.splitSpaces line) (JS.indexOf "STATUS" headers)
       = Some "Running") /\
      Config.serviceNamespace cfg
      = match namespace with
        | Some ns => Some ns
        | None => JS.at_ (JS.splitSpaces line) (JS.indexOf "NAMESPACE" headers)
        end) configs.
Proof.
  intros Hparse Hrun headers. unfold configure in Hrun.
  eapply configureAll_Forall with (acc := []); [|constructor|exact Hrun].
  intros reserved0 s w0 cfg reserved1 w1 _ Hone.
  exact (configureService_listed_pod _ _ _ _ _ _ _ _ _ _ Hparse Hone).
Qed.

Lemma tunnel_targets_listed_pod_witness :
  parseServicesMap noRegexp listingWithStatus None = Ok catalogWithStatus /\
  exists configs reserved w',
    configure catalogWithStatus None ["checkout"; "cart"] allDefaults
    = Done (configs, reserved) w' /\
    Forall (fun cfg =>
      exists line, line ∈ listingRows listingWithStatus /\
        nameOf 1 line = Some (podName cfg)) configs.
Proof.
  split; [reflexivity|].
  destruct (configure catalogWithStatus None ["checkout"; "cart"] allDefaults)
    as [[configs reserved] w'| |] eqn:Hrun.
  - exists configs, reserved, w'. split; [reflexivity|].
    pose proof (tunnel_targets_listed_pod noRegexp listingWithStatus None
                  catalogWithStatus _ _ _ _ _ eq_refl Hrun) as Hall.
    eapply Forall_impl; [exact Hall|].
    intros cfg (line & Hline & Hname & _). exists line. split; assumption.
  - exfalso. revert Hrun. vm_compute. discriminate.
  - exfalso. revert Hrun. vm_compute. discriminate.
Defined.

(** ** Line discipline of [writePrefixedLines] *)

Lemma hasLineBreak_occurs s :
  hasLineBreak s = occurs "010" s || occurs "013" s.
Proof.
  induction s as [|c r IH]; [done|].
  cbn [occurs]. rewrite <- !orb_assoc.
  destruct (Ascii.eqb c "010") eqn:E1.
  { apply Ascii.eqb_eq in E1. by subst c. }
  destruct (Ascii.eqb c "013") eqn:E2.
  { apply Ascii.eqb_eq in E2. subst c. simpl. by rewrite orb_true_r. }
  cbn [orb]. rewrite <- IH.
  destruct c as [[] [] [] [] [] [] [] []]; try reflexivity; discriminate.
Qed.

Lemma occurs_replaceCR s : occurs "013" (replaceCR s) = false.
Proof.
  induction s as [|c r IH]; [done|].
  destruct (Ascii.eqb c "013") eqn:E.
  - apply Ascii.eqb_eq in E. subst c. simpl. exact IH.
  - assert (replaceCR (String c r) = String c (replaceCR r)) as ->.
    { destruct c as [[] [] [] [] [] [] [] []]; try reflexivity; discriminate. }
    cbn [occurs]. by rewrite E, IH.
Qed.

Lemma occurs_join c sep parts part :
  part ∈ parts -> occurs c part = true -> occurs c (JS.join sep parts) = true.
Proof.
  induction parts as [|p [|q rest] IH]; intros Hin Hocc.
  - by apply elem_of_nil in Hin.
  - apply list_elem_of_singleton in Hin. by subst.
  - rewrite join_cons, !occurs_app.
    apply elem_of_cons in Hin as [->|Hin]; [by rewrite Hocc|].
    rewrite (IH Hin Hocc). by rewrite !orb_true_r.
Qed.

Lemma replaceCR_empty s : replaceCR s = EmptyString -> s = EmptyString.
Proof.
  destruct s as [|c r]; [done|].
  destruct c as [[] [] [] [] [] [] [] []]; discriminate.
Qed.

Lemma replaceCRLF_empty s : replaceCRLF s = EmptyString -> s = EmptyString.
Proof.
  destruct s as [|c r]; [done|].
  destruct r as [|c2 r2];
    destruct c as [[] [] [] [] [] [] [] []]; try discriminate;
    destruct c2 as [[] [] [] [] [] [] [] []]; discriminate.
Qed.

(** The loop writes every line but a last empty one. *)
Lemma writeLines_lines colorCode prefix parts :
  exists lines,
    writeLines colorCode prefix parts
    = map (fun line => colorText colorCode (prefix +:+ " " +:+ line) +:+ LF)
          lines /\
    (lines = parts \/ parts = lines ++ [EmptyString]).
Proof.
  induction parts as [|line [|q rest] IH].
  - exists []. by split; [|left].
  - destruct line as [|c r].
    + exists []. by split; [|right].
    + exists [String c r]. by split; [|left].
  - destruct IH as (lines & Heq & Hlines).
    exists (line :: lines). split.
    + change (writeLines colorCode prefix (line :: q :: rest))
        with ((colorText colorCode (prefix +:+ " " +:+ line) +:+ LF)
              :: writeLines colorCode prefix (q :: rest)).
      by rewrite Heq.
    + destruct Hlines as [-> | ->]; [by left|by right].
Qed.

(** The lines [writePrefixedLines] writes hold no line break. *)
Lemma writePrefixedLines_decorated (colorCode prefix data : string) :
  let parts := JS.split "010" (replaceCR (replaceCRLF data)) in
  exists lines,
    writePrefixedLines colorCode prefix data
    = map (fun line => colorText colorCode (prefix +:+ " " +:+ line) +:+ LF)
          lines /\
    Forall (fun line => hasLineBreak line = false) lines /\
    (lines = parts \/ parts = lines ++ [EmptyString]).
Proof.
  intros parts. unfold writePrefixedLines. fold parts.
  set (text := replaceCR (replaceCRLF data)) in *.
  pose proof (join_split "010" text) as Hjoin.
  pose proof (split_fields "010" text) as Hfields.
  pose proof (occurs_replaceCR (replaceCRLF data)) as Hcr. fold text in Hcr.
  assert (Hnocr : Forall (fun part => occurs "013" part = false) parts).
  { apply Forall_forall. intros part Hin.
    destruct (occurs "013" part) eqn:E; [|done].
    pose proof (occurs_join "013" (String "010" EmptyString) _ _ Hin E) as Hocc.
    unfold parts in Hocc. rewrite Hjoin in Hocc. congruence. }
  destruct (writeLines_lines colorCode prefix parts) as (lines & Heq & Hlines).
  exists lines. split; [exact Heq|]. split; [|exact Hlines].
  assert (Hsub : forall line, line ∈ lines -> line ∈ parts).
  { intros line Hin. destruct Hlines as [<- | ->]; [done|].
    apply elem_of_app. by left. }
  apply Forall_forall. intros line Hin%Hsub.
  rewrite Forall_forall in Hfields, Hnocr.
  by rewrite hasLineBreak_occurs, (Hfields _ Hin), (Hnocr _ Hin).
Qed.

(** X10.  What [writePrefixedLines] writes for a chunk: one text per line of
    the chunk, in order, each made of the colour, the prefix, a space,
    the line, the reset code and a line feed.  The lines hold no line
    break, and joined by line feeds they give back the chunk with its
    line endings normalised, up to one final line feed: nothing of the
    chunk is lost or written twice.  Only the empty chunk writes
    nothing. *)
Theorem writePrefixedLines_lines (colorCode prefix data : string) :
  let text := replaceCR (replaceCRLF data) in
  exists lines,
    writePrefixedLines colorCode prefix data
    = map (fun line => colorText colorCode (prefix +:+ " " +:+ line) +:+ LF)
          lines /\
    Forall (fun line => hasLineBreak line = false) lines /\
    (JS.join LF lines = text \/ JS.join LF lines +:+ LF = text) /\
    (lines = [] <-> data = EmptyString) /\
    occurs "013" text = false.
Proof.
  intros text.
  pose proof (split_nonempty "010" text) as Hne.
  pose proof (join_split "010" text) as Hjoin.
  destruct (writePrefixedLines_decorated colorCode prefix data)
    as (lines & Heq & Hbreaks & Hlines). fold text in Hlines.
  exists lines. split; [exact Heq|]. split; [exact Hbreaks|].
  split; [|split; [|apply occurs_replaceCR]].
  - change LF with (String "010" EmptyString).
    destruct Hlines as [-> | Hparts]; [by left|].
    rewrite Hparts in Hjoin.
    destruct lines as [|l ls]; [by left|right].
    rewrite join_app in Hjoin by done.
    cbn [JS.join] in Hjoin. by rewrite string_app_nil_r in Hjoin.
  - split.
    + intros ->. destruct Hlines as [Hparts|Hparts]; [destruct Hne; by symmetry|].
      rewrite Hparts in Hjoin. cbn in Hjoin.
      apply replaceCRLF_empty, replaceCR_empty. symmetry. exact Hjoin.
    + intros ->. subst text. cbn in Hlines.
      destruct Hlines as [-> | Hparts]; [by cbn in Heq|].
      destruct lines as [|l [|l2 ls]]; [done|discriminate Hparts|discriminate Hparts].
Qed.

(** ** What a shutdown does to every child *)

Lemma kill_counts os p q :
  count (isKillOf p) (killPortForwardProcess os q)
  = (if decide (q = p) then if hasPid p then 1 else 0 else 0)%nat /\
  count (isForceKillOf p) (killPortForwardProcess os q)
  = (if decide (q = p)
     then if hasPid p then match os with posix => 1 | win32 => 0 end else 0
     else 0)%nat /\
  count isRlClose (killPortForwardProcess os q) = 0%nat /\
  count isExitTimer (killPortForwardProcess os q) = 0%nat.
Proof.
  unfold killPortForwardProcess, hasPid, count.
  destruct (decide (q = p)) as [->|Hne].
  - destruct (Child.pid p) as [pid|]; [|done].
    destruct (pid =? 0); [done|].
    destruct os; simpl; rewrite ?bool_decide_eq_true_2 by done; done.
  - destruct (Child.pid q) as [pid|]; [|done].
    destruct (pid =? 0); [done|].
    destruct os; simpl; rewrite ?bool_decide_eq_false_2 by done; done.
Qed.

Lemma kills_counts os p (ps : list Child.t) :
  NoDup ps ->
  count (isKillOf p) (flat_map (killPortForwardProcess os) ps)
  = (if decide (p ∈ ps) then if hasPid p then 1 else 0 else 0)%nat /\
  count (isForceKillOf p) (flat_map (killPortForwardProcess os) ps)
  = (if decide (p ∈ ps)
     then if hasPid p then match os with posix => 1 | win32 => 0 end else 0
     else 0)%nat /\
  count isRlClose (flat_map (killPortForwardProcess os) ps) = 0%nat /\
  count isExitTimer (flat_map (killPortForwardProcess os) ps) = 0%nat.
Proof.
  induction 1 as [|q ps Hq Hnd IH]; [by rewrite decide_False by set_solver|].
  cbn [flat_map]. rewrite !count_app.
  destruct (kill_counts os p q) as (-> & -> & -> & ->).
  destruct IH as (-> & -> & -> & ->).
  split; [|split; [|done]].
  - destruct (decide (q = p)) as [->|Hne].
    + rewrite (decide_True (P := p ∈ p :: ps)) by set_solver.
      rewrite (decide_False (P := p ∈ ps)) by done. lia.
    + destruct (decide (p ∈ ps)).
      * rewrite (decide_True (P := p ∈ q :: ps)) by set_solver. lia.
      * rewrite (decide_False (P := p ∈ q :: ps)) by set_solver. lia.
  - destruct (decide (q = p)) as [->|Hne].
    + rewrite (decide_True (P := p ∈ p :: ps)) by set_solver.
      rewrite (decide_False (P := p ∈ ps)) by done. lia.
    + destruct (decide (p ∈ ps)).
      * rewrite (decide_True (P := p ∈ q :: ps)) by set_solver. lia.
      * rewrite (decide_False (P := p ∈ q :: ps)) by set_solver. lia.
Qed.

(** X11.  Once a first trigger has arrived, whatever follows: the prompt
    interface has been closed once, every tracked child with a process
    id has been signalled once (and, off Windows, has one forced kill
    scheduled; on Windows one [taskkill] is started for its pid), a child
    without a process id has been left alone, and the timer that ends
    the process has been armed once, as the last effect. *)
Theorem shutdown_reaches_every_child (os : platform) (processes : list Child.t)
    (t : trigger) (ts : list trigger) :
  NoDup processes ->
  let final := deliverAll os processes (t :: ts) attachGracefulShutdown in
  count isRlClose (effects final) = 1%nat /\
  count isExitTimer (effects final) = 1%nat /\
  last (effects final) = Some (SetTimeout (ExitProcess 0) 200) /\
  (forall p, p ∈ processes -> hasPid p = true ->
     count (isKillOf p) (effects final) = 1%nat /\
     count (isForceKillOf p) (effects final)
     = match os with posix => 1%nat | win32 => 0%nat end /\
     (os = win32 ->
      exists pid, Child.pid p = Some pid /\ Taskkill pid ∈ effects final)) /\
  (forall p, hasPid p = false ->
     count (isKillOf p) (effects final) = 0%nat /\
     count (isForceKillOf p) (effects final) = 0%nat).
Proof.
  intros Hnd final.
  assert (Hfinal : effects final
                   = effects (deliver os processes t attachGracefulShutdown)).
  { unfold final, deliverAll. cbn [foldl].
    apply (deliverAll_shutting_down os processes ts), first_trigger_sets_flag. }
  destruct (first_trigger_effects os processes t)
    as (announcement & _ & Hlogs & Heff).
  rewrite Heff in Hfinal. clear Heff. rewrite Hfinal.
  assert (Hann : forall f, (forall text, f (ConsoleLog text) = false) ->
                           count f announcement = 0%nat).
  { intros f Hf. apply count_none.
    eapply Forall_impl; [exact Hlogs|].
    intros [] He; try discriminate He. apply Hf. }
  split; [|split; [|split; [|split]]].
  - rewrite !count_app, (Hann isRlClose) by done.
    destruct (kills_counts os child0 processes Hnd) as (_ & _ & -> & _). done.
  - rewrite !count_app, (Hann isExitTimer) by done.
    destruct (kills_counts os child0 processes Hnd) as (_ & _ & _ & ->). done.
  - rewrite !app_assoc. apply last_snoc.
  - intros p Hin Hpid.
    destruct (kills_counts os p processes Hnd) as (Hk & Hf & _).
    rewrite decide_True, Hpid in Hk, Hf by done.
    split; [|split].
    + rewrite !count_app, (Hann (isKillOf p)), Hk by done. done.
    + rewrite !count_app, (Hann (isForceKillOf p)), Hf by done.
      destruct os; done.
    + intros ->. unfold hasPid in Hpid.
      destruct (Child.pid p) as [pid|] eqn:Hp; [|discriminate Hpid].
      exists pid. split; [done|].
      rewrite !elem_of_app. right. right. left.
      apply list_elem_of_In, in_flat_map. exists p.
      split; [by apply list_elem_of_In|].
      unfold killPortForwardProcess. rewrite Hp.
      apply negb_true_iff in Hpid. rewrite Hpid. right. by left.
  - intros p Hpid.
    destruct (kills_counts os p processes Hnd) as (Hk & Hf & _).
    rewrite Hpid in Hk, Hf.
    assert (Hk0 : count (isKillOf p)
                    (flat_map (killPortForwardProcess os) processes) = 0%nat)
      by (rewrite Hk; by destruct (decide _)).
    assert (Hf0 : count (isForceKillOf p)
                    (flat_map (killPortForwardProcess os) processes) = 0%nat)
      by (rewrite Hf; by destruct (decide _)).
    split.
    + rewrite !count_app, (Hann (isKillOf p)), Hk0 by done. done.
    + rewrite !count_app, (Hann (isForceKillOf p)), Hf0 by done. done.
Qed.

Lemma shutdown_reaches_every_child_witness :
  NoDup [child0; child1] /\
  count (isKillOf child0)
    (effects (deliverAll posix [child0; child1] [SIGTERM; SIGINT]
                         attachGracefulShutdown)) = 1%nat /\
  count (isKillOf child1)
    (effects (deliverAll posix [child0; child1] [SIGTERM; SIGINT]
                         attachGracefulShutdown)) = 0%nat.
Proof.
  assert (Hnd : NoDup [child0; child1]).
  { apply NoDup_cons. split; [|apply NoDup_singleton].
    intros Hin%list_elem_of_singleton. discriminate Hin. }
  split; [exact Hnd|].
  destruct (shutdown_reaches_every_child posix [child0; child1] SIGTERM [SIGINT]
              Hnd) as (_ & _ & _ & Hlive & Hdead).
  split.
  - apply (Hlive child0); [by left|reflexivity].
  - apply (Hdead child1). reflexivity.
Defined.

(** ** The command line *)

(** X12.  [getArgValue(flag)] returns the argument that follows the first
    occurrence of the flag that is followed by a non-empty argument, and
    [null] when there is none: a flag in the last place, or followed by
    an empty argument, is passed over.  The first two elements of
    [process.argv] are not looked at. *)
Theorem getArgValue_first_value (argv : list string) (flag : string) :
  match getArgValue argv flag with
  | Some value =>
      value <> EmptyString /\
      exists pre post,
        drop 2 argv = pre ++ flag :: value :: post /\
        forall pre' value' post',
          drop 2 argv = pre' ++ flag :: value' :: post' ->
          (length pre' < length pre)%nat -> value' = EmptyString
  | None =>
      forall pre value post,
        drop 2 argv = pre ++ flag :: value :: post -> value = EmptyString
  end.
Proof.
  unfold getArgValue. generalize (drop 2 argv) as args. intros args.
  induction args as [|arg rest IH]; cbn [argLoop].
  - intros pre value post Heq. by destruct pre.
  - destruct (String.eqb arg flag
              && match rest with
                 | value :: _ => negb (JS.isEmpty value)
                 | [] => false
                 end) eqn:Htest.
    + apply andb_true_iff in Htest as [Harg Hvalue].
      apply String.eqb_eq in Harg. subst arg.
      destruct rest as [|value post]; [discriminate Hvalue|].
      cbn [head]. split.
      * intros ->. discriminate Hvalue.
      * exists [], post. split; [done|].
        intros pre' value' post' _ Hlen. simpl in Hlen. lia.
    + assert (Hhere : forall value' post',
                arg :: rest = flag :: value' :: post' -> value' = EmptyString).
      { intros value' post' Heq. injection Heq as -> ->.
        rewrite String.eqb_refl in Htest. cbn [andb] in Htest.
        apply negb_false_iff in Htest. by destruct value'. }
      destruct (argLoop flag rest) as [value|].
      * destruct IH as (Hne & pre & post & -> & Hfirst).
        split; [exact Hne|]. exists (arg :: pre), post. split; [done|].
        intros pre' value' post' Heq Hlen.
        destruct pre' as [|a pre']; [by eapply Hhere|].
        injection Heq as _ Heq. eapply Hfirst; [exact Heq|].
        simpl in Hlen. lia.
      * intros pre value post Heq.
        destruct pre as [|a pre]; [by eapply Hhere|].
        injection Heq as _ Heq. by eapply IH.
Qed.

(** ** Logs windows *)

Lemma escape_cons ch r :
  escape (String ch r)
  = (if Ascii.eqb ch "092" then String "092" (String "092" EmptyString)
     else if Ascii.eqb ch "034" then String "092" (String "034" EmptyString)
     else String ch EmptyString) +:+ escape r.
Proof. destruct ch as [[] [] [] [] [] [] [] []]; reflexivity. Qed.

(** X13.  The escaping of lines 292-293 protects every double quote and every
    backslash: read back between double quotes, the escaped text gives
    the original text, and no double quote inside it ends the quoted
    text early. *)
Theorem escape_read_back (s : string) :
  readQuoted false (escape s) = Some s.
Proof.
  induction s as [|ch r IH]; [reflexivity|].
  rewrite escape_cons.
  destruct (Ascii.eqb ch "092") eqn:E1.
  { apply Ascii.eqb_eq in E1. subst ch.
    change (readQuoted false (String "092" (String "092" (escape r)))
            = Some (String "092" r)).
    cbn [readQuoted Ascii.eqb Bool.eqb]. by rewrite IH. }
  destruct (Ascii.eqb ch "034") eqn:E2.
  { apply Ascii.eqb_eq in E2. subst ch.
    change (readQuoted false (String "092" (String "034" (escape r)))
            = Some (String "034" r)).
    cbn [readQuoted Ascii.eqb Bool.eqb]. by rewrite IH. }
  change (readQuoted false (String ch (escape r)) = Some (String ch r)).
  cbn [readQuoted]. by rewrite E1, E2, IH.
Qed.

Lemma logsCommand_words cfg :
  logsCommand cfg
  = JS.join " " [ "kubectl"; "logs"; "--namespace";
                  show (Config.serviceNamespace cfg); podName cfg; "-f" ].
Proof.
  reflexivity.
Qed.

Lemma osascriptListeners_inline logsCommand stderrData evs a :
  a ∈ osascriptListeners logsCommand stderrData evs ->
  isInlineLogs a = true -> a = inlineLogs logsCommand.
Proof.
  revert stderrData. induction evs as [|ev evs IH]; intros stderrData Hin Hk.
  - by apply elem_of_nil in Hin.
  - destruct ev as [data|code|message]; cbn [osascriptListeners] in Hin.
    + by eapply IH.
    + apply elem_of_app in Hin as [Hin|Hin]; [|by eapply IH].
      destruct code as [[| |]|];
        try (by apply elem_of_nil in Hin);
        repeat (apply elem_of_app in Hin as [Hin|Hin]);
        try (apply list_elem_of_singleton in Hin; subst a; done);
        destruct (JS.isEmpty stderrData);
        try (by apply elem_of_nil in Hin);
        apply list_elem_of_singleton in Hin; subst a; done.
    + apply elem_of_app in Hin as [Hin|Hin]; [|by eapply IH].
      apply elem_of_cons in Hin as [->|Hin]; [done|].
      apply list_elem_of_singleton in Hin. by subst a.
Qed.

Lemma osascriptListeners_count logsCommand stderrData evs :
  count isInlineLogs (osascriptListeners logsCommand stderrData evs)
  = count osascriptFailure evs.
Proof.
  revert stderrData. induction evs as [|ev evs IH]; intros stderrData; [done|].
  destruct ev as [data|code|message]; cbn [osascriptListeners].
  - rewrite IH. reflexivity.
  - rewrite count_app, IH.
    destruct code as [[| |]|]; try reflexivity;
      destruct (JS.isEmpty stderrData); reflexivity.
  - rewrite count_app, IH. reflexivity.
Qed.

Lemma osascriptListeners_quiet logsCommand stderrData evs :
  Forall (fun ev => match ev with
                    | OsaStderr _ => True
                    | OsaClose code => code = Some 0
                    | OsaError _ => False
                    end) evs ->
  osascriptListeners logsCommand stderrData evs = [].
Proof.
  revert stderrData. induction evs as [|ev evs IH]; intros stderrData Hall.
  - done.
  - apply Forall_cons in Hall as [Hev Hall].
    destruct ev as [data|code|message]; cbn [osascriptListeners].
    + by apply IH.
    + subst code. cbn. by apply IH.
    + done.
Qed.

(** X14.  The logs followed in the current process.  Every [kubectl] that
    [openLogsInTerminal] spawns is given the words of the logs command
    after the first; for the command [main] builds these are
    [logs --namespace <namespace> <pod> -f] as long as neither the
    namespace nor the pod name holds a space.  Off macOS at most one is
    spawned; on macOS one is spawned for every failure the listeners
    see (an error, or a close with a code other than 0), so two
    when an error is followed by a failing close; and none is on any
    platform when nothing fails. *)
Theorem inline_logs_fallback (platform : string) (tw : terminalWorld)
    (cfg : Config.t) :
  let actions :=
    openLogsInTerminal platform tw (logsCommand cfg) (sessionLabel cfg) in
  (forall a, a ∈ actions -> isInlineLogs a = true ->
     a = Spawn "kubectl" (tl (JS.split " " (logsCommand cfg))) /\
     (occurs " " (show (Config.serviceNamespace cfg)) = false ->
      occurs " " (podName cfg) = false ->
      a = Spawn "kubectl"
            [ "logs"; "--namespace"; show (Config.serviceNamespace cfg);
              podName cfg; "-f" ])) /\
  (platform <> "darwin" -> (count isInlineLogs actions <= 1)%nat) /\
  (platform = "darwin" ->
   count isInlineLogs actions = count osascriptFailure (osascriptEvents tw)) /\
  (noFailure tw -> count isInlineLogs actions = 0%nat).
Proof.
  intros actions.
  assert (Hwords : occurs " " (show (Config.serviceNamespace cfg)) = false ->
                   occurs " " (podName cfg) = false ->
                   tl (JS.split " " (logsCommand cfg))
                   = [ "logs"; "--namespace"; show (Config.serviceNamespace cfg);
                       podName cfg; "-f" ]).
  { intros Hns Hpod. rewrite logsCommand_words, split_join; [done|done|].
    repeat (constructor; [done|]). constructor. }
  assert (Hinline : forall a, a ∈ actions -> isInlineLogs a = true ->
                              a = inlineLogs (logsCommand cfg)).
  { intros a Hin Hk. unfold actions, openLogsInTerminal in Hin.
    destruct (String.eqb platform "win32").
    { apply elem_of_cons in Hin as [->|Hin]; [done|].
      destruct (execErrors tw) as [|[message|] rest];
        try (by apply elem_of_nil in Hin).
      apply elem_of_cons in Hin as [->|Hin]; [done|].
      apply list_elem_of_singleton in Hin. by subst a. }
    destruct (String.eqb platform "darwin").
    { apply elem_of_cons in Hin as [->|Hin]; [done|].
      by eapply osascriptListeners_inline. }
    apply elem_of_cons in Hin as [->|Hin]; [done|].
    destruct (execErrors tw) as [|[m1|] rest1];
      try (by apply elem_of_nil in Hin).
    apply elem_of_cons in Hin as [->|Hin]; [done|].
    destruct rest1 as [|[m2|] rest2]; try (by apply elem_of_nil in Hin).
    apply elem_of_cons in Hin as [->|Hin]; [done|].
    destruct rest2 as [|[m3|] rest3]; try (by apply elem_of_nil in Hin).
    apply elem_of_cons in Hin as [->|Hin]; [done|].
    apply list_elem_of_singleton in Hin. by subst a. }
  split; [|split; [|split]].
  - intros a Hin Hk. rewrite (Hinline a Hin Hk). split; [done|].
    intros Hns Hpod. unfold inlineLogs. by rewrite Hwords.
  - intros Hplatform. unfold actions, openLogsInTerminal.
    destruct (String.eqb platform "win32").
    { destruct (execErrors tw) as [|[message|] rest]; unfold count; simpl; lia. }
    destruct (String.eqb platform "darwin") eqn:E.
    { apply String.eqb_eq in E. by destruct Hplatform. }
    destruct (execErrors tw) as [|[m1|] [|[m2|] [|[m3|] rest3]]];
      unfold count; simpl; lia.
  - intros ->. unfold actions, openLogsInTerminal.
    change (String.eqb "darwin" "win32") with false.
    change (String.eqb "darwin" "darwin") with true. cbv iota.
    change (count isInlineLogs (?x :: ?l)) with (count isInlineLogs l).
    apply osascriptListeners_count.
  - intros [Hexec Hosa]. unfold actions, openLogsInTerminal.
    destruct (String.eqb platform "win32").
    { destruct (execErrors tw) as [|[message|] rest]; [done| |done].
      apply Forall_cons in Hexec as [Hexec _]. discriminate Hexec. }
    destruct (String.eqb platform "darwin").
    { by rewrite osascriptListeners_quiet. }
    destruct (execErrors tw) as [|[m1|] rest1]; [done| |done].
    apply Forall_cons in Hexec as [Hexec _]. discriminate Hexec.
Qed.

(** ** The run of [main] *)

Lemma extends_refl w : extends w w.
Proof.
  split; [exists []|exists []]; [|done].
  by rewrite app_nil_r.
Qed.

Lemma extends_trans w1 w2 w3 : extends w1 w2 -> extends w2 w3 -> extends w1 w3.
Proof.
  intros [(a1 & Ht1 & Ho1) (u1 & Hc1)] [(a2 & Ht2 & Ho2) (u2 & Hc2)].
  split.
  - exists (a1 ++ a2). split; [by rewrite Ht2, Ht1, app_assoc|].
    by apply Forall_app.
  - exists (u1 ++ u2). by rewrite Hc1, Hc2, app_assoc.
Qed.

Lemma quiet_ret {A} (a : A) : quiet (mret a).
Proof. intros w. split; [apply extends_refl|done]. Qed.

Lemma quiet_bind {A B} (m : M A) (k : A -> M B) :
  quiet m -> (forall a, quiet (k a)) -> quiet (m ≫= k).
Proof.
  intros Hm Hk w. rewrite bind_run. specialize (Hm w).
  destruct (m w) as [a w1|e w1|w1]; [|done|done].
  destruct Hm as [Hext Hspin]. specialize (Hk a w1).
  destruct (k a w1) as [b w2|e w2|w2].
  - destruct Hk as [Hext2 Hspin2]. split; [by eapply extends_trans|auto].
  - by eapply extends_trans.
  - by eapply extends_trans.
Qed.

Lemma quiet_emit e : ordinary e -> quiet (emit e).
Proof.
  intros He w. split; [|done]. split; [|by exists []].
  exists [e]. split; [done|]. by constructor.
Qed.

Lemma quiet_emitAll es : Forall ordinary es -> quiet (emitAll es).
Proof.
  induction 1 as [|e es He _ IH]; [apply quiet_ret|].
  cbn [emitAll]. apply quiet_bind; [by apply quiet_emit|done].
Qed.

Lemma quiet_prompt question : quiet (prompt question).
Proof.
  intros w. unfold prompt.
  assert (Hext : forall rest,
            extends w (mkWorld rest (commands w) (spinnerRunning w)
                               (spinnerMessage w)
                               (trace w ++ [Question question]))).
  { intros rest. split; [|by exists []].
    exists [Question question]. split; [done|]. by constructor. }
  destruct (answers w) as [|a rest]; [apply Hext|].
  split; [apply Hext|done].
Qed.

Lemma quiet_execPromise cmd : quiet (execPromise cmd).
Proof.
  intros w. unfold execPromise.
  destruct (commands w) as [|o rest] eqn:Hc; [apply extends_refl|].
  assert (Hext : extends w (mkWorld (answers w) rest (spinnerRunning w)
                                    (spinnerMessage w) (trace w))).
  { split; [exists []; by rewrite app_nil_r|].
    exists [o]. by rewrite Hc. }
  destruct (settle o); [split; [exact Hext|done]|exact Hext].
Qed.

Lemma ordinary_listItems index items : Forall ordinary (listItems index items).
Proof.
  revert index. induction items as [|item items IH]; intros index.
  - constructor.
  - cbn [listItems]. constructor; [reflexivity|apply IH].
Qed.

Lemma quiet_traces {A} (m : M A) : quiet m -> traces m.
Proof.
  intros Hm w. specialize (Hm w). destruct (m w); [by destruct Hm|done|done].
Qed.

Lemma quiet_intro {A} (m : M A) :
  traces m ->
  (forall w a w', m w = Done a w' ->
     spinnerRunning w = false -> spinnerRunning w' = false) ->
  quiet m.
Proof.
  intros Hm Hspin w. specialize (Hm w).
  destruct (m w) as [a w'|e w'|w'] eqn:E; [|done|done].
  split; [done|]. by apply (Hspin w a w').
Qed.

Lemma traces_bind {A B} (m : M A) (k : A -> M B) :
  traces m -> (forall a, traces (k a)) -> traces (m ≫= k).
Proof.
  intros Hm Hk w. rewrite bind_run. specialize (Hm w).
  destruct (m w) as [a w1|e w1|w1]; [|done|done].
  specialize (Hk a w1).
  destruct (k a w1) as [b w2|e w2|w2]; by eapply extends_trans.
Qed.

Lemma traces_tryCatch {A} (body : M A) (handler : string -> M A) :
  traces body -> (forall e, traces (handler e)) ->
  traces (tryCatch body handler).
Proof.
  intros Hbody Hhandler w. unfold tryCatch. specialize (Hbody w).
  destruct (body w) as [a w1|e w1|w1]; [done| |done].
  specialize (Hhandler e w1).
  destruct (handler e w1); by eapply extends_trans.
Qed.

Lemma traces_start message : traces (spinner.start message).
Proof.
  intros w. unfold spinner.start.
  destruct (spinnerRunning w); [apply extends_refl|].
  split; [|by exists []].
  eexists. split; [reflexivity|]. by constructor.
Qed.

Lemma traces_stop : traces spinner.stop.
Proof.
  intros w. unfold spinner.stop.
  destruct (spinnerRunning w); [|apply extends_refl].
  split; [|by exists []].
  eexists. split; [reflexivity|]. by constructor.
Qed.

Lemma stop_stopped w w' : spinner.stop w = Done tt w' -> spinnerRunning w' = false.
Proof.
  unfold spinner.stop. destruct (spinnerRunning w) eqn:E; intros Hrun.
  - by injection Hrun as <-.
  - injection Hrun as <-. exact E.
Qed.

Lemma emit_spinner e w w' :
  emit e w = Done tt w' -> spinnerRunning w' = spinnerRunning w.
Proof. intros Hrun. by injection Hrun as <-. Qed.

Lemma quiet_getNamespaces : quiet getNamespaces.
Proof.
  apply quiet_intro.
  - unfold getNamespaces.
    apply traces_bind; [by apply quiet_traces, quiet_emit|intros _].
    apply traces_bind; [apply traces_start|intros _].
    apply traces_bind; [apply quiet_traces, quiet_execPromise|intros nsOutput].
    apply traces_bind; [apply traces_stop|intros _].
    apply quiet_traces, quiet_ret.
  - intros w namespaces w' Hrun _. unfold getNamespaces in Hrun.
    apply bind_Done in Hrun as ([] & w1 & _ & Hrun).
    apply bind_Done in Hrun as ([] & w2 & _ & Hrun).
    apply bind_Done in Hrun as (nsOutput & w3 & _ & Hrun).
    apply bind_Done in Hrun as ([] & w4 & Hstop & Hrun).
    injection Hrun as _ <-. by eapply stop_stopped.
Qed.

Lemma quiet_getPods namespace : quiet (getPods namespace).
Proof.
  apply quiet_intro.
  - unfold getPods.
    apply traces_bind; [by apply quiet_traces, quiet_emit|intros _].
    apply traces_bind; [apply traces_start|intros _].
    apply traces_bind; [apply quiet_traces, quiet_execPromise|intros podsData].
    apply traces_bind; [apply traces_stop|intros _].
    apply quiet_traces, quiet_ret.
  - intros w podsData w' Hrun _. unfold getPods in Hrun.
    apply bind_Done in Hrun as ([] & w1 & _ & Hrun).
    apply bind_Done in Hrun as ([] & w2 & _ & Hrun).
    apply bind_Done in Hrun as (out & w3 & _ & Hrun).
    apply bind_Done in Hrun as ([] & w4 & Hstop & Hrun).
    injection Hrun as _ <-. by eapply stop_stopped.
Qed.

Lemma tryCatch_Done {A} (body : M A) (handler : string -> M A) w a w' :
  tryCatch body handler w = Done a w' ->
  body w = Done a w' \/
  exists e w1, body w = Threw e w1 /\ handler e w1 = Done a w'.
Proof.
  unfold tryCatch. destruct (body w) as [b w1|e w1|w1]; intros Hrun.
  - by left.
  - right. by exists e, w1.
  - discriminate Hrun.
Qed.

Lemma quiet_getServicePort serviceNamespace serviceName :
  quiet (getServicePort serviceNamespace serviceName).
Proof.
  apply quiet_intro.
  - unfold getServicePort.
    apply traces_bind; [by apply quiet_traces, quiet_emit|intros _].
    apply traces_bind; [apply traces_start|intros _].
    apply traces_tryCatch.
    + apply traces_bind; [apply quiet_traces, quiet_execPromise|intros out].
      apply traces_bind; [apply traces_stop|intros _].
      apply traces_bind; [by apply quiet_traces, quiet_emit|intros _].
      apply quiet_traces, quiet_ret.
    + intros e.
      apply traces_bind; [apply traces_stop|intros _].
      apply traces_bind; [by apply quiet_traces, quiet_emit|intros _].
      apply quiet_traces, quiet_ret.
  - intros w port w' Hrun _. unfold getServicePort in Hrun.
    apply bind_Done in Hrun as ([] & w1 & _ & Hrun).
    apply bind_Done in Hrun as ([] & w2 & _ & Hrun).
    apply tryCatch_Done in Hrun as [Hrun|(e & w3 & _ & Hrun)].
    + apply bind_Done in Hrun as (out & w3 & _ & Hrun).
      apply bind_Done in Hrun as ([] & w4 & Hstop & Hrun).
      apply bind_Done in Hrun as ([] & w5 & Hemit & Hrun).
      injection Hrun as _ <-.
      rewrite (emit_spinner _ _ _ Hemit). by eapply stop_stopped.
    + apply bind_Done in Hrun as ([] & w4 & Hstop & Hrun).
      apply bind_Done in Hrun as ([] & w5 & Hemit & Hrun).
      injection Hrun as _ <-.
      rewrite (emit_spinner _ _ _ Hemit). by eapply stop_stopped.
Qed.

Lemma localPortLoop_trace question suggested reserved lines tr :
  exists added,
    (localPortLoop question suggested reserved lines tr).2 = tr ++ added /\
    Forall ordinary added.
Proof.
  revert tr. induction lines as [|line rest IH]; intros tr; cbn [localPortLoop].
  - eexists. split; [reflexivity|]. by constructor.
  - destruct (negb (isValidPort _)).
    { destruct (IH (tr ++ [Question question;
                print c.red "Invalid port. Enter a number between 1 and 65535."]))
        as (added & -> & Hadded).
      eexists. split; [by rewrite <- app_assoc|].
      apply Forall_app. split; [|exact Hadded].
      constructor; [done|]. constructor; [reflexivity|constructor]. }
    destruct (decide (_ ∈ reserved)).
    { match goal with
      | |- context [localPortLoop _ _ _ rest (tr ++ ?es)] =>
          destruct (IH (tr ++ es)) as (added & -> & Hadded);
          exists (es ++ added)
      end.
      split; [by rewrite <- app_assoc|].
      apply Forall_app. split; [|exact Hadded].
      constructor; [done|]. constructor; [reflexivity|constructor]. }
    eexists. split; [reflexivity|]. by constructor.
Qed.

Lemma quiet_askLocalPort question suggested reserved :
  quiet (askLocalPort question suggested reserved).
Proof.
  intros w. unfold askLocalPort.
  destruct (localPortLoop_trace question suggested reserved (answers w) (trace w))
    as (added & Htr & Hadded).
  destruct (localPortLoop question suggested reserved (answers w) (trace w))
    as [[[port|] rest] tr]; cbn [snd] in Htr; subst tr.
  - split; [|done]. split; [by exists added|by exists []].
  - split; [by exists added|by exists []].
Qed.

Lemma selectEnvironment_Some envAnswer availableEnvs environment :
  selectEnvironment envAnswer availableEnvs = Some environment ->
  exists env, environment = Some env /\ env ∈ availableEnvs.
Proof.
  unfold selectEnvironment. cbv zeta.
  set (envChoice := match JS.parseInt envAnswer 10 with
                    | Some n => if n =? 0 then 1 else n
                    | None => 1
                    end).
  destruct ((envChoice <? 1) || (Z.of_nat (length availableEnvs) <? envChoice))
    eqn:Hrange; [done|].
  intros [= <-]. apply orb_false_iff in Hrange as [H1 H2].
  apply Z.ltb_ge in H1. apply Z.ltb_ge in H2.
  destruct (at_in_range availableEnvs envChoice ltac:(lia)) as [env Henv].
  exists env. split; [exact Henv|].
  unfold JS.at_ in Henv. destruct (_ <? 0); [done|].
  by eapply list_elem_of_lookup_2.
Qed.

Lemma assocGet_key {V} k (m : list (string * V)) :
  k ∈ m.*1 -> is_Some (assocGet k m).
Proof.
  intros Hin. destruct (assocGet k m) eqn:E; [done|].
  by apply assocGet_None_keys in E.
Qed.

Lemma quiet_chooseEnvironment catalog selectedService :
  wellFormed catalog -> selectedService ∈ catalog.*1 ->
  quiet (chooseEnvironment catalog selectedService).
Proof.
  intros [_ Hshape] Hkey. unfold chooseEnvironment.
  destruct (assocGet_key _ _ Hkey) as [envs Hget]. rewrite Hget.
  change (default [] (Some envs)) with envs.
  pose proof (assocGet_Some_elem _ _ _ Hget) as Hin.
  rewrite Forall_forall in Hshape. destruct (Hshape _ Hin) as (Hne & _ & _).
  cbn [snd] in Hne.
  apply quiet_bind; [by apply quiet_emit|intros _].
  destruct envs as [|entry envs]; [done|]. cbn [map length Nat.eqb].
  apply quiet_bind; [by apply quiet_emit|intros _].
  apply quiet_bind; [apply quiet_emitAll, ordinary_listItems|intros _].
  apply quiet_bind; [apply quiet_prompt|intros envAnswer].
  destruct (selectEnvironment envAnswer _) as [environment|] eqn:Hsel.
  - apply selectEnvironment_Some in Hsel as (env & -> & Henv).
    assert (Hkey' : env ∈ (entry :: envs).*1) by exact Henv.
    destruct (assocGet_key _ _ Hkey') as [d Hd].
    change (Some env ≫= (fun env0 => assocGet env0 (entry :: envs)))
      with (assocGet env (entry :: envs)).
    rewrite Hd. apply quiet_ret.
  - apply quiet_bind; [by apply quiet_emit|intros _]. apply quiet_ret.
Qed.

Lemma quiet_completeConfig selectedService environment envLabel serviceId
    serviceName serviceNamespace localPort :
  quiet (completeConfig selectedService environment envLabel serviceId
           serviceName serviceNamespace localPort).
Proof.
  unfold completeConfig.
  apply quiet_bind; [apply quiet_getServicePort|intros detected].
  apply quiet_bind; [apply quiet_prompt|intros answer].
  apply quiet_bind.
  { destruct (negb (isValidPort _)); [by apply quiet_emit|apply quiet_ret]. }
  intros _. apply quiet_bind; [apply quiet_prompt|intros logs].
  apply quiet_ret.
Qed.

Lemma quiet_configureService catalog namespace reserved selectedService :
  wellFormed catalog -> selectedService ∈ catalog.*1 ->
  quiet (configureService catalog namespace reserved selectedService).
Proof.
  intros Hwf Hkey. unfold configureService.
  apply quiet_bind; [by apply quiet_chooseEnvironment|intros chosen].
  destruct chosen as [[environment details]|]; [|apply quiet_ret].
  apply quiet_bind; [apply quiet_askLocalPort|intros localPort].
  apply quiet_bind; [apply quiet_completeConfig|intros cfg].
  apply quiet_ret.
Qed.

Lemma quiet_configureAll catalog namespace selectedServices acc reserved :
  wellFormed catalog ->
  Forall (fun s => s ∈ catalog.*1) selectedServices ->
  quiet (configureAll catalog namespace selectedServices acc reserved).
Proof.
  intros Hwf Hkeys. revert acc reserved.
  induction Hkeys as [|s rest Hs _ IH]; intros acc reserved; cbn [configureAll].
  - apply quiet_ret.
  - apply quiet_bind; [by apply quiet_configureService|intros [[cfg|] reserved']];
      apply IH.
Qed.

Lemma quiet_openLogs configs : quiet (openLogs configs).
Proof.
  induction configs as [|cfg rest IH]; cbn [openLogs]; [apply quiet_ret|].
  destruct (Config.showLogs cfg); [|exact IH].
  apply quiet_bind; [by apply quiet_emit|intros _].
  apply quiet_bind; [by apply quiet_emit|intros _].
  apply quiet_bind; [exact IH|intros launches]. apply quiet_ret.
Qed.

Lemma quiet_startForwards configs : quiet (startForwards configs).
Proof.
  induction configs as [|cfg rest IH]; cbn [startForwards]; [apply quiet_ret|].
  apply quiet_bind; [by apply quiet_emit|intros _].
  apply quiet_bind; [exact IH|intros launches]. apply quiet_ret.
Qed.

Lemma closing_bind {A B} (Q : A -> Prop) (m : M A) (k : A -> M B) :
  quiet m ->
  (forall w a w', m w = Done a w' -> Q a) ->
  (forall a, Q a -> closing (k a)) ->
  closing (m ≫= k).
Proof.
  intros Hm HQ Hk w. rewrite bind_run. specialize (Hm w). specialize (HQ w).
  destruct (m w) as [a w1|e w1|w1]; [|done|done].
  destruct Hm as [Hext Hspin]. specialize (Hk a (HQ a w1 eq_refl) w1).
  destruct (k a w1) as [b w2|e w2|w2].
  - destruct Hk as [(added & Htr & Hadded) Hspin2]. split; [|auto].
    destruct Hext as [(added1 & Htr1 & Hadded1) _].
    exists (added1 ++ added). split; [by rewrite Htr, Htr1, <- !app_assoc|].
    by apply Forall_app.
  - by eapply extends_trans.
  - by eapply extends_trans.
Qed.

Lemma closing_seq {A B} (m : M A) (k : A -> M B) :
  quiet m -> (forall a, closing (k a)) -> closing (m ≫= k).
Proof.
  intros Hm Hk. apply (closing_bind (fun _ => True)); auto.
Qed.

Lemma closing_closeAndReturn : closing closeAndReturn.
Proof.
  intros w. split; [|done]. exists []. split; [done|constructor].
Qed.

Lemma splitSpaces_go_nonempty inRun s : JS.splitSpaces_go inRun s <> [].
Proof.
  revert inRun. induction s as [|ch r IH]; intros inRun; cbn [JS.splitSpaces_go].
  - done.
  - destruct (JS.isWhiteSpace ch).
    + destruct inRun; [apply IH|done].
    + by destruct (JS.splitSpaces_go false r).
Qed.

Lemma getNamespaces_nonempty w namespaces w' :
  getNamespaces w = Done namespaces w' -> namespaces <> [].
Proof.
  unfold getNamespaces. intros Hrun.
  apply bind_Done in Hrun as ([] & w1 & _ & Hrun).
  apply bind_Done in Hrun as ([] & w2 & _ & Hrun).
  apply bind_Done in Hrun as (nsOutput & w3 & _ & Hrun).
  apply bind_Done in Hrun as ([] & w4 & _ & Hrun).
  injection Hrun as <- _. apply splitSpaces_go_nonempty.
Qed.

Lemma omap_id_Some {A} (items : list A) : omap id (Some <$> items) = items.
Proof. induction items as [|x items IH]; [done|]. cbn. by rewrite IH. Qed.

Lemma wellFormed_nil : wellFormed [].
Proof. split; constructor. Qed.

Lemma closing_startAll configs : closing (startAll configs).
Proof.
  unfold startAll. destruct (length configs =? 0)%nat.
  - apply closing_seq; [by apply quiet_emit|intros _].
    apply closing_closeAndReturn.
  - apply closing_seq; [apply quiet_openLogs|intros logs].
    apply closing_seq; [by apply quiet_emit|intros _].
    apply closing_seq; [apply quiet_startForwards|intros forwards].
    intros w. split; [|done]. exists []. split; [done|constructor].
Qed.

Lemma emitAll_Done es w : exists w', emitAll es w = Done tt w'.
Proof.
  revert w. induction es as [|e es IH]; intros w; cbn [emitAll].
  - by eexists.
  - rewrite bind_run. cbn. apply IH.
Qed.

Section MainFacts.

Variable title : string.
Variable regexpReplace : string -> string -> option string.

Lemma closing_forwardServices namespace :
  closing (forwardServices regexpReplace namespace).
Proof.
  unfold forwardServices.
  apply closing_seq; [apply quiet_getPods|intros podsData].
  destruct (parseServicesMap regexpReplace podsData namespace)
    as [catalog|e] eqn:Hparse; [|intros w; apply extends_refl].
  assert (Hwf : wellFormed catalog).
  { eapply parseRows_wellFormed; [apply wellFormed_nil|exact Hparse]. }
  destruct (length (sortedKeys catalog) =? 0)%nat.
  { apply closing_seq; [by apply quiet_emit|intros _].
    apply closing_closeAndReturn. }
  apply closing_seq; [by apply quiet_emit|intros _].
  apply closing_seq; [apply quiet_emitAll, ordinary_listItems|intros _].
  apply closing_seq; [apply quiet_prompt|intros serviceAnswer].
  destruct (selectServices serviceAnswer (sortedKeys catalog))
    as [selected|] eqn:Hsel.
  - apply selectServices_items in Hsel as (items & -> & _ & Hsub).
    unfold definedServices. rewrite omap_id_Some.
    apply closing_seq; [by apply quiet_emit|intros _].
    apply closing_seq; [|intros r; apply closing_startAll].
    apply quiet_configureAll; [exact Hwf|].
    apply Forall_forall. intros s Hs.
    apply (sublist_subseteq _ _ Hsub) in Hs.
    unfold sortedKeys in Hs. by rewrite merge_sort_Permutation in Hs.
  - apply closing_seq; [by apply quiet_emit|intros _].
    apply closing_closeAndReturn.
Qed.

Lemma closing_askNamespace : closing (askNamespace regexpReplace).
Proof.
  unfold askNamespace.
  apply (closing_bind (fun namespaces => namespaces <> []));
    [apply quiet_getNamespaces|apply getNamespaces_nonempty|].
  intros [|ns namespaces] Hne; [done|]. cbn [length Nat.eqb].
  apply closing_seq; [by apply quiet_emit|intros _].
  apply closing_seq; [apply quiet_emitAll, ordinary_listItems|intros _].
  apply closing_seq; [apply quiet_prompt|intros nsAnswer].
  destruct (selectNamespace nsAnswer (ns :: namespaces)) as [|namespace].
  - apply closing_seq; [by apply quiet_emit|intros _].
    apply closing_closeAndReturn.
  - apply closing_seq; [by apply quiet_emit|intros _].
    apply closing_forwardServices.
Qed.

Lemma ordinary_banner : Forall ordinary (banner title).
Proof. unfold banner. repeat (constructor; [reflexivity|]). constructor. Qed.

(** [main] ends in no exception; when it completes, [rl.close()] is its
    last effect and everything before it is ordinary. *)
Lemma main_trace argv w :
  match main title regexpReplace argv w with
  | Done _ w' =>
      (exists added, trace w' = trace w ++ added ++ [RlClose] /\
                     Forall ordinary added) /\
      (spinnerRunning w = false -> spinnerRunning w' = false)
  | Threw _ _ => False
  | Pending w' => extends w w'
  end.
Proof.
  unfold main. rewrite bind_run.
  pose proof (quiet_emitAll _ ordinary_banner w) as Hbanner.
  destruct (emitAll_Done (banner title) w) as [w1 Hrun].
  rewrite Hrun in Hbanner |- *.
  destruct Hbanner as [Hext1 Hspin1].
  set (body := if truthy (getArgValue argv "--namespace")
               then forwardServices regexpReplace (getArgValue argv "--namespace")
               else askNamespace regexpReplace).
  assert (Hbody : closing body).
  { unfold body. destruct (truthy _);
      [apply closing_forwardServices|apply closing_askNamespace]. }
  unfold tryCatch. specialize (Hbody w1).
  destruct (body w1) as [launches w2|e w2|w2].
  - destruct Hbody as [(added & Htr & Hadded) Hspin2]. split; [|auto].
    destruct Hext1 as [(added1 & Htr1 & Hadded1) _].
    exists (added1 ++ added). split; [by rewrite Htr, Htr1, <- !app_assoc|].
    by apply Forall_app.
  - destruct Hext1 as [(added1 & Htr1 & Hadded1) _].
    destruct Hbody as [(added2 & Htr2 & Hadded2) _].
    unfold closeAndReturn. run.
    destruct (spinnerRunning w2) eqn:Hs; simpl; rewrite Htr2, Htr1.
    + split; [|done]. eexists (added1 ++ added2 ++ [_; _]).
      split; [by rewrite <- !app_assoc|].
      repeat (apply Forall_app; split); try done.
      by repeat constructor.
    + split; [|done]. eexists (added1 ++ added2 ++ [_]).
      split; [by rewrite <- !app_assoc|].
      repeat (apply Forall_app; split); try done.
      by repeat constructor.
  - by eapply extends_trans.
Qed.

End MainFacts.

Lemma ordinary_not_close e : ordinary e -> isRlClose e = false.
Proof. by destruct e. Qed.

(** X15.  [main] ends in no exception.  When it returns, the spinner is
    stopped and [rl.close()] has been called exactly once, as the last
    effect; while it waits for a line or for a command, the prompt
    interface is still open. *)
Theorem main_closes_readline (title : string)
    (regexpReplace : string -> string -> option string)
    (argv : list string) (w : world) :
  spinnerRunning w = false ->
  match main title regexpReplace argv w with
  | Done _ w' =>
      spinnerRunning w' = false /\
      exists added,
        trace w' = trace w ++ added ++ [RlClose] /\
        count isRlClose added = 0%nat
  | Threw _ _ => False
  | Pending w' =>
      exists added, trace w' = trace w ++ added /\ count isRlClose added = 0%nat
  end.
Proof.
  intros Hspin. pose proof (main_trace title regexpReplace argv w) as Hmain.
  destruct (main title regexpReplace argv w) as [launches w'|e w'|w'].
  - destruct Hmain as [(added & Htr & Hadded) Hstop].
    split; [by apply Hstop|]. exists added. split; [exact Htr|].
    apply count_none. eapply Forall_impl; [exact Hadded|].
    apply ordinary_not_close.
  - exact Hmain.
  - destruct Hmain as [(added & Htr & Hadded) _].
    exists added. split; [exact Htr|].
    apply count_none. eapply Forall_impl; [exact Hadded|].
    apply ordinary_not_close.
Qed.

Example main_session :
  exists w',
    main "Kubernetes Port Forward" noRegexp sessionArgv sessionWorld
    = Done [PortForward ["port-forward"; "--namespace"; "team1";
                         "dev-team1-checkout-7d9f-abc12"; "3000:8080"]] w' /\
    last (trace w') = Some RlClose /\ answers w' = [] /\ commands w' = [].
Proof. eexists. split; [by vm_compute|]. by vm_compute. Qed.

Lemma main_closes_readline_witness :
  spinnerRunning sessionWorld = false /\
  match main "Kubernetes Port Forward" noRegexp sessionArgv sessionWorld with
  | Done _ w' => spinnerRunning w' = false
  | _ => False
  end.
Proof.
  split; [reflexivity|].
  pose proof (main_closes_readline "Kubernetes Port Forward" noRegexp
                sessionArgv sessionWorld eq_refl) as Hmain.
  destruct (main "Kubernetes Port Forward" noRegexp sessionArgv sessionWorld)
    as [launches w'|e w'|w'] eqn:Hrun.
  - by destruct Hmain.
  - exact Hmain.
  - revert Hrun. vm_compute. discriminate.
Defined.

(** X16.  Three messages of the script are never written by [main]: the
    listing of namespaces always has one entry at least (an empty one
    when [kubectl] prints nothing), every service offered has an
    environment, and the environment chosen always exists. *)
Theorem main_dead_messages (title : string)
    (regexpReplace : string -> string -> option string)
    (argv : list string) (w : world) :
  (forall w0 namespaces w1,
     getNamespaces w0 = Done namespaces w1 -> namespaces <> []) /\
  exists added,
    trace (finalWorld (main title regexpReplace argv w)) = trace w ++ added /\
    forall text, ConsoleLog text ∈ added -> isDeadMessage text = false.
Proof.
  split; [apply getNamespaces_nonempty|].
  pose proof (main_trace title regexpReplace argv w) as Hmain.
  assert (Hlogs : forall added, Forall ordinary added ->
            forall text, ConsoleLog text ∈ added -> isDeadMessage text = false).
  { intros added Hadded text Hin. rewrite Forall_forall in Hadded.
    exact (Hadded _ Hin). }
  destruct (main title regexpReplace argv w) as [launches w'|e w'|w'];
    cbn [finalWorld].
  - destruct Hmain as [(added & Htr & Hadded) _].
    exists (added ++ [RlClose]). split; [exact Htr|].
    intros text [Hin|Hin]%elem_of_app; [by eapply Hlogs|].
    apply list_elem_of_singleton in Hin. discriminate Hin.
  - destruct Hmain.
  - destruct Hmain as [(added & Htr & Hadded) _].
    exists added. split; [exact Htr|]. by apply Hlogs.
Qed.

(** *** From the launches back to the listing *)

Lemma bind_Done_quiet {A B} (m : M A) (k : A -> M B) w b w' :
  quiet m ->
  (m ≫= k) w = Done b w' ->
  exists a w1, m w = Done a w1 /\ extends w w1 /\ k a w1 = Done b w'.
Proof.
  intros Hm Hrun. apply bind_Done in Hrun as (a & w1 & Hone & Hrun).
  exists a, w1. split; [exact Hone|]. split; [|exact Hrun].
  specialize (Hm w). rewrite Hone in Hm. by destruct Hm.
Qed.

Lemma closeAndReturn_Done {A} (m : M A) w launches w' :
  (m ≫= fun _ => closeAndReturn) w = Done launches w' -> launches = [].
Proof.
  intros Hrun. apply bind_Done in Hrun as (a & w1 & _ & Hrun).
  by injection Hrun as <- _.
Qed.

Lemma openLogs_Done configs w launches w' :
  openLogs configs w = Done launches w' -> launches = logsLaunches configs.
Proof.
  revert w launches w'.
  induction configs as [|cfg rest IH]; intros w launches w' Hrun.
  - by injection Hrun as <- _.
  - cbn [openLogs] in Hrun. unfold logsLaunches. cbn [List.filter].
    destruct (Config.showLogs cfg).
    + apply bind_Done in Hrun as ([] & w1 & _ & Hrun).
      apply bind_Done in Hrun as ([] & w2 & _ & Hrun).
      apply bind_Done in Hrun as (l & w3 & Hrest & Hrun).
      injection Hrun as <- _. cbn [map]. f_equal. by eapply IH.
    + by eapply IH.
Qed.

Lemma startForwards_Done configs w launches w' :
  startForwards configs w = Done launches w' ->
  launches = forwardLaunches configs.
Proof.
  revert w launches w'.
  induction configs as [|cfg rest IH]; intros w launches w' Hrun.
  - by injection Hrun as <- _.
  - cbn [startForwards] in Hrun.
    apply bind_Done in Hrun as ([] & w1 & _ & Hrun).
    apply bind_Done in Hrun as (l & w2 & Hrest & Hrun).
    injection Hrun as <- _. unfold forwardLaunches. cbn [map]. f_equal.
    by eapply IH.
Qed.

Lemma startAll_Done configs w launches w' :
  startAll configs w = Done launches w' ->
  launches = [] \/
  (configs <> [] /\ launches = logsLaunches configs ++ forwardLaunches configs).
Proof.
  unfold startAll. destruct configs as [|cfg rest]; cbn [length Nat.eqb].
  - intros Hrun. left. by eapply closeAndReturn_Done.
  - intros Hrun. right. split; [done|].
    apply bind_Done in Hrun as (logs & w1 & Hlogs & Hrun).
    apply bind_Done in Hrun as ([] & w2 & _ & Hrun).
    apply bind_Done in Hrun as (forwards & w3 & Hforwards & Hrun).
    apply bind_Done in Hrun as ([] & w4 & _ & Hrun).
    injection Hrun as <- _.
    by rewrite (openLogs_Done _ _ _ _ Hlogs),
               (startForwards_Done _ _ _ _ Hforwards).
Qed.

Lemma emit_same e w w' :
  emit e w = Done tt w' ->
  answers w' = answers w /\ commands w' = commands w.
Proof. intros Hrun. by injection Hrun as <-. Qed.

Lemma emitAll_same es w w' :
  emitAll es w = Done tt w' ->
  answers w' = answers w /\ commands w' = commands w.
Proof.
  revert w. induction es as [|e es IH]; intros w Hrun; cbn [emitAll] in Hrun.
  - by injection Hrun as <-.
  - apply bind_Done in Hrun as ([] & w1 & Hone & Hrun).
    destruct (emit_same _ _ _ Hone) as [<- <-]. by apply IH.
Qed.

Lemma start_same message w w' :
  spinner.start message w = Done tt w' ->
  answers w' = answers w /\ commands w' = commands w.
Proof.
  unfold spinner.start. destruct (spinnerRunning w); by intros [= <-].
Qed.

Lemma stop_same w w' :
  spinner.stop w = Done tt w' ->
  answers w' = answers w /\ commands w' = commands w.
Proof.
  unfold spinner.stop. destruct (spinnerRunning w); by intros [= <-].
Qed.

Lemma execPromise_Done cmd w out w' :
  execPromise cmd w = Done out w' ->
  exists o, commands w = o :: commands w' /\ settle o = Resolved out /\
            answers w' = answers w.
Proof.
  unfold execPromise. destruct (commands w) as [|o rest] eqn:Hc; [done|].
  destruct (settle o) as [out'|message] eqn:Hs; [|done].
  intros [= <- <-]. by exists o.
Qed.

Lemma prompt_Done question w answer w' :
  prompt question w = Done answer w' ->
  exists line, answers w = line :: answers w' /\ answer = JS.trim line /\
               commands w' = commands w.
Proof.
  unfold prompt. destruct (answers w) as [|line rest] eqn:Ha; [done|].
  intros [= <- <-]. by exists line.
Qed.

(** The listing [getPods] returns is the output of the next command. *)
Lemma getPods_Done namespace w podsData w' :
  getPods namespace w = Done podsData w' ->
  exists o, commands w = o :: commands w' /\ settle o = Resolved podsData /\
            answers w' = answers w.
Proof.
  unfold getPods. intros Hrun.
  apply bind_Done in Hrun as ([] & w1 & Hemit & Hrun).
  apply bind_Done in Hrun as ([] & w2 & Hstart & Hrun).
  apply bind_Done in Hrun as (out & w3 & Hexec & Hrun).
  apply bind_Done in Hrun as ([] & w4 & Hstop & Hrun).
  injection Hrun as <- <-.
  destruct (emit_same _ _ _ Hemit) as [Ha1 Hc1].
  destruct (start_same _ _ _ Hstart) as [Ha2 Hc2].
  destruct (execPromise_Done _ _ _ _ Hexec) as (o & Hc3 & Hsettle & Ha3).
  destruct (stop_same _ _ Hstop) as [Ha4 Hc4].
  exists o. split; [congruence|]. split; [exact Hsettle|]. congruence.
Qed.

(** The namespaces [getNamespaces] returns are the words of the output
    of the next command. *)
Lemma getNamespaces_Done w namespaces w' :
  getNamespaces w = Done namespaces w' ->
  exists o nsOutput,
    commands w = o :: commands w' /\ settle o = Resolved nsOutput /\
    namespaces = JS.splitSpaces (JS.trim nsOutput) /\
    answers w' = answers w.
Proof.
  unfold getNamespaces. intros Hrun.
  apply bind_Done in Hrun as ([] & w1 & Hemit & Hrun).
  apply bind_Done in Hrun as ([] & w2 & Hstart & Hrun).
  apply bind_Done in Hrun as (out & w3 & Hexec & Hrun).
  apply bind_Done in Hrun as ([] & w4 & Hstop & Hrun).
  injection Hrun as <- <-.
  destruct (emit_same _ _ _ Hemit) as [Ha1 Hc1].
  destruct (start_same _ _ _ Hstart) as [Ha2 Hc2].
  destruct (execPromise_Done _ _ _ _ Hexec) as (o & Hc3 & Hsettle & Ha3).
  destruct (stop_same _ _ Hstop) as [Ha4 Hc4].
  exists o, out. split; [congruence|]. split; [exact Hsettle|].
  split; [reflexivity|congruence].
Qed.

Section MainLaunches.

Variable title : string.
Variable regexpReplace : string -> string -> option string.

Lemma forwardServices_Done namespace w launches w' :
  forwardServices regexpReplace namespace w = Done launches w' ->
  launches = [] \/
  exists podsData w1 catalog selectedServices w2 configs reserved w3,
    getPods namespace w = Done podsData w1 /\
    parseServicesMap regexpReplace podsData namespace = Ok catalog /\
    configure catalog namespace selectedServices w2
    = Done (configs, reserved) w3 /\
    configs <> [] /\
    launches = logsLaunches configs ++ forwardLaunches configs.
Proof.
  unfold forwardServices. intros Hrun.
  apply bind_Done in Hrun as (podsData & w1 & Hpods & Hrun).
  destruct (parseServicesMap regexpReplace podsData namespace)
    as [catalog|e] eqn:Hparse; [|discriminate Hrun].
  destruct (length (sortedKeys catalog) =? 0)%nat.
  { left. by eapply closeAndReturn_Done. }
  apply bind_Done in Hrun as ([] & w2 & _ & Hrun).
  apply bind_Done in Hrun as ([] & w3 & _ & Hrun).
  apply bind_Done in Hrun as (serviceAnswer & w4 & _ & Hrun).
  destruct (selectServices serviceAnswer (sortedKeys catalog)) as [selected|].
  - apply bind_Done in Hrun as ([] & w5 & _ & Hrun).
    apply bind_Done in Hrun as ([configs reserved] & w6 & Hconf & Hrun).
    apply startAll_Done in Hrun as [->|[Hne ->]]; [by left|right].
    cbn [fst] in *.
    by exists podsData, w1, catalog, (definedServices selected), w5, configs,
              reserved, w6.
  - left. by eapply closeAndReturn_Done.
Qed.

(** The namespace [askNamespace] goes on with is the one the answer to
    its question chooses among the words of the output of its command. *)
Lemma askNamespace_Done w launches w' :
  askNamespace regexpReplace w = Done launches w' ->
  launches = [] \/
  exists namespace w1 o1 nsOutput line,
    commands w = o1 :: commands w1 /\ settle o1 = Resolved nsOutput /\
    answers w = line :: answers w1 /\
    selectNamespace (JS.trim line) (JS.splitSpaces (JS.trim nsOutput))
    = NamespaceChosen namespace /\
    forwardServices regexpReplace namespace w1 = Done launches w'.
Proof.
  unfold askNamespace. intros Hrun.
  apply bind_Done in Hrun as (namespaces & w1 & Hns & Hrun).
  destruct (getNamespaces_Done _ _ _ Hns) as (o1 & nsOutput & Hc1 & Hsettle
                                              & -> & Ha1).
  destruct (length (JS.splitSpaces (JS.trim nsOutput)) =? 0)%nat.
  { left. by eapply closeAndReturn_Done. }
  apply bind_Done in Hrun as ([] & w2 & Hemit2 & Hrun).
  destruct (emit_same _ _ _ Hemit2) as [Ha2 Hc2].
  apply bind_Done in Hrun as ([] & w3 & Hemit3 & Hrun).
  destruct (emitAll_same _ _ _ Hemit3) as [Ha3 Hc3].
  apply bind_Done in Hrun as (nsAnswer & w4 & Hprompt & Hrun).
  destruct (prompt_Done _ _ _ _ Hprompt) as (line & Ha4 & -> & Hc4).
  destruct (selectNamespace (JS.trim line) (JS.splitSpaces (JS.trim nsOutput)))
    as [|namespace] eqn:Hsel.
  { left. by eapply closeAndReturn_Done. }
  apply bind_Done in Hrun as ([] & w5 & Hemit5 & Hrun).
  destruct (emit_same _ _ _ Hemit5) as [Ha5 Hc5].
  right. exists namespace, w5, o1, nsOutput, line.
  split; [congruence|]. split; [exact Hsettle|]. split; [congruence|].
  split; [exact Hsel|exact Hrun].
Qed.

(** The namespace of the run: the one of the command line, or the one
    chosen at the prompt. *)
Lemma main_Done argv w launches w' :
  main title regexpReplace argv w = Done launches w' ->
  launches = [] \/
  exists namespace w1,
    (truthy (getArgValue argv "--namespace") = true ->
     namespace = getArgValue argv "--namespace" /\
     commands w1 = commands w /\ answers w1 = answers w) /\
    (truthy (getArgValue argv "--namespace") = false ->
     exists o1 nsOutput line,
       commands w = o1 :: commands w1 /\ settle o1 = Resolved nsOutput /\
       answers w = line :: answers w1 /\
       selectNamespace (JS.trim line) (JS.splitSpaces (JS.trim nsOutput))
       = NamespaceChosen namespace) /\
    forwardServices regexpReplace namespace w1 = Done launches w'.
Proof.
  unfold main. intros Hrun.
  apply bind_Done in Hrun as ([] & w1 & Hbanner & Hrun).
  destruct (emitAll_same _ _ _ Hbanner) as [Ha1 Hc1].
  apply tryCatch_Done in Hrun as [Hrun|(e & w2 & _ & Hrun)].
  - destruct (truthy (getArgValue argv "--namespace")) eqn:Hflag.
    + right. exists (getArgValue argv "--namespace"), w1.
      split; [done|]. split; [done|exact Hrun].
    + apply askNamespace_Done in Hrun
        as [->|(namespace & w2 & o1 & nsOutput & line & Hc2 & Hsettle & Ha2
                & Hsel & Hrun)]; [by left|right].
      exists namespace, w2. split; [done|]. split; [|exact Hrun].
      intros _. exists o1, nsOutput, line.
      split; [congruence|]. split; [exact Hsettle|]. split; [congruence|].
      exact Hsel.
  - left. apply bind_Done in Hrun as ([] & w3 & _ & Hrun).
    by eapply closeAndReturn_Done.
Qed.

End MainLaunches.

(** X17.  What [main] starts.  When [main] returns having started anything,
    it has started the logs windows asked for and then one tunnel per
    configuration; the local ports of the tunnels are pairwise distinct
    texts; every pod a tunnel or a logs window is opened to is a pod of
    the listing printed by the command of the run that lists the pods,
    with the status [Running] or, when the listing has no such column,
    none; and the namespace of every configuration is the namespace of
    the run or, when the run is in none, the one the listing gives for
    the pod.  The namespace of the run is the value of [--namespace]
    when the command line gives one, the listing being the output of
    the first command; otherwise it is what the answer received by the
    first question chooses among the words of the output of the first
    command, the listing being the output of the second. *)
Theorem main_tunnels_target_listed_pods (title : string)
    (regexpReplace : string -> string -> option string)
    (argv : list string) (w : world) (launches : list launch) (w' : world) :
  main title regexpReplace argv w = Done launches w' ->
  launches = [] \/
  exists o podsData namespace configs,
    o ∈ commands w /\ settle o = Resolved podsData /\
    (truthy (getArgValue argv "--namespace") = true ->
     namespace = getArgValue argv "--namespace" /\
     exists rest, commands w = o :: rest) /\
    (truthy (getArgValue argv "--namespace") = false ->
     exists o1 nsOutput line restAnswers restCommands,
       commands w = o1 :: o :: restCommands /\
       settle o1 = Resolved nsOutput /\
       answers w = line :: restAnswers /\
       selectNamespace (JS.trim line) (JS.splitSpaces (JS.trim nsOutput))
       = NamespaceChosen namespace) /\
    configs <> [] /\
    launches = logsLaunches configs ++ forwardLaunches configs /\
    NoDup (Config.localPort <$> configs) /\
    Forall (fun cfg =>
      exists line, line ∈ listingRows podsData /\
        nameOf (JS.indexOf "NAME" (listingHeaders podsData)) line
        = Some (podName cfg) /\
        (JS.at_ (JS.splitSpaces line)
                (JS.indexOf "STATUS" (listingHeaders podsData)) = None \/
         JS.at_ (JS.splitSpaces line)
                (JS.indexOf "STATUS" (listingHeaders podsData))
         = Some "Running") /\
        Config.serviceNamespace cfg
        = match namespace with
          | Some ns => Some ns
          | None =>
              JS.at_ (JS.splitSpaces line)
                     (JS.indexOf "NAMESPACE" (listingHeaders podsData))
          end) configs.
Proof.
  intros Hrun.
  apply main_Done in Hrun
    as [->|(namespace & w1 & Hflag & Hasked & Hrun)]; [by left|].
  apply forwardServices_Done in Hrun
    as [->|(podsData & w2 & catalog & services & w3 & configs & reserved & w4
            & Hpods & Hparse & Hconf & Hne & ->)]; [by left|right].
  apply getPods_Done in Hpods as (o & Hcmds & Hsettle & _).
  exists o, podsData, namespace, configs.
  split.
  { destruct (truthy (getArgValue argv "--namespace")) eqn:Htruthy.
    - destruct (Hflag eq_refl) as (_ & Hc & _). rewrite <- Hc, Hcmds. by left.
    - destruct (Hasked eq_refl) as (o1 & nsOutput & line & Hc & _).
      rewrite Hc, Hcmds. right. by left. }
  split; [exact Hsettle|]. split.
  { intros Htruthy. destruct (Hflag Htruthy) as (Hns & Hc & _).
    split; [exact Hns|]. exists (commands w2). by rewrite <- Hc. }
  split.
  { intros Htruthy.
    destruct (Hasked Htruthy) as (o1 & nsOutput & line & Hc & Hout & Ha & Hsel).
    exists o1, nsOutput, line, (answers w1), (commands w2).
    split; [by rewrite Hc, Hcmds|]. by split. }
  split; [exact Hne|]. split; [reflexivity|].
  unfold configure in Hconf. split.
  - eapply configureAll_portsReserved in Hconf as [Hnd _]; [exact Hnd|].
    split; constructor.
  - eapply configureAll_Forall with (acc := []); [|constructor|exact Hconf].
    intros reserved0 s w5 cfg reserved1 w6 _ Hone.
    exact (configureService_listed_pod _ _ _ _ _ _ _ _ _ _ Hparse Hone).
Qed.

(** A run without [--namespace]: the second namespace is chosen at the
    prompt. *)
Example main_prompt_session :
  exists w',
    main "Kubernetes Port Forward" noRegexp promptArgv promptWorld
    = Done [PortForward ["port-forward"; "--namespace"; "team2";
                         "cart-5c6b-q2w3e"; "3000:8080"]] w'.
Proof. eexists. by vm_compute. Qed.

Lemma main_tunnels_target_listed_pods_witness :
  truthy (getArgValue promptArgv "--namespace") = false /\
  selectNamespace "2" ["team1"; "team2"] = NamespaceChosen (Some "team2") /\
  exists w' namespace configs,
    main "Kubernetes Port Forward" noRegexp promptArgv promptWorld
    = Done [PortForward ["port-forward"; "--namespace"; "team2";
                         "cart-5c6b-q2w3e"; "3000:8080"]] w' /\
    namespace = Some "team2" /\
    [PortForward ["port-forward"; "--namespace"; "team2";
                  "cart-5c6b-q2w3e"; "3000:8080"]]
    = logsLaunches configs ++ forwardLaunches configs /\
    NoDup (Config.localPort <$> configs).
Proof.
  assert (Hflag : truthy (getArgValue promptArgv "--namespace") = false)
    by reflexivity.
  split; [exact Hflag|]. split; [reflexivity|].
  destruct main_prompt_session as (w' & Hrun).
  exists w'.
  destruct (main_tunnels_target_listed_pods _ _ _ _ _ _ Hrun)
    as [Hnil|(o & podsData & namespace & configs & _ & _ & _ & Hasked & _
              & Hlaunches & Hnd & _)].
  - discriminate Hnil.
  - exists namespace, configs. split; [exact Hrun|].
    split; [|split; assumption].
    destruct (Hasked Hflag) as (o1 & nsOutput & line & restA & restC
                                & Hc & Hout & Ha & Hsel).
    injection Hc as <- _ _. injection Ha as <- _.
    injection Hout as <-. revert Hsel. vm_compute. by intros [= <-].
Defined.

(** ** The services menu *)

#[local] Instance codeUnitLe_total : Total codeUnitLe.
Proof. intros a b. apply String.leb_total. Qed.

(** X18.  The menu of services lists every service of the catalog once, in
    the order of the code units of the names, and every service listed
    has an environment to offer. *)
Theorem services_menu (regexpReplace : string -> string -> option string)
    (podsData : string) (namespace : option string) (catalog : servicesMap) :
  parseServicesMap regexpReplace podsData namespace = Ok catalog ->
  let servicesList := sortedKeys catalog in
  Sorted codeUnitLe servicesList /\ NoDup servicesList /\
  (forall s, s ∈ servicesList <-> is_Some (assocGet s catalog)) /\
  (forall s, s ∈ servicesList -> exists env d, entryAt catalog s env = Some d).
Proof.
  intros Hparse servicesList.
  assert (Hwf : wellFormed catalog).
  { eapply parseRows_wellFormed; [apply wellFormed_nil|exact Hparse]. }
  destruct Hwf as [Hnd Hshape].
  assert (Hperm : servicesList ≡ₚ catalog.*1) by apply merge_sort_Permutation.
  assert (Hkeys : forall s, s ∈ servicesList <-> is_Some (assocGet s catalog)).
  { intros s. rewrite Hperm. split; [apply assocGet_key|].
    intros [envs Hget]. destruct (decide (s ∈ catalog.*1)) as [|Hnot]; [done|].
    apply assocGet_None_keys in Hnot. congruence. }
  split; [apply (Sorted_merge_sort codeUnitLe)|].
  split; [by rewrite Hperm|]. split; [exact Hkeys|].
  intros s [envs Hget]%Hkeys.
  pose proof (assocGet_Some_elem _ _ _ Hget) as Hin.
  rewrite Forall_forall in Hshape. destruct (Hshape _ Hin) as (Hne & _ & _).
  cbn [snd] in Hne. destruct envs as [|[env d] envs]; [done|].
  exists env, d. unfold entryAt. rewrite Hget. cbn.
  by rewrite decide_True.
Qed.

Lemma services_menu_witness :
  parseServicesMap noRegexp listingWithStatus None = Ok catalogWithStatus /\
  sortedKeys catalogWithStatus = ["cart"; "checkout"] /\
  Sorted codeUnitLe (sortedKeys catalogWithStatus).
Proof.
  split; [reflexivity|]. split; [by vm_compute|].
  exact (proj1 (services_menu noRegexp listingWithStatus None catalogWithStatus
                  eq_refl)).
Defined.

(** ** Names *)

Lemma split_app c s1 s2 :
  JS.split c (s1 +:+ String c s2) = JS.split c s1 ++ JS.split c s2.
Proof.
  induction s1 as [|ch r IH].
  - change (EmptyString +:+ String c s2) with (String c s2).
    cbn [JS.split]. by rewrite Ascii.eqb_refl.
  - change (String ch r +:+ String c s2) with (String ch (r +:+ String c s2)).
    cbn [JS.split]. rewrite IH.
    destruct (Ascii.eqb ch c); [done|].
    pose proof (split_nonempty c r) as Hne.
    by destruct (JS.split c r).
Qed.

(** X19.  How a pod name is cut: in every entry of the catalog the id is made
    of the last two hyphen-separated segments of the name of a listed
    pod and the service name of all the segments before them, so that a
    pod name of three segments leaves its first segment alone as the
    service name; the environment is read off the start of the pod
    name. *)
Theorem catalog_entry_name (regexpReplace : string -> string -> option string)
    (podsData : string) (namespace : option string) (catalog : servicesMap)
    (key env : string) (d : Details.t) :
  parseServicesMap regexpReplace podsData namespace = Ok catalog ->
  entryAt catalog key env = Some d ->
  let name := Details.serviceName d +:+ "-" +:+ Details.id d in
  (exists line, line ∈ listingRows podsData /\
     nameOf (JS.indexOf "NAME" (listingHeaders podsData)) line = Some name) /\
  length (JS.split "-" (Details.id d)) = 2%nat /\
  JS.split "-" name
  = JS.split "-" (Details.serviceName d) ++ JS.split "-" (Details.id d) /\
  env = envPrefixOf name.
Proof.
  intros Hparse Hentry name.
  destruct (catalog_facts_aux _ _ _ _ Hparse) as [Hfrom _].
  destruct (Hfrom _ _ _ Hentry) as (line & Hline & Hrow).
  destruct (rowEntry_name _ _ _ _ _ _ _ _ _ Hrow) as (Hname & Hid & Henv).
  split; [by exists line|]. split; [exact Hid|]. split; [|exact Henv].
  apply split_app.
Qed.

Lemma catalog_entry_name_witness :
  parseServicesMap noRegexp listingThreeSegments (Some "team1")
  = Ok [("dev", [("dev", Details.mk "checkout-abc123" (Some "team1") "dev")])] /\
  JS.split "-" "dev-checkout-abc123" = ["dev"] ++ ["checkout"; "abc123"] /\
  "dev" = envPrefixOf "dev-checkout-abc123".
Proof.
  split; [reflexivity|].
  destruct (catalog_entry_name noRegexp listingThreeSegments (Some "team1")
              [("dev", [("dev", Details.mk "checkout-abc123" (Some "team1") "dev")])]
              "dev" "dev" (Details.mk "checkout-abc123" (Some "team1") "dev")
              eq_refl eq_refl) as (_ & _ & Hsplit & Henv).
  split; [exact Hsplit|exact Henv].
Defined.

(** ** The destination port left to its default *)

(** X20.  An empty answer at the destination-port prompt keeps the text the
    detection has returned, whatever it is: when that text is no valid
    port (two ports, say) the message of lines 590-593 is printed and
    the text is stored and passed to the tunnel all the same. *)
Theorem blank_destination_keeps_detected
    (selectedService environment envLabel serviceId serviceName : string)
    (serviceNamespace : option string) (localPort : string)
    (w : world) (o : execOutcome) (cmds : list execOutcome)
    (destLine logsLine : string) (rest : list string) :
  commands w = o :: cmds ->
  answers w = destLine :: logsLine :: rest ->
  JS.trim destLine = EmptyString ->
  let detected :=
    match settle o with Resolved out => out | Rejected _ => "3000" end in
  exists cfg w',
    completeConfig selectedService environment envLabel serviceId serviceName
                   serviceNamespace localPort w = Done cfg w' /\
    Config.servicePort cfg = detected /\
    last (portForwardArgs cfg) = Some (localPort +:+ ":" +:+ detected) /\
    (isValidPort detected = false ->
     print c.red ("Invalid destination port for " +:+ selectedService
                  +:+ ". Using detected/default: " +:+ detected) ∈ trace w') /\
    answers w' = rest /\ commands w' = cmds.
Proof.
  intros Hcmds Hans Hblank detected.
  assert (exists w1, getServicePort serviceNamespace serviceName w
                     = Done detected w1 /\
                     answers w1 = answers w /\ commands w1 = cmds)
    as (w1 & Hport & Hans1 & Hcmds1).
  { unfold detected. destruct (settle o) as [out|message] eqn:Hsettle.
    - destruct (getServicePort_resolved serviceNamespace serviceName _ _ _ _
                  Hcmds Hsettle) as (w1 & ? & ? & ? & _). by exists w1.
    - destruct (getServicePort_rejected serviceNamespace serviceName _ _ _ _
                  Hcmds Hsettle) as (w1 & ? & ? & ? & _). by exists w1. }
  rewrite Hans in Hans1.
  unfold completeConfig. rewrite bind_run, Hport.
  rewrite bind_run, (prompt_run _ _ _ _ Hans1), Hblank.
  cbn [JS.isEmpty].
  destruct (isValidPort detected) eqn:Hvalid; run;
    (eexists _, _; split; [reflexivity|]); simpl;
    (split; [done|]); (split; [done|]); (split; [|done]); [done|].
  intros _. rewrite !elem_of_app, !list_elem_of_singleton. left; right. done.
Qed.

Lemma blank_destination_keeps_detected_witness :
  isValidPort "80 443" = false /\
  exists cfg w',
    completeConfig "checkout" "dev" "dev~" "7d9f-abc12" "dev-checkout"
                   (Some "team1") "3000" twoPortsWorld = Done cfg w' /\
    Config.servicePort cfg = "80 443" /\
    last (portForwardArgs cfg) = Some "3000:80 443".
Proof.
  split; [by vm_compute|].
  destruct (blank_destination_keeps_detected "checkout" "dev" "dev~" "7d9f-abc12"
              "dev-checkout" (Some "team1") "3000" twoPortsWorld
              (mkExec None "80 443" "") [] "" "n" [] eq_refl eq_refl eq_refl)
    as (cfg & w' & Hrun & Hport & Hlast & _).
  exists cfg, w'. split; [exact Hrun|]. split; [exact Hport|exact Hlast].
Defined.

(** ** What a tunnel writes *)

(** X21.  Every text written for a tunnel is one complete line: the colour of
    its source (the announcement, the standard output, the standard
    error, the exit), the prefix of the tunnel, a space, a line without
    line break, the reset code and a line feed. *)
Theorem tunnel_output_prefixed (cfg : Config.t) (evs : list childEvent) :
  Forall (fun text =>
    exists colorCode line,
      colorCode ∈ [c.magenta; c.green; c.red; c.cyan] /\
      hasLineBreak line = false /\
      text = colorText colorCode (tunnelPrefix cfg +:+ " " +:+ line) +:+ LF)
    (tunnelOutput cfg evs).
Proof.
  set (P := fun text =>
    exists colorCode line,
      colorCode ∈ [c.magenta; c.green; c.red; c.cyan] /\
      hasLineBreak line = false /\
      text = colorText colorCode (tunnelPrefix cfg +:+ " " +:+ line) +:+ LF).
  assert (Hwrite : forall colorCode data,
            colorCode ∈ [c.magenta; c.green; c.red; c.cyan] ->
            Forall P (writePrefixedLines colorCode (tunnelPrefix cfg) data)).
  { intros colorCode data Hcolor.
    destruct (writePrefixedLines_decorated colorCode (tunnelPrefix cfg) data)
      as (lines & -> & Hbreaks & _).
    apply Forall_forall. intros text Hin.
    apply list_elem_of_In, in_map_iff in Hin as (line & <- & Hline).
    apply list_elem_of_In in Hline. rewrite Forall_forall in Hbreaks.
    exists colorCode, line. by split; [|split; [apply Hbreaks|]]. }
  enough (Hall : forall printedAvailable,
            Forall P (runChild cfg printedAvailable evs)) by apply Hall.
  induction evs as [|ev evs IH]; intros printedAvailable; cbn [runChild].
  - constructor.
  - destruct ev as [data|data|code]; cbn [onChildEvent];
      apply Forall_app; (split; [|apply IH]).
    + apply Forall_app. split.
      * destruct printedAvailable; [constructor|].
        apply Hwrite. set_solver.
      * apply Hwrite. set_solver.
    + apply Hwrite. set_solver.
    + apply Hwrite. set_solver.
Qed.

(** ** Sessions told apart *)

Lemma occurs_trimStart c s :
  JS.isWhiteSpace c = false -> occurs c (JS.trimStart s) = occurs c s.
Proof.
  intros Hc. induction s as [|ch r IH]; [done|]. cbn [JS.trimStart].
  destruct (JS.isWhiteSpace ch) eqn:Hch; [|done].
  rewrite IH. cbn [occurs].
  destruct (Ascii.eqb ch c) eqn:E; [|done].
  apply Ascii.eqb_eq in E. congruence.
Qed.

Lemma occurs_trimEnd c s :
  JS.isWhiteSpace c = false -> occurs c (JS.trimEnd s) = occurs c s.
Proof.
  intros Hc. induction s as [|ch r IH]; [done|]. cbn [JS.trimEnd].
  destruct (JS.isWhiteSpace ch && JS.isEmpty (JS.trimEnd r)) eqn:Hdrop.
  - apply andb_true_iff in Hdrop as [Hch Hempty].
    destruct (JS.trimEnd r); [|discriminate Hempty].
    cbn [occurs] in *. rewrite <- IH.
    destruct (Ascii.eqb ch c) eqn:E; [|done].
    apply Ascii.eqb_eq in E. congruence.
  - cbn [occurs]. by rewrite IH.
Qed.

Lemma occurs_trim c s :
  JS.isWhiteSpace c = false -> occurs c (JS.trim s) = occurs c s.
Proof.
  intros Hc. unfold JS.trim. by rewrite occurs_trimEnd, occurs_trimStart.
Qed.

Lemma radixDigit_colon radix : JS.radixDigit radix ":" = None.
Proof. reflexivity. Qed.

Lemma radixDigit_not_colon radix ch d :
  JS.radixDigit radix ch = Some d -> Ascii.eqb ch ":" = false.
Proof.
  intros Hd. destruct (Ascii.eqb ch ":") eqn:E; [|done].
  apply Ascii.eqb_eq in E. subst ch. discriminate Hd.
Qed.

Lemma spanDigits_colon radix s ds rest :
  JS.spanDigits radix s = (ds, rest) -> occurs ":" s = occurs ":" rest.
Proof.
  revert ds. induction s as [|ch r IH]; intros ds Hspan; cbn [JS.spanDigits] in Hspan.
  - by injection Hspan as _ <-.
  - destruct (JS.radixDigit radix ch) as [d|] eqn:Hd.
    + destruct (JS.spanDigits radix r) as [ds' rest'].
      injection Hspan as _ <-. cbn [occurs].
      by rewrite (radixDigit_not_colon _ _ _ Hd), (IH ds').
    + by injection Hspan as _ <-.
Qed.

Lemma fraction_colon r1 fp r2 :
  match r1 with
  | String "." r => JS.spanDigits 10 r
  | _ => ([], r1)
  end = (fp, r2) ->
  occurs ":" r1 = occurs ":" r2.
Proof.
  destruct r1 as [|ch r]; [by intros [= _ <-]|].
  destruct (Ascii.eqb ch ".") eqn:E.
  - apply Ascii.eqb_eq in E. subst ch. intros Hspan.
    by rewrite <- (spanDigits_colon _ _ _ _ Hspan).
  - destruct ch as [[] [] [] [] [] [] [] []]; try discriminate E;
      by intros [= _ <-].
Qed.

Lemma sign_colon r3 :
  occurs ":" r3
  = occurs ":" (match r3 with
                | String "-" r => (-1, r)
                | String "+" r => (1, r)
                | _ => (1, r3)
                end).2.
Proof.
  destruct r3 as [|ch r]; [done|].
  destruct ch as [[] [] [] [] [] [] [] []]; reflexivity.
Qed.

Lemma exponent_colon (mant frac : Z) r2 m e :
  match r2 with
  | EmptyString => Some (mant, - frac)
  | String "e" r3 | String "E" r3 =>
      let '(esign, r4) :=
        match r3 with
        | String "-" r => (-1, r)
        | String "+" r => (1, r)
        | _ => (1, r3)
        end in
      match JS.spanDigits 10 r4 with
      | (d :: ds', EmptyString) =>
          Some (mant, esign * JS.mathInt 10 (d :: ds') - frac)
      | _ => None
      end
  | _ => None
  end = Some (m, e) ->
  occurs ":" r2 = false.
Proof.
  destruct r2 as [|ch r3]; [done|].
  assert (Hexp :
    (let '(esign, r4) :=
       match r3 with
       | String "-" r => (-1, r)
       | String "+" r => (1, r)
       | _ => (1, r3)
       end in
     match JS.spanDigits 10 r4 with
     | (d :: ds', EmptyString) =>
         Some (mant, esign * JS.mathInt 10 (d :: ds') - frac)
     | _ => None
     end) = Some (m, e) -> occurs ":" r3 = false).
  { rewrite (sign_colon r3).
    destruct (match r3 with
              | String "-" r => (-1, r)
              | String "+" r => (1, r)
              | _ => (1, r3)
              end) as [esign r4]. cbn [snd].
    destruct (JS.spanDigits 10 r4) as [ds rest] eqn:Hspan.
    rewrite (spanDigits_colon _ _ _ _ Hspan).
    destruct ds; [done|]. by destruct rest. }
  destruct ch as [[] [] [] [] [] [] [] []]; try discriminate;
    intros H; cbn [occurs]; by rewrite (Hexp H).
Qed.

Lemma parseDecimal_colon u m e :
  JS.parseDecimal u = Some (m, e) -> occurs ":" u = false.
Proof.
  unfold JS.parseDecimal.
  destruct (JS.spanDigits 10 u) as [ip r1] eqn:Hip.
  rewrite (spanDigits_colon _ _ _ _ Hip).
  destruct (match r1 with
            | String "." r => JS.spanDigits 10 r
            | _ => ([], r1)
            end) as [fp r2] eqn:Hfp.
  rewrite (fraction_colon _ _ _ Hfp).
  destruct (ip ++ fp); [done|].
  apply exponent_colon.
Qed.

Lemma nonDecimalPrefix_colon t radix body :
  JS.nonDecimalPrefix t = Some (radix, body) ->
  occurs ":" t = occurs ":" body.
Proof.
  destruct t as [|c1 r]; [done|].
  destruct c1 as [[] [] [] [] [] [] [] []]; try discriminate.
  destruct r as [|c2 r2]; [done|].
  destruct c2 as [[] [] [] [] [] [] [] []]; try discriminate;
    by intros [= _ <-].
Qed.

(** A valid port holds no colon. *)
Lemma isValidPort_colon s : isValidPort s = true -> occurs ":" s = false.
Proof.
  unfold isValidPort, JS.Number. cbv zeta.
  rewrite <- (occurs_trim ":" s eq_refl).
  set (t := JS.trim s).
  destruct (JS.isEmpty t); [done|].
  destruct (JS.nonDecimalPrefix t) as [[radix body]|] eqn:Hprefix.
  - rewrite (nonDecimalPrefix_colon _ _ _ Hprefix).
    destruct (JS.spanDigits radix body) as [ds rest] eqn:Hspan.
    rewrite (spanDigits_colon _ _ _ _ Hspan).
    destruct ds; [done|]. by destruct rest.
  - assert (Hsign : occurs ":" t
                    = occurs ":" (match t with
                                  | String "-" r => (true, r)
                                  | String "+" r => (false, r)
                                  | _ => (false, t)
                                  end).2).
    { destruct t as [|ch r]; [done|].
      destruct ch as [[] [] [] [] [] [] [] []]; reflexivity. }
    rewrite Hsign.
    destruct (match t with
              | String "-" r => (true, r)
              | String "+" r => (false, r)
              | _ => (false, t)
              end) as [neg u]. cbn [snd].
    destruct (String.eqb u "Infinity"); [by destruct neg|].
    destruct (JS.parseDecimal u) as [[m e]|] eqn:Hdec; [|done].
    intros _. by eapply parseDecimal_colon.
Qed.

Lemma string_length_app (s1 s2 : string) :
  String.length (s1 +:+ s2) = (String.length s1 + String.length s2)%nat.
Proof.
  induction s1 as [|ch r IH]; [done|].
  change (String ch r +:+ s2) with (String ch (r +:+ s2)).
  cbn [String.length]. by rewrite IH.
Qed.

Lemma string_app_inj_l (s1 s2 t : string) : s1 +:+ t = s2 +:+ t -> s1 = s2.
Proof.
  revert s2. induction s1 as [|ch r IH]; intros [|ch2 r2] Heq.
  - done.
  - apply (f_equal String.length) in Heq.
    rewrite !string_length_app in Heq. cbn [String.length] in Heq. lia.
  - apply (f_equal String.length) in Heq.
    rewrite !string_length_app in Heq. cbn [String.length] in Heq. lia.
  - change (String ch r +:+ t) with (String ch (r +:+ t)) in Heq.
    change (String ch2 r2 +:+ t) with (String ch2 (r2 +:+ t)) in Heq.
    injection Heq as -> Heq. f_equal. by apply IH.
Qed.

(** The text after the last colon. *)
Lemma last_field a p :
  occurs ":" p = false -> last (JS.split ":" (a +:+ ":" +:+ p)) = Some p.
Proof.
  intros Hp. change (":" +:+ p) with (String ":" p).
  rewrite split_app, (split_no_separator ":" p Hp). apply last_snoc.
Qed.

Lemma sessionLabel_port cfg1 cfg2 :
  isValidPort (Config.localPort cfg1) = true ->
  isValidPort (Config.localPort cfg2) = true ->
  sessionLabel cfg1 = sessionLabel cfg2 ->
  Config.localPort cfg1 = Config.localPort cfg2.
Proof.
  intros H1%isValidPort_colon H2%isValidPort_colon Heq.
  assert (Hshape : forall cfg,
            sessionLabel cfg
            = (Config.envLabel cfg +:+ Config.selectedService cfg)
              +:+ ":" +:+ Config.localPort cfg).
  { intros cfg. unfold sessionLabel. by rewrite string_app_assoc. }
  apply (f_equal (fun s => last (JS.split ":" s))) in Heq.
  rewrite !Hshape, !last_field in Heq by done. by injection Heq.
Qed.

Lemma NoDup_fmap_from {A B C} (f : A -> B) (g : A -> C) (l : list A) :
  (forall x y, x ∈ l -> y ∈ l -> g x = g y -> f x = f y) ->
  NoDup (f <$> l) -> NoDup (g <$> l).
Proof.
  induction l as [|x l IH]; intros Hinj Hnd; [constructor|].
  cbn [fmap list_fmap] in *. apply NoDup_cons in Hnd as [Hx Hnd].
  apply NoDup_cons. split.
  - intros (y & Hgy & Hy)%list_elem_of_fmap. apply Hx.
    apply list_elem_of_fmap. exists y. split; [|done].
    apply Hinj; [by left|by right|done].
  - apply IH; [|done]. intros a b Ha Hb. apply Hinj; by right.
Qed.

(** X22.  The sessions of a run are told apart by their labels: the labels
    [<environment>~<service>:<local port>], which are the titles of the
    logs windows, and the prefixes of the lines the tunnels write, are
    pairwise distinct. *)
Theorem sessions_told_apart (catalog : servicesMap) (namespace : option string)
    (selectedServices : list string) (w : world)
    (configs : list Config.t) (reserved : gset string) (w' : world) :
  configure catalog namespace selectedServices w = Done (configs, reserved) w' ->
  NoDup (sessionLabel <$> configs) /\ NoDup (tunnelPrefix <$> configs).
Proof.
  unfold configure. intros Hrun.
  eapply configureAll_portsReserved in Hrun as [Hnd Hvalid];
    [|split; constructor].
  rewrite Forall_forall in Hvalid.
  assert (Hlabels : NoDup (sessionLabel <$> configs)).
  { eapply NoDup_fmap_from; [|exact Hnd].
    intros cfg1 cfg2 H1%Hvalid H2%Hvalid.
    apply sessionLabel_port; tauto. }
  split; [exact Hlabels|].
  eapply NoDup_fmap_from; [|exact Hlabels].
  intros cfg1 cfg2 _ _ Heq. unfold tunnelPrefix in Heq.
  injection Heq as Heq.
  assert (Hshape : forall cfg,
            Config.envLabel cfg +:+ Config.selectedService cfg +:+ ":"
            +:+ Config.localPort cfg +:+ "]" = sessionLabel cfg +:+ "]").
  { intros cfg. unfold sessionLabel. by rewrite !string_app_assoc. }
  rewrite !Hshape in Heq. by eapply string_app_inj_l.
Qed.

Lemma sessions_told_apart_witness :
  exists configs reserved w',
    configure twoServices None ["checkout"; "cart"] samePortTwice
    = Done (configs, reserved) w' /\
    NoDup (tunnelPrefix <$> configs).
Proof.
  destruct (configure twoServices None ["checkout"; "cart"] samePortTwice)
    as [[configs reserved] w'| |] eqn:Hrun.
  - exists configs, reserved, w'. split; [reflexivity|].
    exact (proj2 (sessions_told_apart _ _ _ _ _ _ _ Hrun)).
  - exfalso. revert Hrun. vm_compute. discriminate.
  - exfalso. revert Hrun. vm_compute. discriminate.
Defined.

(** ** The local-port loop, line by line *)

Lemma localPortLoop_first question suggested reserved lines tr :
  let '(result, rest, tr') :=
    localPortLoop question suggested reserved lines tr in
  exists refused added,
    tr' = tr ++ added /\
    count isQuestion added = S (length refused) /\
    count isConsoleLog added = length refused /\
    Forall (fun line => acceptable reserved (candidatePort suggested line) = false)
           refused /\
    match result with
    | Some port =>
        exists line,
          lines = refused ++ line :: rest /\
          port = candidatePort suggested line /\
          acceptable reserved port = true
    | None => lines = refused /\ rest = []
    end.
Proof.
  revert tr. induction lines as [|line lines IH]; intros tr; cbn [localPortLoop].
  - exists [], [Question question]. by repeat split.
  - fold (candidatePort suggested line). set (port := candidatePort suggested line).
    assert (Hstep : forall message,
      acceptable reserved port = false ->
      let '(result, rest, tr') :=
        localPortLoop question suggested reserved lines
          (tr ++ [Question question; print c.red message]) in
      exists refused added,
        tr' = tr ++ added /\
        count isQuestion added = S (length refused) /\
        count isConsoleLog added = length refused /\
        Forall (fun line =>
                  acceptable reserved (candidatePort suggested line) = false)
               refused /\
        match result with
        | Some port =>
            exists line0,
              line :: lines = refused ++ line0 :: rest /\
              port = candidatePort suggested line0 /\
              acceptable reserved port = true
        | None => line :: lines = refused /\ rest = []
        end).
    { intros message Hrefused.
      specialize (IH (tr ++ [Question question; print c.red message])).
      destruct (localPortLoop question suggested reserved lines _)
        as [[result rest] tr'].
      destruct IH as (refused & added & -> & Hq & Hlog & Hall & Hres).
      exists (line :: refused), ([Question question; print c.red message] ++ added).
      split; [by rewrite <- app_assoc|].
      split; [rewrite count_app, Hq; reflexivity|].
      split; [rewrite count_app, Hlog; reflexivity|].
      split; [by constructor|].
      destruct result as [p|].
      - destruct Hres as (line0 & -> & Hp & Hacc). by exists line0.
      - destruct Hres as [-> ->]. done. }
    destruct (isValidPort port) eqn:Hvalid; cbn [negb].
    + destruct (decide (port ∈ reserved)) as [Hin|Hout].
      * apply Hstep. unfold acceptable. rewrite Hvalid.
        by rewrite bool_decide_eq_false_2 by (intros Hn; by apply Hn).
      * exists [], [Question question]. repeat split; [constructor|].
        exists line. repeat split. unfold acceptable.
        by rewrite Hvalid, bool_decide_eq_true_2.
    + apply Hstep. unfold acceptable. by rewrite Hvalid.
Qed.

(** X23.  The loop of the local-port prompt takes the first answer its
    questions receive whose port (the answer trimmed, or the suggestion
    when it is empty) is valid and not reserved.  Every answer received
    before it is refused with one message and the question is asked
    again; the answers the later questions of the run receive are not
    touched; when no answer received is acceptable the loop stays at
    the prompt.  It ends in no exception.  The answers are the lines
    the questions receive: a line that arrives while no question is
    pending is dropped by [readline] and is none of them. *)
Theorem local_port_first_acceptable (question suggested : string)
    (reserved : gset string) (w : world) :
  match askLocalPort question suggested reserved w with
  | Done port w' =>
      exists refused line added,
        answers w = refused ++ line :: answers w' /\
        port = candidatePort suggested line /\
        acceptable reserved port = true /\
        Forall (fun l => acceptable reserved (candidatePort suggested l) = false)
               refused /\
        trace w' = trace w ++ added /\
        count isQuestion added = S (length refused) /\
        count isConsoleLog added = length refused
  | Pending w' =>
      Forall (fun l => acceptable reserved (candidatePort suggested l) = false)
             (answers w) /\
      answers w' = [] /\
      exists added,
        trace w' = trace w ++ added /\
        count isQuestion added = S (length (answers w)) /\
        count isConsoleLog added = length (answers w)
  | Threw _ _ => False
  end.
Proof.
  unfold askLocalPort.
  pose proof (localPortLoop_first question suggested reserved (answers w)
                                  (trace w)) as Hloop.
  destruct (localPortLoop question suggested reserved (answers w) (trace w))
    as [[[port|] rest] tr'].
  - destruct Hloop as (refused & added & -> & Hq & Hlog & Hall
                       & line & Hlines & Hport & Hacc).
    exists refused, line, added. by repeat split.
  - destruct Hloop as (refused & added & -> & Hq & Hlog & Hall & <- & ->).
    split; [exact Hall|]. split; [reflexivity|]. by exists added.
Qed.

(** ** A listing that fails *)

(** X24.  When the first command of the run fails, or writes anything on
    its standard error, [main] asks nothing and starts nothing: it stops
    the spinner, prints the message of the error on the error output,
    closes the prompt interface and returns. *)
Theorem main_reports_failed_listing (title : string)
    (regexpReplace : string -> string -> option string)
    (argv : list string) (w : world) (o : execOutcome)
    (rest : list execOutcome) (message : string) :
  commands w = o :: rest ->
  settle o = Rejected message ->
  exists w' written,
    main title regexpReplace argv w = Done [] w' /\
    trace w' = trace w ++ written ++ [ConsoleError message; RlClose] /\
    count isQuestion written = 0%nat /\
    answers w' = answers w /\ commands w' = rest /\
    spinnerRunning w' = false.
Proof.
  intros Hcmds Hsettle. unfold main.
  destruct (emitAll_Done (banner title) w) as [w1 Hbanner].
  assert (Hw1 : exists written,
            w1 = mkWorld (answers w) (commands w) (spinnerRunning w)
                         (spinnerMessage w) (trace w ++ written) /\
            count isQuestion written = 0%nat).
  { revert Hbanner. unfold banner. run. intros [= <-].
    eexists. split; [by rewrite <- !app_assoc|]. reflexivity. }
  destruct Hw1 as (written1 & -> & Hq1).
  rewrite bind_run, Hbanner. unfold tryCatch.
  assert (Hfail : forall (cmd spinnerText : string) {A} (k : string -> M A),
            exists w2 written2,
              (emit (print c.green cmd) ≫= fun _ =>
               spinner.start spinnerText ≫= fun _ =>
               execPromise cmd ≫= k)
                (mkWorld (answers w) (commands w) (spinnerRunning w)
                         (spinnerMessage w) (trace w ++ written1))
              = Threw message w2 /\
              answers w2 = answers w /\ commands w2 = rest /\
              trace w2 = trace w ++ written1 ++ written2 /\
              count isQuestion written2 = 0%nat).
  { intros cmd spinnerText A k. run. rewrite Hcmds.
    destruct (spinnerRunning w); run; rewrite Hsettle;
      eexists _, _; (split; [reflexivity|]); cbn;
      (split; [reflexivity|]); (split; [reflexivity|]);
      (split; [by rewrite <- !app_assoc|]); reflexivity. }
  assert (Hbody : exists w2 written2,
            (if truthy (getArgValue argv "--namespace")
             then forwardServices regexpReplace (getArgValue argv "--namespace")
             else askNamespace regexpReplace)
              (mkWorld (answers w) (commands w) (spinnerRunning w)
                       (spinnerMessage w) (trace w ++ written1))
            = Threw message w2 /\
            answers w2 = answers w /\ commands w2 = rest /\
            trace w2 = trace w ++ written1 ++ written2 /\
            count isQuestion written2 = 0%nat).
  { destruct (truthy (getArgValue argv "--namespace")).
    - unfold forwardServices, getPods.
      match goal with
      | |- context [emit (print c.green ?cmd) ≫= _] =>
          destruct (Hfail cmd "Loading services" _
                      (fun podsData => spinner.stop ≫= fun _ => mret podsData))
            as (w2 & written2 & Hrun & Hrest)
      end.
      exists w2, written2. split; [|exact Hrest].
      rewrite bind_run. revert Hrun. run. by intros ->.
    - unfold askNamespace, getNamespaces.
      match goal with
      | |- context [emit (print c.green ?cmd) ≫= _] =>
          destruct (Hfail cmd "Loading namespaces" _
                      (fun nsOutput => spinner.stop ≫= fun _ =>
                                       mret (JS.splitSpaces (JS.trim nsOutput))))
            as (w2 & written2 & Hrun & Hrest)
      end.
      exists w2, written2. split; [|exact Hrest].
      rewrite bind_run. revert Hrun. run. by intros ->. }
  destruct Hbody as (w2 & written2 & -> & Hans & Hc & Htr & Hq2).
  unfold closeAndReturn. run.
  destruct (spinnerRunning w2) eqn:Hspin; cbn; rewrite Htr, Hans, Hc.
  - eexists _, (written1 ++ written2 ++ [_]).
    split; [reflexivity|]. cbn.
    split; [by rewrite <- !app_assoc|].
    split; [by rewrite !count_app, Hq1, Hq2|]. done.
  - eexists _, (written1 ++ written2).
    split; [reflexivity|]. cbn.
    split; [by rewrite <- !app_assoc|].
    split; [by rewrite !count_app, Hq1, Hq2|]. done.
Qed.

Lemma main_reports_failed_listing_witness :
  settle (mkExec (Some "Command failed: kubectl get pods") "" "")
  = Rejected "Command failed: kubectl get pods" /\
  exists w',
    main "Kubernetes Port Forward" noRegexp sessionArgv failingListing
    = Done [] w' /\
    last (trace w') = Some RlClose.
Proof.
  split; [reflexivity|].
  destruct (main_reports_failed_listing "Kubernetes Port Forward" noRegexp
              sessionArgv failingListing _ [] _ eq_refl eq_refl)
    as (w' & written & Hrun & Htr & _).
  exists w'. split; [exact Hrun|].
  rewrite Htr.
  change [ConsoleError "Command failed: kubectl get pods"; RlClose]
    with ([ConsoleError "Command failed: kubectl get pods"] ++ [RlClose]).
  rewrite !app_assoc. apply last_snoc.
Defined.

(** ** The environment offered first *)

Lemma assocGet_upsert key env d m key' :
  assocGet key' (upsert key env d m)
  = if decide (key' = key)
    then Some (assocSet env d (default [] (assocGet key m)))
    else assocGet key' m.
Proof.
  unfold upsert. destruct (assocGet key m) as [obj|] eqn:Hget.
  - rewrite Hget. cbn [default].
    destruct (decide (key' = key)) as [->|Hne].
    + by rewrite assocGet_set_eq.
    + by rewrite assocGet_set_ne.
  - rewrite assocGet_set_eq. cbn [default].
    destruct (decide (key' = key)) as [->|Hne].
    + by rewrite assocGet_set_eq.
    + by rewrite !assocGet_set_ne.
Qed.

Lemma assocSet_head {V} k (v : V) (m : list (string * V)) :
  head (assocSet k v m).*1 = match m with [] => Some k | _ => head m.*1 end.
Proof.
  destruct m as [|[k' v'] m]; [done|]. cbn [assocSet].
  destruct (decide (k' = k)) as [->|Hne]; reflexivity.
Qed.

Lemma assocSet_nonempty {V} k (v : V) (m : list (string * V)) :
  assocSet k v m <> [].
Proof.
  destruct m as [|[k' v'] m]; [done|]. cbn [assocSet].
  by destruct (decide (k' = k)).
Qed.

Section FirstEnvironment.

Variable regexpReplace : string -> string -> option string.
Variable namespace : option string.
Variables namespaceIndex nameIndex statusIndex : Z.

Let entryOf :=
  rowEntry regexpReplace namespace namespaceIndex nameIndex statusIndex.
Let rowsFrom :=
  parseRows regexpReplace namespace namespaceIndex nameIndex statusIndex.

(** The first environment of a service stays the first. *)
Lemma parseRows_head_kept rows m catalog key envs0 :
  rowsFrom rows m = Ok catalog ->
  assocGet key m = Some envs0 -> envs0 <> [] ->
  exists envs,
    assocGet key catalog = Some envs /\ head envs.*1 = head envs0.*1.
Proof.
  revert m envs0. induction rows as [|line rows IH]; intros m envs0 Hrun Hget Hne.
  - injection Hrun as <-. by exists envs0.
  - unfold rowsFrom in Hrun. cbn [parseRows] in Hrun.
    destruct (rowEntry regexpReplace namespace namespaceIndex nameIndex
                statusIndex line) as [[[[k e] d]|]|err]; [| |done].
    + destruct (decide (key = k)) as [<-|Hk].
      * destruct (IH (upsert key e d m) (assocSet e d envs0) Hrun)
          as (envs & Hcat & Hhead).
        { by rewrite assocGet_upsert, decide_True, Hget. }
        { apply assocSet_nonempty. }
        exists envs. split; [exact Hcat|]. rewrite Hhead, assocSet_head.
        by destruct envs0.
      * apply (IH (upsert k e d m) envs0 Hrun); [|exact Hne].
        by rewrite assocGet_upsert, decide_False.
    + by apply (IH m envs0 Hrun).
Qed.

(** The first environment of a service is that of the first row that
    belongs to the service. *)
Lemma parseRows_head_first rows m catalog key envs :
  rowsFrom rows m = Ok catalog ->
  assocGet key m = None ->
  assocGet key catalog = Some envs ->
  exists pre line post env d,
    rows = pre ++ line :: post /\
    entryOf line = Ok (Some (key, env, d)) /\
    Forall (fun l => forall env' d', entryOf l <> Ok (Some (key, env', d'))) pre /\
    head envs.*1 = Some env.
Proof.
  revert m. induction rows as [|line rows IH]; intros m Hrun Hnone Hget.
  - injection Hrun as <-. congruence.
  - unfold rowsFrom in Hrun. cbn [parseRows] in Hrun.
    destruct (rowEntry regexpReplace namespace namespaceIndex nameIndex
                statusIndex line) as [[[[k e] d]|]|err] eqn:Hrow; [| |done].
    + destruct (decide (key = k)) as [<-|Hk].
      * destruct (parseRows_head_kept rows (upsert key e d m) catalog key
                    (assocSet e d []) Hrun) as (envs' & Hcat & Hhead).
        { by rewrite assocGet_upsert, decide_True, Hnone. }
        { done. }
        exists [], line, rows, e, d. split; [done|]. split; [exact Hrow|].
        split; [constructor|]. rewrite Hget in Hcat. by injection Hcat as ->.
      * destruct (IH (upsert k e d m) Hrun) as (pre & l & post & env & d0
                                                & -> & Hl & Hpre & Hhead).
        { by rewrite assocGet_upsert, decide_False. }
        { exact Hget. }
        exists (line :: pre), l, post, env, d0. split; [done|].
        split; [exact Hl|]. split; [|exact Hhead].
        constructor; [|exact Hpre]. intros env' d'. unfold entryOf.
        rewrite Hrow. congruence.
    + destruct (IH m Hrun Hnone Hget) as (pre & l & post & env & d0
                                          & -> & Hl & Hpre & Hhead).
      exists (line :: pre), l, post, env, d0. split; [done|].
      split; [exact Hl|]. split; [|exact Hhead].
      constructor; [|exact Hpre]. intros env' d'. unfold entryOf.
      rewrite Hrow. congruence.
Qed.

End FirstEnvironment.

(** X25.  The environment offered first, which an empty answer at the
    environment prompt selects, is the environment of the first row of
    the listing that belongs to the service: the environments of a
    service are kept in the order in which the listing brings them. *)
Theorem default_environment_first_listed
    (regexpReplace : string -> string -> option string)
    (podsData : string) (namespace : option string) (catalog : servicesMap)
    (key : string) (envs : envObject) :
  parseServicesMap regexpReplace podsData namespace = Ok catalog ->
  assocGet key catalog = Some envs ->
  let headers := listingHeaders podsData in
  let entryOf :=
    rowEntry regexpReplace namespace (JS.indexOf "NAMESPACE" headers)
             (JS.indexOf "NAME" headers) (JS.indexOf "STATUS" headers) in
  exists pre line post env d,
    listingRows podsData = pre ++ line :: post /\
    entryOf line = Ok (Some (key, env, d)) /\
    Forall (fun l => forall env' d', entryOf l <> Ok (Some (key, env', d'))) pre /\
    head envs.*1 = Some env /\
    selectEnvironment EmptyString (map fst envs) = Some (Some env).
Proof.
  intros Hparse Hget headers entryOf.
  destruct (parseRows_head_first _ _ _ _ _ _ _ _ _ _ Hparse eq_refl Hget)
    as (pre & line & post & env & d & Hrows & Hline & Hpre & Hhead).
  exists pre, line, post, env, d.
  split; [exact Hrows|]. split; [exact Hline|]. split; [exact Hpre|].
  split; [exact Hhead|].
  destruct envs as [|[env0 d0] envs]; [discriminate Hhead|].
  injection Hhead as ->. unfold selectEnvironment.
  change (JS.parseInt EmptyString 10) with (@None Z). cbv zeta iota.
  destruct ((1 <? 1) || (Z.of_nat (length (map fst ((env, d0) :: envs))) <? 1))
    eqn:Hrange; [|reflexivity].
  apply orb_true_iff in Hrange as [Hrange|Hrange]; [done|].
  apply Z.ltb_lt in Hrange. cbn [map length] in Hrange. lia.
Qed.

Lemma default_environment_first_listed_witness :
  parseServicesMap noRegexp listingTwoEnvironments None
  = Ok [("checkout",
         [("qa", Details.mk "7d9f-xyz34" None "qa-checkout");
          ("dev", Details.mk "7d9f-abc12" None "dev-checkout")])] /\
  selectEnvironment EmptyString ["qa"; "dev"] = Some (Some "qa").
Proof.
  split; [reflexivity|].
  destruct (default_environment_first_listed noRegexp listingTwoEnvironments None
              _ "checkout" _ eq_refl eq_refl)
    as (pre & line & post & env & d & _ & _ & _ & Hhead & Hsel).
  injection Hhead as <-. exact Hsel.
Defined.
